(** * Dashboard metrics aggregation (usecase/dashboard.go): a shallow embedding

    The development follows the Go source of the dashboard usecase:
    [GetStacks], [GetResources], [getChartFromPrometheus], [getThanosUrl],
    [getChartYValue], [getStackMemoryDisk], [getStackCpu],
    [getClusterNameFromId] and [rangeDate].  The Go standard library
    functions the code calls (strconv, fmt, math, sort, time) and the
    go-cache package are modelled first, each next to the behaviour of the
    library it stands for. *)

From Stdlib Require Import ZArith QArith Qabs Qpower Lqa Ascii String List Bool Lia.
From stdpp Require Import base option list gmap strings.

Open Scope Z_scope.

(** ** Part I. Definitions *)

(** *** Machine integers: Go's [int] on a 64-bit platform *)

Definition maxInt64 : Z := 2 ^ 63 - 1.
Definition minInt64 : Z := - 2 ^ 63.

(** Two's complement wrap-around of an arithmetic result. *)
Definition wrap64 (z : Z) : Z := (z + 2 ^ 63) mod 2 ^ 64 - 2 ^ 63.

(** *** strconv: decimal integers *)

Definition isDigit (c : ascii) : bool :=
  ((48 <=? N_of_ascii c) && (N_of_ascii c <=? 57))%N.

Definition digitChar (d : N) : ascii := ascii_of_N (48 + d).

(** The digits of [n], most significant first, in front of [acc]. *)
Fixpoint utoa_aux (fuel : nat) (n : N) (acc : string) : string :=
  match fuel with
  | O => acc
  | S f =>
      let acc' := String (digitChar (n mod 10)) acc in
      if (n / 10 =? 0)%N then acc' else utoa_aux f (n / 10)%N acc'
  end.

Definition utoa (n : N) : string := utoa_aux (S (N.to_nat (N.log2 n))) n "".

(** [strconv.Itoa], which is also what [fmt.Sprintf("%d", _)] prints. *)
Definition Itoa (z : Z) : string :=
  if z <? 0 then String "-" (utoa (Z.to_N (- z))) else utoa (Z.to_N z).

Inductive NumError := ErrSyntax | ErrRange.

Definition maxUint64 : N := 2 ^ 64 - 1.

(** The loop of [strconv.ParseUint] in base 10 with bit size 64.  A byte
    that is not a digit is a syntax error; a value that leaves [uint64] is a
    range error, reported with the largest value as soon as the digits read
    so far overflow, whatever follows them. *)
Fixpoint parseUintLoop (s : string) (n : N) : N * option NumError :=
  match s with
  | EmptyString => (n, None)
  | String c s' =>
      if isDigit c then
        let d := (N_of_ascii c - 48)%N in
        if (maxUint64 / 10 + 1 <=? n)%N then (maxUint64, Some ErrRange)
        else
          let n1 := (n * 10 + d)%N in
          if (maxUint64 <? n1)%N then (maxUint64, Some ErrRange)
          else parseUintLoop s' n1
      else (0%N, Some ErrSyntax)
  end.

Definition ParseUint (s : string) : N * option NumError :=
  match s with
  | EmptyString => (0%N, Some ErrSyntax)
  | _ => parseUintLoop s 0
  end.

(** [strconv.ParseInt] in base 10 with the size of [int]: a sign, then
    [ParseUint]; a syntax error returns 0, a value out of range the nearest
    bound. *)
Definition ParseInt (s : string) : Z * option NumError :=
  match s with
  | EmptyString => (0, Some ErrSyntax)
  | _ =>
      let '(neg, body) :=
        match s with
        | String "+" r => (false, r)
        | String "-" r => (true, r)
        | _ => (false, s)
        end in
      match ParseUint body with
      | (_, Some ErrSyntax) => (0, Some ErrSyntax)
      | (un, _) =>
          let cutoff := 2 ^ 63 in
          if negb neg && (cutoff <=? Z.of_N un) then (cutoff - 1, Some ErrRange)
          else if neg && (cutoff <? Z.of_N un) then (- cutoff, Some ErrRange)
          else (if neg then - Z.of_N un else Z.of_N un, None)
      end
  end.

(** The loop of the fast path of [strconv.Atoi]; [None] is the syntax
    error. *)
Fixpoint atoiDigits (s : string) (n : Z) : option Z :=
  match s with
  | EmptyString => Some n
  | String c s' =>
      if isDigit c then atoiDigits s' (n * 10 + (Z.of_N (N_of_ascii c) - 48))
      else None
  end.

(** [strconv.Atoi]: strings of 1 to 18 bytes, which fit an [int], are read
    by a loop of their own; all others go through [ParseInt]. *)
Definition Atoi (s : string) : Z * option NumError :=
  let sLen := String.length s in
  if (0 <? sLen)%nat && (sLen <? 19)%nat then
    let '(neg, body) :=
      match s with
      | String "-" r => (true, r)
      | String "+" r => (false, r)
      | _ => (false, s)
      end in
    match body with
    | EmptyString => (0, Some ErrSyntax)
    | _ =>
        match atoiDigits body 0 with
        | None => (0, Some ErrSyntax)
        | Some n => (if neg then - n else n, None)
        end
    end
  else ParseInt s.

(** *** Floating point: IEEE 754 binary formats over exact rationals

    A finite value is a sign and a non-negative magnitude; every operation
    computes the exact rational result and rounds it to the format, to
    nearest with ties to even. *)

Inductive float :=
  | FFin (neg : bool) (mag : Q)
  | FInf (neg : bool)
  | FNaN.

Record binfmt := { prec : Z; eminUlp : Z; emaxPow : Z }.

Definition binary32 : binfmt := {| prec := 24; eminUlp := -149; emaxPow := 128 |}.
Definition binary64 : binfmt := {| prec := 53; eminUlp := -1074; emaxPow := 1024 |}.

Definition Qpow2 (e : Z) : Q :=
  if 0 <=? e then (2 ^ e) # 1 else 1 # (Z.to_pos (2 ^ (- e))).

(** The [e] with [2^e <= q < 2^(e+1)], for [q > 0]. *)
Definition floorLog2 (q : Q) : Z :=
  let a := Qnum q in
  let b := Zpos (Qden q) in
  let d := Z.log2 a - Z.log2 b in
  if (if 0 <=? d then b * 2 ^ d <=? a else b <=? a * 2 ^ (- d)) then d else d - 1.

(** Nearest integer, ties to the even one. *)
Definition roundHalfEven (q : Q) : Z :=
  let a := Qnum q in
  let b := Zpos (Qden q) in
  let fl := a / b in
  match (2 * (a mod b) ?= b) with
  | Lt => fl
  | Gt => fl + 1
  | Eq => if Z.even fl then fl else fl + 1
  end.

Definition roundMag (f : binfmt) (q : Q) : Q :=
  if Qnum q =? 0 then 0%Q
  else
    let e := floorLog2 q in
    let ex := Z.max (e - (prec f - 1)) (eminUlp f) in
    Qred (inject_Z (roundHalfEven (q * Qpow2 (- ex))) * Qpow2 ex).

Definition roundTo (f : binfmt) (neg : bool) (q : Q) : float :=
  let r := roundMag f q in
  if Qle_bool (Qpow2 (emaxPow f)) r then FInf neg else FFin neg r.

Definition isZeroMag (q : Q) : bool := Qnum q =? 0.

(** Conversion of an [int] to a float. *)
Definition floatOfInt (f : binfmt) (z : Z) : float :=
  roundTo f (z <? 0) (inject_Z (Z.abs z)).

Definition fmul (f : binfmt) (x y : float) : float :=
  match x, y with
  | FNaN, _ | _, FNaN => FNaN
  | FInf s, FInf t => FInf (xorb s t)
  | FInf s, FFin t m | FFin t m, FInf s =>
      if isZeroMag m then FNaN else FInf (xorb s t)
  | FFin s m, FFin t n => roundTo f (xorb s t) (m * n)
  end.

Definition fdiv (f : binfmt) (x y : float) : float :=
  match x, y with
  | FNaN, _ | _, FNaN => FNaN
  | FInf _, FInf _ => FNaN
  | FInf s, FFin t _ => FInf (xorb s t)
  | FFin s _, FInf t => FFin (xorb s t) 0
  | FFin s m, FFin t n =>
      if isZeroMag n then (if isZeroMag m then FNaN else FInf (xorb s t))
      else roundTo f (xorb s t) (m / n)
  end.

Definition signedQ (neg : bool) (m : Q) : Q := if neg then (- m)%Q else m.

Definition fadd (f : binfmt) (x y : float) : float :=
  match x, y with
  | FNaN, _ | _, FNaN => FNaN
  | FInf s, FInf t => if Bool.eqb s t then FInf s else FNaN
  | FInf s, FFin _ _ | FFin _ _, FInf s => FInf s
  | FFin s m, FFin t n =>
      let v := (signedQ s m + signedQ t n)%Q in
      if Qnum v =? 0 then FFin (s && t) 0
      else roundTo f (Qnum v <? 0) (Qabs v)
  end.

Definition fneg (x : float) : float :=
  match x with
  | FFin s m => FFin (negb s) m
  | FInf s => FInf (negb s)
  | FNaN => FNaN
  end.

Definition fsub (f : binfmt) (x y : float) : float := fadd f x (fneg y).

Definition isFinite (x : float) : bool :=
  match x with FFin _ _ => true | _ => false end.

(** The [w] low decimal digits of [n], zero padded. *)
Fixpoint lastDigits (w : nat) (n : N) : string :=
  match w with
  | O => EmptyString
  | S w' => lastDigits w' (n / 10)%N +:+ String (digitChar (n mod 10)) EmptyString
  end.

(** [fmt.Sprintf] with the verb [%.pf] ([%f] is [%.6f]): the exact decimal
    expansion of the value rounded to [p] places, ties to even. *)
Definition fmtFloat (p : nat) (x : float) : string :=
  match x with
  | FNaN => "NaN"
  | FInf neg => if neg then "-Inf" else "+Inf"
  | FFin neg m =>
      let scale := (10 ^ N.of_nat p)%N in
      let n := Z.to_N (roundHalfEven (m * inject_Z (Z.of_N scale))) in
      (if neg then "-" else "") +:+ utoa (n / scale)%N +:+
      match p with
      | O => ""
      | _ => String "." (lastDigits p (n mod scale)%N)
      end
  end.

(** [math.Round]: nearest integer, halves away from zero, as an [int]. *)
Definition Round (q : Q) : Z :=
  let a := Qnum q in
  let b := Zpos (Qden q) in
  if a <? 0 then - ((2 * (- a) + b) / (2 * b)) else (2 * a + b) / (2 * b).

(** *** time: instants, civil dates and the layout [2006-01-02]

    An instant is its Unix time in seconds together with the offset of its
    location east of UTC; the code never looks below the second. *)

Record Time := { sec : Z; offset : Z }.

(** Days since 1970-01-01 of a proleptic Gregorian date; like [time.Date] it
    is linear in the day, so a day past the end of the month runs over into
    the next one. *)
Definition daysFromCivil (y m d : Z) : Z :=
  let y' := if m <=? 2 then y - 1 else y in
  let era := y' / 400 in
  let yoe := y' - era * 400 in
  let mp := (m + 9) mod 12 in
  let doy := (153 * mp + 2) / 5 + d - 1 in
  let doe := yoe * 365 + yoe / 4 - yoe / 100 + doy in
  era * 146097 + doe - 719468.

Definition civilFromDays (z : Z) : Z * Z * Z :=
  let z' := z + 719468 in
  let era := z' / 146097 in
  let doe := z' - era * 146097 in
  let yoe := (doe - doe / 1460 + doe / 36524 - doe / 146096) / 365 in
  let y := yoe + era * 400 in
  let doy := doe - (365 * yoe + yoe / 4 - yoe / 100) in
  let mp := (5 * doy + 2) / 153 in
  let d := doy - (153 * mp + 2) / 5 + 1 in
  let m := if mp <? 10 then mp + 3 else mp - 9 in
  (if m <=? 2 then y + 1 else y, m, d).

Definition UTC : Z := 0.

(** [time.Date(y, m, d, 0, 0, 0, 0, loc)]: a month outside 1..12 is
    normalised into the year first. *)
Definition Date (y m d : Z) (loc : Z) : Time :=
  let y' := y + (m - 1) / 12 in
  let m' := (m - 1) mod 12 + 1 in
  {| sec := 86400 * (daysFromCivil y' m' 1 + (d - 1)) - loc; offset := loc |}.

(** [t.Date()]: year, month and day in the location of [t]. *)
Definition dateOf (t : Time) : Z * Z * Z :=
  civilFromDays ((sec t + offset t) / 86400).

Definition Year (t : Time) : Z := fst (fst (dateOf t)).
Definition Month (t : Time) : Z := snd (fst (dateOf t)).
Definition Day (t : Time) : Z := snd (dateOf t).
Definition Unix (t : Time) : Z := sec t.

Definition Add (t : Time) (seconds : Z) : Time :=
  {| sec := sec t + seconds; offset := offset t |}.

(** [t.AddDate(0, 0, days)] keeps the time of day and the location. *)
Definition AddDays (t : Time) (days : Z) : Time :=
  let '(y, m, d) := dateOf t in
  let tod := (sec t + offset t) mod 86400 in
  Add (Date y m (d + days) (offset t)) tod.

Definition After (t u : Time) : bool := sec u <? sec t.

(** [time.Time{}], January 1 of year 1 at 00:00 UTC. *)
Definition zeroTime : Time := {| sec := -62135596800; offset := UTC |}.
Definition IsZero (t : Time) : bool := sec t =? sec zeroTime.

(** [appendInt] of package time: a sign, then the digits zero padded to
    [width]. *)
Definition appendInt (x : Z) (width : nat) : string :=
  let u := Z.to_N (Z.abs x) in
  (if x <? 0 then "-" else "") +:+
  (if (u <? 10 ^ N.of_nat width)%N then lastDigits width u else utoa u).

Definition formatDate (ymd : Z * Z * Z) : string :=
  let '(y, m, d) := ymd in
  appendInt y 4 +:+ "-" +:+ appendInt m 2 +:+ "-" +:+ appendInt d 2.

(** [t.Format("2006-01-02")]. *)
Definition Format (t : Time) : string := formatDate (dateOf t).

(** *** go-cache: a map of items that expire

    [Expiration] is in the unit of the clock reading passed to [Get] and
    [Set]; 0 means the item never expires. *)

Record Item := { Object : string; Expiration : Z }.

Record Cache := { items : gmap string Item; defaultExpiration : Z }.

Definition Cache_Get (c : Cache) (k : string) (now : Z) : option string :=
  match items c !! k with
  | None => None
  | Some it =>
      if (0 <? Expiration it) && (Expiration it <? now) then None
      else Some (Object it)
  end.

(** [c.Set(k, x, cache.DefaultExpiration)]. *)
Definition Cache_Set (c : Cache) (k x : string) (now : Z) : Cache :=
  let e := if 0 <? defaultExpiration c then now + defaultExpiration c else 0 in
  {| items := <[k := {| Object := x; Expiration := e |}]> (items c);
     defaultExpiration := defaultExpiration c |}.

(** *** sort.Slice

    Package sort with the pattern-defeating quicksort of Go 1.19 and later:
    [Slice] runs [pdqsort_func] on the whole slice, which sorts a range of at
    most 12 elements by insertion and a longer one by partitioning around a
    pivot, with a heap sort when too many pivots were bad.  The slice is
    held as a list.  The comparison closure reads the slice as it is when it
    is called, so it takes the current list.  Every loop is a recursive
    function on the number of turns that are left, given with the loop. *)

(** [bits.Len]: the number of bits of an unsigned integer. *)
Definition Len (x : nat) : nat :=
  match x with
  | O => O
  | _ => S (Nat.log2 x)
  end.

(** The step [Next] of the generator [xorshift] on its 64-bit state.
    [breakPatterns_func] takes from it the positions that it swaps; the sort
    takes the generator as [Next], and its properties below hold for any. *)
Definition xorshift_Next (r : N) : N :=
  let r := N.lxor r (N.shiftl r 13 mod 2 ^ 64) in
  let r := N.lxor r (N.shiftr r 7) in
  let r := N.lxor r (N.shiftl r 17 mod 2 ^ 64) in
  r.

Inductive sortedHint := unknownHint | increasingHint | decreasingHint.

Section Sort.
Context {A : Type}.
Variable less : list A -> nat -> nat -> bool.
Variable Next : N -> N.

(** [data[i], data[j] = data[j], data[i]], the swapper of the slice. *)
Definition swap (data : list A) (i j : nat) : list A :=
  match data !! i, data !! j with
  | Some x, Some y => <[i := y]> (<[j := x]> data)
  | _, _ => data
  end.

(** [for j := i; j > a && less(j, j-1); j-- { swap(j, j-1) }] *)
Fixpoint insertionInner (a j : nat) (data : list A) : list A :=
  match j with
  | O => data
  | S j' =>
      if (a <? j)%nat && less data j j'
      then insertionInner a j' (swap data j j')
      else data
  end.

(** [for i := a + 1; i < b; i++ { ... }], with [n] iterations left. *)
Fixpoint insertionOuter (a n i : nat) (data : list A) : list A :=
  match n with
  | O => data
  | S n' => insertionOuter a n' (S i) (insertionInner a i data)
  end.

Definition insertionSort_func (data : list A) (a b : nat) : list A :=
  insertionOuter a (b - (a + 1)) (a + 1) data.

(** The loop of [siftDown_func]; [root] grows at every turn and the loop
    ends when [2*root + 1 >= hi], so [hi] turns are enough. *)
Fixpoint siftDown_loop (n : nat) (data : list A) (root hi first : nat) : list A :=
  match n with
  | O => data
  | S n' =>
      let child := (2 * root + 1)%nat in
      if (hi <=? child)%nat then data
      else
        let child :=
          if (child + 1 <? hi)%nat && less data (first + child) (first + child + 1)
          then (child + 1)%nat else child in
        if negb (less data (first + root) (first + child)) then data
        else siftDown_loop n' (swap data (first + root) (first + child)) child hi first
  end.

Definition siftDown_func (data : list A) (lo hi first : nat) : list A :=
  siftDown_loop hi data lo hi first.

(** [for i := (hi - 1) / 2; i >= 0; i-- { siftDown_func(data, i, hi, first) }],
    with [k = i + 1]. *)
Fixpoint heapBuild (k : nat) (data : list A) (hi first : nat) : list A :=
  match k with
  | O => data
  | S i => heapBuild i (siftDown_func data i hi first) hi first
  end.

(** [for i := hi - 1; i >= 0; i-- { swap(first, first+i); siftDown_func(data, lo, i, first) }],
    with [k = i + 1]. *)
Fixpoint heapPop (k : nat) (data : list A) (lo first : nat) : list A :=
  match k with
  | O => data
  | S i => heapPop i (siftDown_func (swap data first (first + i)) lo i first) lo first
  end.

Definition heapSort_func (data : list A) (a b : nat) : list A :=
  let first := a in
  let lo := O in
  let hi := (b - a)%nat in
  let data := heapBuild ((hi - 1) / 2 + 1) data hi first in
  heapPop hi data lo first.

(** [for i <= j && cond(i) { i++ }], with [n = j + 1 - i] positions left. *)
Fixpoint scanUp (cond : nat -> bool) (n i : nat) : nat :=
  match n with
  | O => i
  | S n' => if cond i then scanUp cond n' (S i) else i
  end.

(** [for i <= j && cond(j) { j-- }], with [n = j + 1 - i] positions left. *)
Fixpoint scanDown (cond : nat -> bool) (n j : nat) : nat :=
  match n with
  | O => j
  | S n' => if cond j then scanDown cond n' (j - 1) else j
  end.

(** The second loop of [partition_func]; every turn but the last takes two
    positions out of [i..j], so [j + 1 - i] turns are enough. *)
Fixpoint partitionLoop (n : nat) (data : list A) (a i j : nat) : list A * nat :=
  match n with
  | O => (data, j)
  | S n' =>
      let i := scanUp (fun i => less data i a) (S j - i) i in
      let j := scanDown (fun j => negb (less data j a)) (S j - i) j in
      if (j <? i)%nat then (data, j)
      else partitionLoop n' (swap data i j) a (S i) (j - 1)
  end.

Definition partition_func (data : list A) (a b pivot : nat) : list A * nat * bool :=
  let data := swap data a pivot in
  let i := (a + 1)%nat in
  let j := (b - 1)%nat in
  let i := scanUp (fun i => less data i a) (S j - i) i in
  let j := scanDown (fun j => negb (less data j a)) (S j - i) j in
  if (j <? i)%nat then (swap data j a, j, true)
  else
    let data := swap data i j in
    let i := S i in
    let j := (j - 1)%nat in
    let '(data, j) := partitionLoop (S j - i) data a i j in
    (swap data j a, j, false).

(** The loop of [partitionEqual_func]. *)
Fixpoint partitionEqualLoop (n : nat) (data : list A) (a i j : nat) : list A * nat :=
  match n with
  | O => (data, i)
  | S n' =>
      let i := scanUp (fun i => negb (less data a i)) (S j - i) i in
      let j := scanDown (fun j => less data a j) (S j - i) j in
      if (j <? i)%nat then (data, i)
      else partitionEqualLoop n' (swap data i j) a (S i) (j - 1)
  end.

Definition partitionEqual_func (data : list A) (a b pivot : nat) : list A * nat :=
  let data := swap data a pivot in
  let i := (a + 1)%nat in
  let j := (b - 1)%nat in
  partitionEqualLoop (S j - i) data a i j.

(** [for i < b && !less(i, i-1) { i++ }], with [n = b - i]. *)
Fixpoint skipOrdered (n : nat) (data : list A) (i : nat) : nat :=
  match n with
  | O => i
  | S n' => if negb (less data i (i - 1)) then skipOrdered n' data (S i) else i
  end.

(** [for j := i - 1; j >= 1; j-- { if !less(j, j-1) { break }; swap(j, j-1) }] *)
Fixpoint shiftLeft (j : nat) (data : list A) : list A :=
  match j with
  | O => data
  | S j' => if negb (less data j j') then data else shiftLeft j' (swap data j j')
  end.

(** [for j := i + 1; j < b; j++ { if !less(j, j-1) { break }; swap(j, j-1) }],
    with [n = b - j]. *)
Fixpoint shiftRight (n j : nat) (data : list A) : list A :=
  match n with
  | O => data
  | S n' =>
      if negb (less data j (j - 1)) then data
      else shiftRight n' (S j) (swap data j (j - 1))
  end.

(** [for j := 0; j < maxSteps; j++ { ... }], with [steps] turns left. *)
Fixpoint partialInsertionLoop (steps : nat) (data : list A) (a b i : nat)
    : list A * bool :=
  match steps with
  | O => (data, false)
  | S steps' =>
      let i := skipOrdered (b - i) data i in
      if (i =? b)%nat then (data, true)
      else if (b - a <? 50)%nat then (data, false)
      else
        let data := swap data i (i - 1) in
        let data := if (2 <=? i - a)%nat then shiftLeft (i - 1) data else data in
        let data :=
          if (2 <=? b - i)%nat then shiftRight (b - (i + 1)) (i + 1) data
          else data in
        partialInsertionLoop steps' data a b i
  end.

Definition partialInsertionSort_func (data : list A) (a b : nat) : list A * bool :=
  partialInsertionLoop 5 data a b (a + 1).

Definition nextPowerOfTwo (length : nat) : N := 2 ^ N.of_nat (Len length).

(** [for i := 0; i < 3; i++ { ... }], with [n] turns left. *)
Fixpoint breakPatternsLoop (n i : nat) (random : N) (data : list A)
    (a length idx : nat) (modulus : N) : list A :=
  match n with
  | O => data
  | S n' =>
      let random := Next random in
      let other := N.to_nat (N.land random (modulus - 1)) in
      let other := if (length <=? other)%nat then (other - length)%nat else other in
      breakPatternsLoop n' (S i) random (swap data (idx - 1 + i) (a + other))
        a length idx modulus
  end.

Definition breakPatterns_func (data : list A) (a b : nat) : list A :=
  let length := (b - a)%nat in
  if (8 <=? length)%nat then
    let random := N.of_nat length in
    let modulus := nextPowerOfTwo length in
    let idx := (a + (length / 4) * 2 - 1)%nat in
    breakPatternsLoop 3 0 random data a length idx modulus
  else data.

Definition order2_func (data : list A) (a b swaps : nat) : nat * nat * nat :=
  if less data b a then (b, a, S swaps) else (a, b, swaps).

Definition median_func (data : list A) (a b c swaps : nat) : nat * nat :=
  let '(a, b, swaps) := order2_func data a b swaps in
  let '(b, c, swaps) := order2_func data b c swaps in
  let '(a, b, swaps) := order2_func data a b swaps in
  (b, swaps).

Definition medianAdjacent_func (data : list A) (a swaps : nat) : nat * nat :=
  median_func data (a - 1) a (a + 1) swaps.

Definition choosePivot_func (data : list A) (a b : nat) : nat * sortedHint :=
  let l := (b - a)%nat in
  let swaps := O in
  let i := (a + l / 4 * 1)%nat in
  let j := (a + l / 4 * 2)%nat in
  let k := (a + l / 4 * 3)%nat in
  let '(j, swaps) :=
    if (8 <=? l)%nat then
      let '(i, j, k, swaps) :=
        if (50 <=? l)%nat then
          let '(i, swaps) := medianAdjacent_func data i swaps in
          let '(j, swaps) := medianAdjacent_func data j swaps in
          let '(k, swaps) := medianAdjacent_func data k swaps in
          (i, j, k, swaps)
        else (i, j, k, swaps) in
      median_func data i j k swaps
    else (j, swaps) in
  if (swaps =? 0)%nat then (j, increasingHint)
  else if (swaps =? 12)%nat then (j, decreasingHint)
  else (j, unknownHint).

(** [for i < j { swap(i, j); i++; j-- }] *)
Fixpoint reverseLoop (n : nat) (data : list A) (i j : nat) : list A :=
  match n with
  | O => data
  | S n' => if (i <? j)%nat then reverseLoop n' (swap data i j) (S i) (j - 1) else data
  end.

Definition reverseRange_func (data : list A) (a b : nat) : list A :=
  reverseLoop (b - a) data a (b - 1).

(** [hint == increasingHint] and [hint == decreasingHint]. *)
Definition isIncreasing (hint : sortedHint) : bool :=
  match hint with increasingHint => true | _ => false end.

Definition isDecreasing (hint : sortedHint) : bool :=
  match hint with decreasingHint => true | _ => false end.

(** [pdqsort_func] on [data[a:b]].  [fuel] counts the turns of its loop and
    the calls inside them that are left; every turn and every call works on
    a range shorter than the one before, so the length of the first range
    is enough. *)
Fixpoint pdqsort_func (fuel : nat) (data : list A) (a b limit : nat)
    (wasBalanced wasPartitioned : bool) : list A :=
  match fuel with
  | O => data
  | S fuel' =>
      let length := (b - a)%nat in
      if (length <=? 12)%nat then insertionSort_func data a b
      else if (limit =? 0)%nat then heapSort_func data a b
      else
        let '(data, limit) :=
          if negb wasBalanced then (breakPatterns_func data a b, (limit - 1)%nat)
          else (data, limit) in
        let '(pivot, hint) := choosePivot_func data a b in
        let '(data, pivot, hint) :=
          if isDecreasing hint
          then (reverseRange_func data a b, ((b - 1) - (pivot - a))%nat, increasingHint)
          else (data, pivot, hint) in
        let '(data, sorted) :=
          if wasBalanced && wasPartitioned && isIncreasing hint
          then partialInsertionSort_func data a b
          else (data, false) in
        if sorted then data
        else if (0 <? a)%nat && negb (less data (a - 1) pivot) then
          let '(data, mid) := partitionEqual_func data a b pivot in
          pdqsort_func fuel' data mid b limit wasBalanced wasPartitioned
        else
          let '(data, mid, alreadyPartitioned) := partition_func data a b pivot in
          let leftLen := (mid - a)%nat in
          let rightLen := (b - mid)%nat in
          let balanceThreshold := (length / 8)%nat in
          if (leftLen <? rightLen)%nat then
            let data := pdqsort_func fuel' data a mid limit true true in
            pdqsort_func fuel' data (mid + 1) b limit
              (balanceThreshold <=? leftLen)%nat alreadyPartitioned
          else
            let data := pdqsort_func fuel' data (mid + 1) b limit true true in
            pdqsort_func fuel' data a mid limit
              (balanceThreshold <=? rightLen)%nat alreadyPartitioned
  end.

(** [sort.Slice(data, less)]. *)
Definition sortSlice (data : list A) : list A :=
  let length := length data in
  let limit := Len length in
  pdqsort_func length data 0 length limit true true.
End Sort.

(** *** Errors and results *)

(** What [fmt.Errorf], [errors.Wrap] and [httpErrors.NewInternalServerError]
    build, the errors that collaborators return, and the mark of a loop of
    the model that ran out of fuel. *)
Inductive error :=
  | Errorf (msg : string)
  | Wrap (cause : error) (msg : string)
  | InternalServerError (cause : error) (code : string)
  | External (what : string)
  | OutOfFuel.

Inductive result (A : Type) :=
  | Ok (a : A)
  | Err (e : error).
Arguments Ok {A} a.
Arguments Err {A} e.

(** *** Collaborators: repositories, the cluster API and the thanos client *)

(** Modelled from the spec: the organization record of package domain, of
    which the usecase reads the primary cluster. *)
Record Organization := { PrimaryClusterId : string }.

(** Modelled from the spec: the cluster record of package domain, of which
    the usecase reads the identifier, the name and the status. *)
Record Cluster := { ID : string; ClusterName : string; ClusterStatus : Z }.

(** Modelled from the spec: the alert event of package domain, used for its
    creation time only. *)
Record Alert := { CreatedAt : Time }.

(** The fields of a Kubernetes service that [getThanosUrl] reads: the type,
    the host names of the load balancer's ingress, and for each port the
    name of the target port and the number. *)
Record ServicePort := { TargetPortStrVal : string; Port : Z }.

Record Service :=
  { SpecType : string; Ingress : list string; Ports : list ServicePort }.

(** Modelled from the spec: the labels of a sample of package thanos-client,
    the metric name and the cluster identifier. *)
Record MetricDataResultMetric := { Name : string; TacoCluster : string }.

(** Modelled from the spec: an instant sample of package thanos-client;
    [Value] is the string at index 1 of the pair [timestamp, value] that the
    backend returns. *)
Record MetricDataResult := { Metric : MetricDataResultMetric; Value : string }.

(** Modelled from the spec: a range series of package thanos-client; each
    of [Values] is a pair [timestamp, value]. *)
Record MetricDataResultV2 :=
  { MetricV2 : MetricDataResultMetric; Values : list (Q * string) }.

(** Modelled from the spec: the cluster summary record; the code reads
    [Status] and writes [Cpu], [Memory] and [Storage]. *)
Record DashboardStack :=
  { StackID : string; StackName : string; Status : string;
    Cpu : string; Memory : string; Storage : string }.

(** Modelled from the spec: the resource totals, the chart series, the chart
    data and the chart of package domain. *)
Record DashboardResource :=
  { ResStack : string; ResCpu : string; ResMemory : string; ResStorage : string }.

Record Unit := { UnitName : string; Data : list string }.

Record ChartData := { XAxis : list string; Series : list Unit }.

Record DashboardChart :=
  { ChartType : string; OrganizationId : string; ChartName : string;
    Description : string; Duration : string; Interval : string;
    ChartYear : string; ChartMonth : string; Chart : ChartData;
    UpdatedAt : Time }.

(** Every call that leaves the process. *)
Inductive Call :=
  | OrganizationGet (organizationId : string)
  | ClusterFetchByOrganizationId (organizationId : string)
  | ClusterGet (clusterId : string)
  | AppGroupFetch (clusterId : string)
  | AlertFetchPodRestart (organizationId : string) (startDate endDate : Time)
  | GetClientFromClusterId (clusterId : string)
  | ServicesGet (clusterId namespace name : string)
  | ThanosGet (url query : string)
  | ThanosFetchRange (url query : string) (start stop step : Z).

(** What the collaborators answer, and what the usecase takes from packages
    that are not among the sources: the mapping of a cluster to its summary
    (reflectClusterToStack and domain.Map), the constants of package domain
    that it compares with, and [strconv.ParseFloat] with bit size 32. *)
Record Env :=
  { organizationRepo_Get : string -> result Organization;
    clusterRepo_FetchByOrganizationId : string -> result (list Cluster);
    clusterRepo_Get : string -> result Cluster;
    appGroupRepo_Fetch : string -> result unit;
    alertRepo_FetchPodRestart : string -> Time -> Time -> result (list Alert);
    kubernetes_GetClientFromClusterId : string -> result unit;
    services_Get : string -> string -> string -> result Service;
    thanos_New : string -> result unit;
    thanos_Get : string -> string -> result (list MetricDataResult);
    thanos_FetchRange :
      string -> string -> Z -> Z -> Z -> result (list MetricDataResultV2);
    toDashboardStack : Cluster -> DashboardStack;
    StackStatus_RUNNING : string;
    ClusterStatus_DELETED : Z;
    ChartType_CPU : string;
    ChartType_MEMORY : string;
    ChartType_POD : string;
    ChartType_TRAFFIC : string;
    ChartType_POD_CALENDAR : string;
    ParseFloat32 : string -> float * option NumError }.

(** *** The usecase state: the shared cache, and the calls made so far *)

Record State := { cache : Cache; calls : list Call }.

Definition M (A : Type) : Type := State -> result A * State.

Definition ret {A} (a : A) : M A := fun st => (Ok a, st).
Definition fail {A} (e : error) : M A := fun st => (Err e, st).

Definition bind {A B} (m : M A) (k : A -> M B) : M B :=
  fun st =>
    match m st with
    | (Ok a, st') => k a st'
    | (Err e, st') => (Err e, st')
    end.

Notation "x <- m ;; k" := (bind m (fun x => k))
  (at level 100, m at next level, right associativity).

(** A call to a collaborator is recorded; its answer, error or not, is handed
    to the caller. *)
Definition call {A} (c : Call) (answer : result A) : M (result A) :=
  fun st => (Ok answer, {| cache := cache st; calls := calls st ++ [c] |}).

Definition orWrap {A} (r : result A) (msg : string) : M A :=
  match r with
  | Ok a => ret a
  | Err e => fail (Wrap e msg)
  end.

Definition orFail {A} (r : result A) : M A :=
  match r with
  | Ok a => ret a
  | Err e => fail e
  end.

Definition cacheGet (k : string) (now : Z) : M (option string) :=
  fun st => (Ok (Cache_Get (cache st) k now), st).

Definition cacheSet (k x : string) (now : Z) : M unit :=
  fun st => (Ok tt, {| cache := Cache_Set (cache st) k x now; calls := calls st |}).

(** *** The dashboard usecase *)

Section Usecase.
Variable env : Env.
(** The reading of [time.Now()] during the request. *)
Variable now : Time.

Definition UnixNano (t : Time) : Z := sec t * 1000000000.

Definition getThanosUrl (organizationId : string) : M string :=
  let prefix := "CACHE_KEY_THANOS_URL" in
  found <- cacheGet (prefix +:+ organizationId) (UnixNano now) ;;
  match found with
  | Some value => ret value
  | None =>
      r <- call (OrganizationGet organizationId)
             (organizationRepo_Get env organizationId) ;;
      organization <- orWrap r "Failed to get organization" ;;
      if String.eqb (PrimaryClusterId organization) ""
      then fail (Errorf "Invalid primary clusterId")
      else
        let primary := PrimaryClusterId organization in
        r <- call (GetClientFromClusterId primary)
               (kubernetes_GetClientFromClusterId env primary) ;;
        _ <- orWrap r "Failed to get client set for user cluster" ;;
        r1 <- call (ServicesGet primary "lma" "thanos-query-frontend")
                (services_Get env primary "lma" "thanos-query-frontend") ;;
        service <-
          match r1 with
          | Ok s => ret s
          | Err _ =>
              r2 <- call (ServicesGet primary "lma" "thanos-query")
                      (services_Get env primary "lma" "thanos-query") ;;
              orWrap r2 "Failed to get services."
          end ;;
        if negb (String.eqb (SpecType service) "LoadBalancer")
        then fail (Errorf ("Service type is not LoadBalancer. [" +:+
                           SpecType service +:+ "] "))
        else
          match Ingress service, Ports service with
          | lb :: _, p :: _ =>
              let out := TargetPortStrVal p +:+ "://" +:+ lb +:+ ":" +:+
                         Itoa (Port p) in
              _ <- cacheSet (prefix +:+ organizationId) out (UnixNano now) ;;
              ret out
          | _, _ => ret ""
          end
  end.

Definition getClusterNameFromId (clusterId : string) : M string :=
  let prefix := "CACHE_KEY_CLUSTER_NAME_FROM_ID" in
  found <- cacheGet (prefix +:+ clusterId) (UnixNano now) ;;
  match found with
  | Some value => ret value
  | None =>
      r <- call (ClusterGet clusterId) (clusterRepo_Get env clusterId) ;;
      cluster <- orWrap r "Failed to get cluster" ;;
      _ <- cacheSet (prefix +:+ clusterId) (ClusterName cluster) (UnixNano now) ;;
      ret (ClusterName cluster)
  end.

Fixpoint getChartYValue (values : list (Q * string)) (xData : string)
    (percentage : bool) : string :=
  match values with
  | [] => ""
  | vals :: rest =>
      let x := Round (fst vals) in
      match ParseFloat32 env (snd vals) with
      | (_, Some _) => ""
      | (y, None) =>
          if String.eqb (Itoa x) xData then
            fmtFloat 6 (if percentage
                        then fmul binary64 y (FFin false 100) else y)
          else getChartYValue rest xData percentage
      end
  end.

(** One round of the loop of [getStackMemoryDisk] over the variables
    [free], [machine], [used] and [capacity]. *)
Definition memoryDiskStep (clusterId : string) (st : Z * Z * Z * Z)
    (val : MetricDataResult) : Z * Z * Z * Z :=
  let '(free, machine, used, capacity) := st in
  if String.eqb (TacoCluster (Metric val)) clusterId then
    let '(free, machine) :=
      if String.eqb (Name (Metric val)) "node_memory_MemFree_bytes"
      then (fst (Atoi (Value val)), machine)
      else if String.eqb (Name (Metric val)) "machine_memory_bytes"
      then (free, fst (Atoi (Value val)))
      else (free, machine) in
    let '(used, capacity) :=
      if String.eqb (Name (Metric val)) "kubelet_volume_stats_used_bytes"
      then (fst (Atoi (Value val)), capacity)
      else if String.eqb (Name (Metric val)) "kubelet_volume_stats_capacity_bytes"
      then (used, fst (Atoi (Value val)))
      else (used, capacity) in
    (free, machine, used, capacity)
  else st.

Definition getStackMemoryDisk (result : list MetricDataResult)
    (clusterId : string) : string * string :=
  let '(free, machine, used, capacity) :=
    fold_left (memoryDiskStep clusterId) result (0, 0, 0, 0) in
  let f32 := floatOfInt binary32 in
  let memory :=
    if 0 <? machine then
      let m := fsub binary32 (FFin false 1) (fdiv binary32 (f32 free) (f32 machine)) in
      fmtFloat 2 (fmul binary32 m (FFin false 100))
    else "" in
  let disk :=
    if 0 <? capacity then
      let d := fdiv binary32 (f32 used) (f32 capacity) in
      fmtFloat 2 (fmul binary32 d (FFin false 100))
    else "" in
  (memory, disk).

Fixpoint getStackCpu (result : list MetricDataResult) (clusterId : string)
    : string :=
  match result with
  | [] => ""
  | val :: rest =>
      if String.eqb (TacoCluster (Metric val)) clusterId then
        match ParseFloat32 env (Value val) with
        | (s, None) => fmtFloat 2 s
        | (_, Some _) => ""
        end
      else getStackCpu rest clusterId
  end.

Definition withPercent (s : string) : string :=
  if String.eqb s "" then s else s +:+ " %".

Definition stackOf (stackMemoryDisk stackCpu : list MetricDataResult)
    (cluster : Cluster) : DashboardStack :=
  let dashboardStack := toDashboardStack env cluster in
  let '(memory, disk) := getStackMemoryDisk stackMemoryDisk (ID cluster) in
  let cpu := getStackCpu stackCpu (ID cluster) in
  {| StackID := StackID dashboardStack;
     StackName := StackName dashboardStack;
     Status := Status dashboardStack;
     Cpu := withPercent cpu;
     Memory := withPercent memory;
     Storage := withPercent disk |}.

Fixpoint stacksLoop (stackMemoryDisk stackCpu : list MetricDataResult)
    (clusters : list Cluster) (out : list DashboardStack)
    : M (list DashboardStack) :=
  match clusters with
  | [] => ret out
  | cluster :: rest =>
      r <- call (AppGroupFetch (ID cluster)) (appGroupRepo_Fetch env (ID cluster)) ;;
      _ <- orFail r ;;
      stacksLoop stackMemoryDisk stackCpu rest
        (out ++ [stackOf stackMemoryDisk stackCpu cluster])
  end.

Definition runningFirst (out : list DashboardStack) (i j : nat) : bool :=
  match out !! i with
  | Some s => String.eqb (Status s) (StackStatus_RUNNING env)
  | None => false
  end.

Definition invalidPrimaryStack {A} (m : M A) : M A :=
  fun st =>
    match m st with
    | (Err e, st') => (Err (InternalServerError e "D_INVALID_PRIMARY_STACK"), st')
    | ok => ok
    end.

Definition dq : string := String (ascii_of_nat 34) EmptyString.

Definition stackMemoryDiskQuery : string :=
  "sum by (__name__, taco_cluster) ({__name__=~" +:+ dq +:+
  "node_memory_MemFree_bytes|machine_memory_bytes|kubelet_volume_stats_used_bytes|kubelet_volume_stats_capacity_bytes"
  +:+ dq +:+ "})".

Definition stackCpuQuery : string :=
  "avg by (taco_cluster) (instance:node_cpu:ratio*100)".

Definition GetStacks (organizationId : string) : M (list DashboardStack) :=
  r <- call (ClusterFetchByOrganizationId organizationId)
         (clusterRepo_FetchByOrganizationId env organizationId) ;;
  clusters <- orFail r ;;
  thanosUrl <- invalidPrimaryStack (getThanosUrl organizationId) ;;
  _ <- orWrap (thanos_New env thanosUrl) "failed to create thanos client" ;;
  r <- call (ThanosGet thanosUrl stackMemoryDiskQuery)
         (thanos_Get env thanosUrl stackMemoryDiskQuery) ;;
  stackMemoryDisk <- orFail r ;;
  r <- call (ThanosGet thanosUrl stackCpuQuery)
         (thanos_Get env thanosUrl stackCpuQuery) ;;
  stackCpu <- orFail r ;;
  out <- stacksLoop stackMemoryDisk stackCpu clusters [] ;;
  ret (sortSlice runningFirst xorshift_Next out).

(** The three loops of [GetResources]. *)
Definition cpuStep (cpu : Z) (val : MetricDataResult) : Z :=
  match Atoi (Value val) with
  | (_, Some _) => cpu
  | (cpuVal, None) => if 0 <? cpuVal then wrap64 (cpu + cpuVal) else cpu
  end.

Definition gigaStep (total : Z) (val : MetricDataResult) : Z :=
  match Atoi (Value val) with
  | (_, Some _) => total
  | (bytesVal, None) =>
      if 0 <? bytesVal then
        let gb := Z.quot (Z.quot (Z.quot bytesVal 1024) 1024) 1024 in
        wrap64 (total + gb)
      else total
  end.

Definition cpuTotal (result : list MetricDataResult) : Z :=
  fold_left cpuStep result 0.

Definition gigaTotal (result : list MetricDataResult) : Z :=
  fold_left gigaStep result 0.

Definition GetResources (organizationId : string) : M DashboardResource :=
  thanosUrl <- invalidPrimaryStack (getThanosUrl organizationId) ;;
  _ <- orWrap (thanos_New env thanosUrl) "failed to create thanos client" ;;
  r <- call (ClusterFetchByOrganizationId organizationId)
         (clusterRepo_FetchByOrganizationId env organizationId) ;;
  clusters <- orFail r ;;
  let filteredClusters :=
    filter (fun x => ClusterStatus x <> ClusterStatus_DELETED env) clusters in
  let stack := Itoa (Z.of_nat (length filteredClusters)) +:+ " 개" in
  let q := "sum by (taco_cluster) (machine_cpu_cores)" in
  r <- call (ThanosGet thanosUrl q) (thanos_Get env thanosUrl q) ;;
  result <- orFail r ;;
  let cpu := Itoa (cpuTotal result) +:+ " 개" in
  let q := "sum by (taco_cluster) (machine_memory_bytes)" in
  r <- call (ThanosGet thanosUrl q) (thanos_Get env thanosUrl q) ;;
  result <- orFail r ;;
  let memory := Itoa (gigaTotal result) +:+ " GB" in
  let q := "sum by (taco_cluster) (kubelet_volume_stats_capacity_bytes)" in
  r <- call (ThanosGet thanosUrl q) (thanos_Get env thanosUrl q) ;;
  result <- orFail r ;;
  let storage := Itoa (gigaTotal result) +:+ " GB" in
  ret {| ResStack := stack; ResCpu := cpu; ResMemory := memory;
         ResStorage := storage |}.

(** [rangeDate]: the closure's variables [start] and [end] at creation, and
    one call of the closure, which returns a day and the variables after
    the call. *)
Definition rangeDate (start stop : Time) : Time * Time :=
  (Date (Year start) (Month start) (Day start) UTC,
   Date (Year stop) (Month stop) (Day stop) UTC).

Definition rangeDate_next (st : Time * Time) : Time * (Time * Time) :=
  let '(start, stop) := st in
  if After start stop then (zeroTime, st)
  else (start, (AddDays start 1, stop)).

Definition countPodRestart (alerts : list Alert) (baseDate : string) : Z :=
  fold_left
    (fun cntPodRestart alert =>
       if String.eqb (Format (CreatedAt alert)) baseDate
       then cntPodRestart + 1 else cntPodRestart)
    alerts 0.

(** The loop over the days of the calendar; [None] when [fuel] rounds were
    not enough to reach the end of the range. *)
Fixpoint calendarLoop (fuel : nat) (day : Time * Time) (alerts : list Alert)
    (xAxisData yAxisData : list string) : option (list string * list string) :=
  match fuel with
  | O => None
  | S fuel' =>
      let '(d, day') := rangeDate_next day in
      if IsZero d then Some (xAxisData, yAxisData)
      else
        let baseDate := Format d in
        let cntPodRestartStr :=
          if String.leb baseDate (Format now)
          then Itoa (countPodRestart alerts baseDate) else "" in
        let dd := Date (Year d) (Month d) (Day d) UTC in
        calendarLoop fuel' day' alerts
          (xAxisData ++ [Itoa (Unix dd)]) (yAxisData ++ [cntPodRestartStr])
  end.

Definition calendarFuel (startDate endDate : Time) : nat :=
  Z.to_nat ((sec endDate - sec startDate) / 86400 + 3).

Definition podCalendar (organizationId year month : string) : M DashboardChart :=
  let yearInt := fst (Atoi year) in
  let monthInt := fst (Atoi month) in
  let startDate := Date yearInt monthInt 1 UTC in
  let endDate := Add startDate (3600 * 24 * 30) in
  if Year now <? yearInt then fail (Errorf "Invalid year")
  else if (Year now =? yearInt) && (Month now <? monthInt)
  then fail (Errorf "Invalid month")
  else
    r <- call (AlertFetchPodRestart organizationId startDate endDate)
           (alertRepo_FetchPodRestart env organizationId startDate endDate) ;;
    alerts <- orFail r ;;
    match calendarLoop (calendarFuel startDate endDate)
            (rangeDate startDate endDate) alerts [] [] with
    | None => fail OutOfFuel
    | Some (xAxisData, yAxisData) =>
        ret {| ChartType := ChartType_POD_CALENDAR env;
               OrganizationId := organizationId;
               ChartName := "POD 기동 현황";
               Description := "Pod 재기동 수 / 총 Pod 수";
               Duration := ""; Interval := "";
               ChartYear := year; ChartMonth := month;
               Chart := {| XAxis := xAxisData;
                           Series := [ {| UnitName := "podRestartCount";
                                          Data := yAxisData |} ] |};
               UpdatedAt := now |}
    end.

Definition durationSecOf (duration : string) : Z :=
  if String.eqb duration "1h" then 60 * 60
  else if String.eqb duration "1d" then 60 * 60 * 24
  else if String.eqb duration "7d" then 60 * 60 * 24 * 7
  else if String.eqb duration "30d" then 60 * 60 * 24 * 30
  else 60 * 60 * 24.

Definition intervalSecOf (interval : string) : Z :=
  if String.eqb interval "1h" then 60 * 60
  else if String.eqb interval "1d" then 60 * 60 * 24
  else if String.eqb interval "7h" then 60 * 60 * 24 * 7
  else 60 * 60.

Definition cpuQuery : string :=
  "avg by (taco_cluster) (1-rate(node_cpu_seconds_total{mode=" +:+ dq +:+
  "idle" +:+ dq +:+ "}[1h]))".

Definition memoryQuery : string :=
  "avg by (taco_cluster) (sum(node_memory_MemTotal_bytes - node_memory_MemAvailable_bytes) by (taco_cluster) / sum(node_memory_MemTotal_bytes) by (taco_cluster))".

Definition podQuery : string :=
  "avg by (taco_cluster) (increase(kube_pod_container_status_restarts_total{namespace!="
  +:+ dq +:+ "kube-system" +:+ dq +:+ "}[1h]))".

Definition trafficQuery : string :=
  "avg by (taco_cluster) (rate(container_network_receive_bytes_total[1h]))".

(** The shared x axis: every rounded timestamp, in the order first seen. *)
Definition xAxisStep (xAxisData : list string) (vals : Q * string) : list string :=
  let x := Round (fst vals) in
  if existsb (String.eqb (Itoa x)) xAxisData then xAxisData
  else xAxisData ++ [Itoa x].

Definition xAxisOf (result : list MetricDataResultV2) : list string :=
  fold_left (fun xAxisData val => fold_left xAxisStep (Values val) xAxisData)
    result [].

Definition isPercentage (chartType : string) : bool :=
  String.eqb chartType (ChartType_CPU env) ||
  String.eqb chartType (ChartType_MEMORY env).

Definition yAxisOf (chartType : string) (xAxisData : list string)
    (val : MetricDataResultV2) : list string :=
  map (fun xAxis => getChartYValue (Values val) xAxis (isPercentage chartType))
    xAxisData.

(** The cluster name, or the identifier when the name cannot be had. *)
Definition clusterNameOrId (clusterId : string) : M string :=
  fun st =>
    match getClusterNameFromId clusterId st with
    | (Err _, st') => (Ok clusterId, st')
    | ok => ok
    end.

Fixpoint seriesLoop (chartType : string) (xAxisData : list string)
    (result : list MetricDataResultV2) (series : list Unit) : M (list Unit) :=
  match result with
  | [] => ret series
  | val :: rest =>
      let yAxisData := yAxisOf chartType xAxisData val in
      clusterName <- clusterNameOrId (TacoCluster (MetricV2 val)) ;;
      seriesLoop chartType xAxisData rest
        (series ++ [ {| UnitName := clusterName; Data := yAxisData |} ])
  end.

Definition rangeChart (organizationId chartType duration interval : string)
    (thanosUrl query : string) : M DashboardChart :=
  let start := Unix now - durationSecOf duration in
  r <- call (ThanosFetchRange thanosUrl query start (Unix now) (intervalSecOf interval))
         (thanos_FetchRange env thanosUrl query start (Unix now)
            (intervalSecOf interval)) ;;
  result <- orFail r ;;
  let xAxisData := xAxisOf result in
  series <- seriesLoop chartType xAxisData result [] ;;
  ret {| ChartType := chartType;
         OrganizationId := organizationId;
         ChartName := chartType;
         Description := chartType +:+ " 통계 데이터";
         Duration := duration; Interval := interval;
         ChartYear := ""; ChartMonth := "";
         Chart := {| XAxis := xAxisData; Series := series |};
         UpdatedAt := now |}.

Definition getChartFromPrometheus
    (organizationId chartType duration interval year month : string)
    : M DashboardChart :=
  thanosUrl <- invalidPrimaryStack (getThanosUrl organizationId) ;;
  _ <- orWrap (thanos_New env thanosUrl) "failed to create thanos client" ;;
  let range := rangeChart organizationId chartType duration interval thanosUrl in
  if String.eqb chartType (ChartType_CPU env) then range cpuQuery
  else if String.eqb chartType (ChartType_MEMORY env) then range memoryQuery
  else if String.eqb chartType (ChartType_POD env) then range podQuery
  else if String.eqb chartType (ChartType_TRAFFIC env) then range trafficQuery
  else if String.eqb chartType (ChartType_POD_CALENDAR env)
  then podCalendar organizationId year month
  else fail (Errorf "No data").

End Usecase.

(** *** A reference reading of [strconv.ParseFloat(s, 32)]

    Used where a statement is evaluated on concrete samples: an optional
    sign, then [inf], [infinity] or (unsigned) [nan] in any case, or decimal
    digits with an optional fraction.  The value is rounded to binary32; one
    too large for the format is an infinity with a range error.  Exponents,
    hexadecimal mantissas and digit separators are outside this reading. *)

Definition lowerAscii (c : ascii) : ascii :=
  let n := N_of_ascii c in
  if ((65 <=? n) && (n <=? 90))%N then ascii_of_N (n + 32) else c.

Fixpoint lowerString (s : string) : string :=
  match s with
  | EmptyString => EmptyString
  | String c s' => String (lowerAscii c) (lowerString s')
  end.

(** Leading digits of [s]: their value after [acc], how many, and the rest. *)
Fixpoint readDigits (s : string) (acc : N) (cnt : nat) : N * nat * string :=
  match s with
  | String c s' =>
      if isDigit c then readDigits s' (10 * acc + (N_of_ascii c - 48))%N (S cnt)
      else (acc, cnt, s)
  | EmptyString => (acc, cnt, s)
  end.

Definition atof32 (s : string) : float * option NumError :=
  let '(neg, signed, body) :=
    match s with
    | String "-" r => (true, true, r)
    | String "+" r => (false, true, r)
    | _ => (false, false, s)
    end in
  let low := lowerString body in
  if String.eqb low "inf" || String.eqb low "infinity" then (FInf neg, None)
  else if negb signed && String.eqb low "nan" then (FNaN, None)
  else
    let '(ip, n1, r1) := readDigits body 0 0 in
    let '(mant, n2, r2) :=
      match r1 with
      | String "." r => readDigits r ip 0
      | _ => (ip, O, r1)
      end in
    match r2, (n1 + n2)%nat with
    | EmptyString, S _ =>
        match roundTo binary32 neg (Z.of_N mant # Pos.of_nat (10 ^ n2)) with
        | FInf sg => (FInf sg, Some ErrRange)
        | x => (x, None)
        end
    | _, _ => (FFin false 0, Some ErrSyntax)
    end.

(** *** Definitions the statements are phrased with *)

Definition sampleMatches (clusterId name : string) (val : MetricDataResult) : bool :=
  String.eqb (TacoCluster (Metric val)) clusterId &&
  String.eqb (Name (Metric val)) name.

(** The integer read from the last sample of [result] for the cluster and
    the metric name; 0 when there is none. *)
Definition lastValue (result : list MetricDataResult) (clusterId name : string) : Z :=
  match find (sampleMatches clusterId name) (rev result) with
  | Some val => fst (Atoi (Value val))
  | None => 0
  end.

(** The same from the first such sample. *)
Definition firstValue (result : list MetricDataResult) (clusterId name : string) : Z :=
  match find (sampleMatches clusterId name) result with
  | Some val => fst (Atoi (Value val))
  | None => 0
  end.

(** Used memory in percent: [1 - free / total], times 100, to two decimals,
    when [total] is positive. *)
Definition memoryPercent (free total : Z) : string :=
  if 0 <? total then
    fmtFloat 2
      (fmul binary32
         (fsub binary32 (FFin false 1)
            (fdiv binary32 (floatOfInt binary32 free) (floatOfInt binary32 total)))
         (FFin false 100))
  else "".

(** Used disk in percent: [used / capacity], times 100, to two decimals, when
    [capacity] is positive. *)
Definition diskPercent (used capacity : Z) : string :=
  if 0 <? capacity then
    fmtFloat 2
      (fmul binary32
         (fdiv binary32 (floatOfInt binary32 used) (floatOfInt binary32 capacity))
         (FFin false 100))
  else "".

(** The join as the specification words it: for each metric the first sample
    with the cluster's label wins. *)
Definition memoryDiskFirstMatch (result : list MetricDataResult) (clusterId : string)
    : string * string :=
  (memoryPercent (firstValue result clusterId "node_memory_MemFree_bytes")
     (firstValue result clusterId "machine_memory_bytes"),
   diskPercent (firstValue result clusterId "kubelet_volume_stats_used_bytes")
     (firstValue result clusterId "kubelet_volume_stats_capacity_bytes")).




Fixpoint allDigits (s : string) : bool :=
  match s with
  | EmptyString => true
  | String c s' => isDigit c && allDigits s'
  end.

(** Digits, at least one when [seen] is false, then a point and two digits. *)
Fixpoint isUnsignedTwoDecimal (seen : bool) (s : string) : bool :=
  match s with
  | EmptyString => false
  | String c s' =>
      if Ascii.eqb c "." then
        seen &&
        match s' with
        | String d1 (String d2 EmptyString) => isDigit d1 && isDigit d2
        | _ => false
        end
      else isDigit c && isUnsignedTwoDecimal true s'
  end.

(** A number with two decimals: an optional minus sign, digits, a point and
    two digits. *)
Definition isTwoDecimal (s : string) : bool :=
  match s with
  | String "-" s' => isUnsignedTwoDecimal false s'
  | _ => isUnsignedTwoDecimal false s
  end.

(** The order of calendar dates. *)
Definition dateCompare (a b : Z * Z * Z) : comparison :=
  let '(y1, m1, d1) := a in
  let '(y2, m2, d2) := b in
  match y1 ?= y2 with
  | Eq => match m1 ?= m2 with Eq => d1 ?= d2 | c => c end
  | c => c
  end.

(** [a] is strictly after [b]. *)
Definition dateAfter (a b : Z * Z * Z) : bool :=
  match dateCompare a b with Gt => true | _ => false end.

(** The summary's status is the running one. *)
Definition isRunning (running : string) (s : DashboardStack) : bool :=
  String.eqb (Status s) running.


(** The cache key of a tenant's endpoint, and an endpoint composed from an
    ingress host and a port of the service. *)
Definition thanosKey (organizationId : string) : string :=
  "CACHE_KEY_THANOS_URL" +:+ organizationId.

Definition endpointOf (lb : string) (p : ServicePort) : string :=
  TargetPortStrVal p +:+ "://" +:+ lb +:+ ":" +:+ Itoa (Port p).

(** The chart type falls through the first four cases of the switch and
    takes the calendar case. *)
Definition selectsCalendar (env : Env) (chartType : string) : Prop :=
  String.eqb chartType (ChartType_CPU env) = false /\
  String.eqb chartType (ChartType_MEMORY env) = false /\
  String.eqb chartType (ChartType_POD env) = false /\
  String.eqb chartType (ChartType_TRAFFIC env) = false /\
  String.eqb chartType (ChartType_POD_CALENDAR env) = true.

(** The two errors of the calendar's validation. *)
Definition invalidRange (e : error) : Prop :=
  e = Errorf "Invalid year" \/ e = Errorf "Invalid month".

(** The requested month is after the current one. *)
Definition futureMonth (now : Time) (year month : string) : Prop :=
  Year now < fst (Atoi year) \/
  (Year now = fst (Atoi year) /\ Month now < fst (Atoi month)).

(** A sample is at the x entry; its value parses; the cell it gives. *)
Definition matchesX (xData : string) (vals : Q * string) : bool :=
  String.eqb (Itoa (Round (fst vals))) xData.

Definition parses (env : Env) (vals : Q * string) : bool :=
  match snd (ParseFloat32 env (snd vals)) with
  | None => true
  | Some _ => false
  end.

Definition cellOf (env : Env) (vals : Q * string) (percentage : bool) : string :=
  let y := fst (ParseFloat32 env (snd vals)) in
  fmtFloat 6 (if percentage then fmul binary64 y (FFin false 100) else y).

(** The CPU value that a sample gives. *)
Definition cpuCell (env : Env) (val : MetricDataResult) : string :=
  match ParseFloat32 env (Value val) with
  | (s, None) => fmtFloat 2 s
  | (_, Some _) => ""
  end.



(** A string of decimal digits as [utoa] and [lastDigits] produce them. *)
Inductive digitString : string -> Prop :=
  | digits_nil : digitString EmptyString
  | digits_cons (d : N) (s : string) :
      (d < 10)%N -> digitString s -> digitString (String (digitChar d) s).

(** Bounds used for binary32: 2^-24, the largest magnitude of an [int], and
    the first power of two beyond the format. *)
Definition ulp24 : Q := 1 # 16777216.

(** A finite value whose magnitude is at most [B]. *)
Definition finiteBelow (B : Q) (x : float) : Prop :=
  match x with
  | FFin _ m => (0 <= m /\ m <= B)%Q
  | _ => False
  end.

Definition maxFloat32Bound : Q := Qpow2 128.

Definition int64Bound : Q := inject_Z (2 ^ 63).

(** Empty, or a number with two decimals followed by a blank and a percent
    sign. *)
Definition percentField (s : string) : Prop :=
  s = "" \/ exists v, isTwoDecimal v = true /\ s = v +:+ " %".

(** The instant at midnight UTC of day [z] since the epoch. *)
Definition midnight (z : Z) : Time := {| sec := 86400 * z; offset := UTC |}.

(** A date whose fields fit the widths of the layout. *)
Definition layoutDate (ymd : Z * Z * Z) : Prop :=
  let '(y, m, d) := ymd in
  0 <= y <= 9999 /\ 1 <= m <= 12 /\ 1 <= d <= 31.

(** The first day that does not fit the layout's four digits of the year. *)
Definition dayTenThousand : Z := Eval cbv in daysFromCivil 10000 1 1.

(** The day of the zero [Time]. *)
Definition zeroDay : Z := -719162.

(** [n] consecutive days from day [s]. *)
Fixpoint daysFrom (s : Z) (n : nat) : list Z :=
  match n with
  | O => []
  | S n' => s :: daysFrom (s + 1) n'
  end.

(** The cell of the day [z] as the loop computes it. *)
Definition bucketCell (now : Time) (alerts : list Alert) (z : Z) : string :=
  let baseDate := formatDate (civilFromDays z) in
  if String.leb baseDate (Format now)
  then Itoa (countPodRestart alerts baseDate) else "".

(** The alerts created on a date. *)
Definition onDate (date : Z * Z * Z) (alert : Alert) : bool :=
  match dateCompare (dateOf (CreatedAt alert)) date with
  | Eq => true
  | _ => false
  end.

(** How many alerts were created on a date. *)
Definition eventsOn (date : Z * Z * Z) (alerts : list Alert) : Z :=
  Z.of_nat (length (List.filter (onDate date) alerts)).

(** [swaps lo hi data data']: [data'] comes from [data] by swaps of two
    positions of [lo, hi). *)
Inductive swaps {A : Type} (lo hi : nat) : list A -> list A -> Prop :=
  | swaps_refl data : swaps lo hi data data
  | swaps_swap data i j :
      (lo <= i < hi)%nat -> (lo <= j < hi)%nat -> swaps lo hi data (swap data i j)
  | swaps_trans data1 data2 data3 :
      swaps lo hi data1 data2 -> swaps lo hi data2 data3 -> swaps lo hi data1 data3.

Section Partition.
Context {A : Type}.
Variable p : A -> bool.

(** The comparison of [GetStacks] looks at the element at [i] only. *)
Definition lessAt (data : list A) (i j : nat) : bool :=
  match data !! i with
  | Some s => p s
  | None => false
  end.

(** The elements that satisfy [p], last seen first, then the others in
    their order. *)
Definition frontReversed (l : list A) : list A :=
  rev (List.filter p l) ++ List.filter (fun x => negb (p x)) l.

(** No element that satisfies [p] comes after one that does not. *)
Definition partitioned (data : list A) : Prop :=
  forall (i j : nat) (x y : A), (i < j)%nat ->
    data !! i = Some x -> data !! j = Some y -> p y = true -> p x = true.

(** Every element at a position of [lo, hi) has the value [v] of [p]. *)
Definition uniform (lo hi : nat) (v : bool) (data : list A) : Prop :=
  forall (i : nat) (x : A), (lo <= i < hi)%nat -> data !! i = Some x -> p x = v.
End Partition.

(** *** Fixtures: concrete samples, clusters, alerts and an environment *)

(** An instant sample of a cluster for a metric name. *)
Definition sample (cluster name value : string) : MetricDataResult :=
  {| Metric := {| Name := name; TacoCluster := cluster |}; Value := value |}.

(** The core counts 32, 12, -5 and abc of four clusters. *)
Definition cpuSamples : list MetricDataResult :=
  [ sample "cmsai5k5l" "" "32"; sample "crjfh12oc" "" "12";
    sample "c3" "" "-5"; sample "c4" "" "abc" ].

(** A LoadBalancer service with an ingress host and a port, and one with no
    ingress host. *)
Definition lbService : Service :=
  {| SpecType := "LoadBalancer"; Ingress := ["thanos.example.com"];
     Ports := [ {| TargetPortStrVal := "http"; Port := 9090 |} ] |}.

Definition noIngressService : Service :=
  {| SpecType := "LoadBalancer"; Ingress := [];
     Ports := [ {| TargetPortStrVal := "http"; Port := 9090 |} ] |}.

(** Three clusters of one tenant: a and c running, b not. *)
Definition testClusters : list Cluster :=
  [ {| ID := "a"; ClusterName := "alpha"; ClusterStatus := 2 |};
    {| ID := "b"; ClusterName := "beta"; ClusterStatus := 5 |};
    {| ID := "c"; ClusterName := "gamma"; ClusterStatus := 2 |} ].

(** Memory and volume samples of cluster a; CPU samples of a and c. *)
Definition testMemoryDisk : list MetricDataResult :=
  [ sample "a" "node_memory_MemFree_bytes" "2";
    sample "a" "machine_memory_bytes" "10";
    sample "a" "kubelet_volume_stats_used_bytes" "1";
    sample "a" "kubelet_volume_stats_capacity_bytes" "8" ].

Definition testCpu : list MetricDataResult :=
  [ sample "a" "" "12.5"; sample "c" "" "NaN" ].

(** Alerts of pod restarts: two on 2023-05-03 (10:00:00 and 23:59:59 UTC),
    one at 2023-05-04 15:00 UTC recorded in a location nine hours east,
    where it is the first second of 2023-05-05, and one at midnight UTC of
    2023-05-08. *)
Definition testAlerts : list Alert :=
  [ {| CreatedAt := {| sec := 1683108000; offset := UTC |} |};
    {| CreatedAt := {| sec := 1683158399; offset := UTC |} |};
    {| CreatedAt := {| sec := 1683212400; offset := 32400 |} |};
    {| CreatedAt := {| sec := 1683504000; offset := UTC |} |} ].

(** An environment with the three clusters, a primary cluster whose
    registry answers [svc] for either service name, and a metrics backend
    that answers the two queries of [GetStacks] and the query for the CPU
    cores with the samples above; the alert store answers [testAlerts]. *)
Definition testEnv (svc : result Service) : Env :=
  {| organizationRepo_Get := fun _ => Ok {| PrimaryClusterId := "c-primary" |};
     clusterRepo_FetchByOrganizationId := fun _ => Ok testClusters;
     clusterRepo_Get := fun _ => Err (External "no cluster");
     appGroupRepo_Fetch := fun _ => Ok tt;
     alertRepo_FetchPodRestart := fun _ _ _ => Ok testAlerts;
     kubernetes_GetClientFromClusterId := fun _ => Ok tt;
     services_Get := fun _ _ _ => svc;
     thanos_New := fun _ => Ok tt;
     thanos_Get := fun _ query =>
       if String.eqb query stackCpuQuery then Ok testCpu
       else if String.eqb query stackMemoryDiskQuery then Ok testMemoryDisk
       else if String.eqb query "sum by (taco_cluster) (machine_cpu_cores)"
       then Ok cpuSamples
       else Ok [];
     thanos_FetchRange := fun _ _ _ _ _ => Ok [];
     toDashboardStack := fun c =>
       {| StackID := ID c; StackName := ClusterName c;
          Status := if ClusterStatus c =? 2 then "RUNNING" else "ERROR";
          Cpu := ""; Memory := ""; Storage := "" |};
     StackStatus_RUNNING := "RUNNING";
     ClusterStatus_DELETED := 4;
     ChartType_CPU := "CPU";
     ChartType_MEMORY := "MEMORY";
     ChartType_POD := "POD";
     ChartType_TRAFFIC := "TRAFFIC";
     ChartType_POD_CALENDAR := "POD_CALENDAR";
     ParseFloat32 := atof32 |}.

(** Thirteen clusters of one tenant: twelve that are not running, then one
    that is; and the environment above with these clusters. *)
Definition thirteenClusters : list Cluster :=
  map (fun id => {| ID := id; ClusterName := id; ClusterStatus := 5 |})
    [ "e01"; "e02"; "e03"; "e04"; "e05"; "e06";
      "e07"; "e08"; "e09"; "e10"; "e11"; "e12" ] ++
  [ {| ID := "r13"; ClusterName := "r13"; ClusterStatus := 2 |} ].

Definition withClusters (clusters : list Cluster) (env : Env) : Env :=
  {| organizationRepo_Get := organizationRepo_Get env;
     clusterRepo_FetchByOrganizationId := fun _ => Ok clusters;
     clusterRepo_Get := clusterRepo_Get env;
     appGroupRepo_Fetch := appGroupRepo_Fetch env;
     alertRepo_FetchPodRestart := alertRepo_FetchPodRestart env;
     kubernetes_GetClientFromClusterId := kubernetes_GetClientFromClusterId env;
     services_Get := services_Get env;
     thanos_New := thanos_New env;
     thanos_Get := thanos_Get env;
     thanos_FetchRange := thanos_FetchRange env;
     toDashboardStack := toDashboardStack env;
     StackStatus_RUNNING := StackStatus_RUNNING env;
     ClusterStatus_DELETED := ClusterStatus_DELETED env;
     ChartType_CPU := ChartType_CPU env;
     ChartType_MEMORY := ChartType_MEMORY env;
     ChartType_POD := ChartType_POD env;
     ChartType_TRAFFIC := ChartType_TRAFFIC env;
     ChartType_POD_CALENDAR := ChartType_POD_CALENDAR env;
     ParseFloat32 := ParseFloat32 env |}.

Definition thirteenEnv : Env := withClusters thirteenClusters (testEnv (Ok lbService)).

(** An empty cache whose entries live five minutes. *)
Definition emptyState : State :=
  {| cache := {| items := ∅; defaultExpiration := 300000000000 |}; calls := [] |}.

(** 2023-05-09 04:56:25 UTC. *)
Definition testNow : Time := {| sec := 1683608185; offset := UTC |}.

(** 2023-05-09 20:00:00 UTC read in a location nine hours east of UTC, where
    it is 05:00 on 2023-05-10. *)
Definition eveningEast : Time := {| sec := 1683662400; offset := 32400 |}.

(** A value beyond the range of binary32, which [ParseFloat] with bit size
    32 refuses with a range error. *)
Definition tooLarge : string := "1000000000000000000000000000000000000000".

(** Samples of cluster c1: two totals of memory, 10 and then 20, one count
    of free memory, 2, and two CPU ratios. *)
Definition duplicateSamples : list MetricDataResult :=
  [ sample "c1" "machine_memory_bytes" "10";
    sample "c1" "node_memory_MemFree_bytes" "2";
    sample "c2" "machine_memory_bytes" "7";
    sample "c1" "machine_memory_bytes" "20" ].

Definition duplicateCpu : list MetricDataResult :=
  [ sample "c2" "" "9"; sample "c1" "" "12.5"; sample "c1" "" "40" ].

(** ** Part II. Properties *)

(** Linear arithmetic with divisions and remainders by constants. *)
Ltac divlia := Z.div_mod_to_equations; lia.

(** *** Integers and their decimal form *)


Lemma isDigit_value (c : ascii) :
  isDigit c = true -> 0 <= Z.of_N (N_of_ascii c) - 48 <= 9.
Proof.
  unfold isDigit. intros H. apply andb_prop in H as [H1 H2].
  apply N.leb_le in H1, H2. lia.
Qed.

Lemma atoiDigits_bound (s : string) (n m : Z) :
  atoiDigits s n = Some m -> 0 <= n ->
  0 <= m < (n + 1) * 10 ^ Z.of_nat (String.length s).
Proof.
  revert n. induction s as [|c s IH]; intros n Hm Hn; cbn [atoiDigits] in Hm.
  - injection Hm as <-. cbn. lia.
  - destruct (isDigit c) eqn:Hc; [|discriminate].
    pose proof (isDigit_value c Hc) as Hd.
    specialize (IH _ Hm ltac:(lia)).
    cbn [String.length]. rewrite Nat2Z.inj_succ, Z.pow_succ_r by lia.
    assert (Hpow : 0 < 10 ^ Z.of_nat (String.length s))
      by (apply Z.pow_pos_nonneg; lia).
    nia.
Qed.

Lemma parseUintLoop_range (s : string) (n : N) :
  (n <= maxUint64)%N -> (fst (parseUintLoop s n) <= maxUint64)%N.
Proof.
  revert n. induction s as [|c s IH]; intros n Hn; cbn [parseUintLoop].
  - exact Hn.
  - destruct (isDigit c); [|cbn; unfold maxUint64; lia].
    destruct (N.leb_spec (maxUint64 / 10 + 1) n); [cbn; lia|].
    destruct (N.ltb_spec maxUint64 (n * 10 + (N_of_ascii c - 48))); [cbn; lia|].
    apply IH. assumption.
Qed.

Lemma ParseInt_range (s : string) : minInt64 <= fst (ParseInt s) <= maxInt64.
Proof.
  unfold ParseInt, minInt64, maxInt64. destruct s as [|c0 s0]; [cbn; lia|].
  destruct (match String c0 s0 with
            | String "+" r => (false, r)
            | String "-" r => (true, r)
            | _ => (false, String c0 s0)
            end) as [neg body].
  destruct (ParseUint body) as [un [[]|]]; cbn [fst]; try lia;
    destruct neg; cbn [negb andb];
    try (destruct (Z.leb_spec (2 ^ 63) (Z.of_N un)); cbn [fst]; lia);
    try (destruct (Z.ltb_spec (2 ^ 63) (Z.of_N un)); cbn [fst]; lia).
Qed.

Lemma Atoi_range (s : string) : minInt64 <= fst (Atoi s) <= maxInt64.
Proof.
  unfold Atoi.
  destruct ((0 <? String.length s)%nat && (String.length s <? 19)%nat) eqn:Hlen;
    [|apply ParseInt_range].
  apply andb_prop in Hlen as [_ Hlen]. apply Nat.ltb_lt in Hlen.
  assert (Hbody : forall (neg : bool) (body : string),
            (String.length body <= 18)%nat ->
            minInt64 <=
              fst (match body return Z * option NumError with
                   | EmptyString => (0, Some ErrSyntax)
                   | _ => match atoiDigits body 0 with
                          | None => (0, Some ErrSyntax)
                          | Some n => (if neg then - n else n, None)
                          end
                   end) <= maxInt64).
  { intros neg body Hb. unfold minInt64, maxInt64.
    destruct body as [|c body]; [cbn; lia|].
    destruct (atoiDigits (String c body) 0) as [m|] eqn:Hm; [|cbn; lia].
    apply atoiDigits_bound in Hm; [|lia].
    assert (Hpow : 10 ^ Z.of_nat (String.length (String c body)) <= 10 ^ 18)
      by (apply Z.pow_le_mono_r; lia).
    destruct neg; cbn [fst]; lia. }
  destruct s as [|c s]; [cbn in Hlen; apply (Hbody false ""); cbn; lia|].
  cbn [String.length] in Hlen.
  destruct (Ascii.eqb_spec c "-") as [->|Hm]; [apply (Hbody true s); lia|].
  destruct (Ascii.eqb_spec c "+") as [->|Hp]; [apply (Hbody false s); lia|].
  assert (Hs : match String c s with
               | String "-" r => (true, r)
               | String "+" r => (false, r)
               | _ => (false, String c s)
               end = (false, String c s)).
  { destruct c as [[] [] [] [] [] [] [] []]; try reflexivity; congruence. }
  rewrite Hs. apply (Hbody false (String c s)). cbn [String.length]. lia.
Qed.

(** The range error of digits that leave [uint64] comes before the syntax
    error of what follows them; short strings take the fast path. *)
Example Atoi_corners :
  Atoi "99999999999999999999x" = (maxInt64, Some ErrRange) /\
  Atoi "-99999999999999999999" = (minInt64, Some ErrRange) /\
  Atoi "9223372036854775807" = (maxInt64, None) /\
  Atoi "-9223372036854775808" = (minInt64, None) /\
  Atoi "9223372036854775808" = (maxInt64, Some ErrRange) /\
  Atoi "12x" = (0, Some ErrSyntax) /\
  Atoi "+" = (0, Some ErrSyntax) /\
  Atoi "" = (0, Some ErrSyntax) /\
  Atoi "+7" = (7, None) /\
  Atoi "-5" = (-5, None).
Proof. vm_compute. repeat split; reflexivity. Qed.

(** *** [GetResources]: the totals *)












(** With the core counts 32, 12, -5 and abc, [GetResources] reports 44
    cores, and three clusters. *)
Example GetResources_cpu :
  exists out,
    fst (GetResources (testEnv (Ok lbService)) testNow "T1" emptyState) = Ok out /\
    ResCpu out = "44 개" /\ ResStack out = "3 개".
Proof. eexists. vm_compute. repeat split; reflexivity. Qed.

(** *** [getThanosUrl]: the endpoint cache *)

Lemma Cache_Get_Set (c : Cache) (k x : string) (now now2 : Z) :
  (0 < defaultExpiration c -> now2 <= now + defaultExpiration c) ->
  Cache_Get (Cache_Set c k x now) k now2 = Some x.
Proof.
  intros Httl. unfold Cache_Get, Cache_Set. cbn [items Object Expiration].
  rewrite lookup_insert_eq. cbn [Object Expiration].
  destruct (Z.ltb_spec 0 (defaultExpiration c)) as [Hd|Hd]; [|reflexivity].
  specialize (Httl Hd).
  destruct (Z.ltb_spec 0 (now + defaultExpiration c)); [|reflexivity].
  destruct (Z.ltb_spec (now + defaultExpiration c) now2); [lia|reflexivity].
Qed.

Lemma getThanosUrl_hit (env : Env) (now : Time) (organizationId value : string)
    (st : State) :
  Cache_Get (cache st) (thanosKey organizationId) (UnixNano now) = Some value ->
  getThanosUrl env now organizationId st = (Ok value, st).
Proof.
  intros Hhit. unfold getThanosUrl, bind, cacheGet.
  fold (thanosKey organizationId). rewrite Hhit. reflexivity.
Qed.

(** What a call that misses the cache can do: fail or return the empty
    string, the cache untouched; or compose an endpoint, store it and return
    it. *)
Lemma getThanosUrl_miss (env : Env) (now : Time) (organizationId : string)
    (st : State) :
  Cache_Get (cache st) (thanosKey organizationId) (UnixNano now) = None ->
  let res := getThanosUrl env now organizationId st in
  (cache (snd res) = cache st /\
   ((exists e, fst res = Err e) \/ fst res = Ok "")) \/
  (exists lb p,
     fst res = Ok (endpointOf lb p) /\
     cache (snd res) =
       Cache_Set (cache st) (thanosKey organizationId) (endpointOf lb p)
         (UnixNano now)).
Proof.
  intros Hmiss. unfold getThanosUrl, bind, cacheGet.
  fold (thanosKey organizationId). rewrite Hmiss. cbn [call].
  destruct (organizationRepo_Get env organizationId) as [organization|e];
    cbn; [|left; eauto].
  destruct (String.eqb (PrimaryClusterId organization) ""); cbn; [left; eauto|].
  destruct (kubernetes_GetClientFromClusterId env (PrimaryClusterId organization))
    as [[]|e]; cbn; [|left; eauto].
  assert (Hsvc : forall (service : Service) (st1 : State),
    cache st1 = cache st ->
    let res :=
      (if negb (String.eqb (SpecType service) "LoadBalancer")
       then fail (Errorf ("Service type is not LoadBalancer. [" +:+
                          SpecType service +:+ "] "))
       else
         match Ingress service, Ports service with
         | lb :: _, p :: _ =>
             bind (cacheSet (thanosKey organizationId)
                     (TargetPortStrVal p +:+ "://" +:+ lb +:+ ":" +:+ Itoa (Port p))
                     (UnixNano now))
               (fun _ => ret (TargetPortStrVal p +:+ "://" +:+ lb +:+ ":" +:+
                              Itoa (Port p)))
         | _, _ => ret ""
         end) st1 in
    (cache (snd res) = cache st /\
     ((exists e, fst res = Err e) \/ fst res = Ok "")) \/
    (exists lb p,
       fst res = Ok (endpointOf lb p) /\
       cache (snd res) =
         Cache_Set (cache st) (thanosKey organizationId) (endpointOf lb p)
           (UnixNano now))).
  { intros service st1 Hst1.
    destruct (negb (String.eqb (SpecType service) "LoadBalancer")); cbn;
      [left; eauto|].
    destruct (Ingress service) as [|lb lbs]; cbn; [left; eauto|].
    destruct (Ports service) as [|p ps]; cbn; [left; eauto|].
    right. exists lb, p. rewrite Hst1. split; reflexivity. }
  destruct (services_Get env (PrimaryClusterId organization) "lma"
              "thanos-query-frontend") as [service|e1]; cbn.
  - apply Hsvc. reflexivity.
  - destruct (services_Get env (PrimaryClusterId organization) "lma"
                "thanos-query") as [service|e2]; cbn; [|left; eauto].
    apply Hsvc. reflexivity.
Qed.

Lemma endpointOf_nonempty (lb : string) (p : ServicePort) : endpointOf lb p <> "".
Proof.
  unfold endpointOf. destruct (TargetPortStrVal p); discriminate.
Qed.

(** C8: [getThanosUrl] writes the cache only when it has composed an
    endpoint, which it then returns without error: a call that fails, or
    that finds nothing to compose, leaves the cache as it was.  A call that
    finds the tenant's entry returns it and calls no collaborator; so after a
    call that missed and resolved an endpoint, every call before the entry
    expires returns that endpoint and leaves the list of calls unchanged,
    whatever the registry would answer. *)
Theorem getThanosUrl_cache (env : Env) (now : Time) (organizationId : string)
    (st : State) :
  let res := getThanosUrl env now organizationId st in
  (forall e, fst res = Err e -> cache (snd res) = cache st) /\
  (cache (snd res) <> cache st ->
   exists lb p,
     fst res = Ok (endpointOf lb p) /\
     cache (snd res) =
       Cache_Set (cache st) (thanosKey organizationId) (endpointOf lb p)
         (UnixNano now)) /\
  (forall value,
     Cache_Get (cache st) (thanosKey organizationId) (UnixNano now) = Some value ->
     res = (Ok value, st)) /\
  (forall url env2 now2,
     Cache_Get (cache st) (thanosKey organizationId) (UnixNano now) = None ->
     fst res = Ok url -> url <> "" ->
     (0 < defaultExpiration (cache st) ->
      UnixNano now2 <= UnixNano now + defaultExpiration (cache st)) ->
     getThanosUrl env2 now2 organizationId (snd res) = (Ok url, snd res)).
Proof.
  intros res.
  destruct (Cache_Get (cache st) (thanosKey organizationId) (UnixNano now))
    as [value|] eqn:Hget.
  - pose proof (getThanosUrl_hit env now organizationId value st Hget) as Hhit.
    subst res. rewrite Hhit. cbn [fst snd].
    repeat split; congruence.
  - pose proof (getThanosUrl_miss env now organizationId st Hget) as Hmiss.
    cbv zeta in Hmiss. fold res in Hmiss.
    destruct Hmiss as [[Hsame Hres]|(lb & p & Hres & Hset)].
    + repeat split; try congruence.
      intros url env2 now2 _ Hok Hne _.
      destruct Hres as [[e He]|He]; congruence.
    + repeat split; try congruence.
      * intros _. exists lb, p. split; assumption.
      * intros url env2 now2 _ Hok Hne Httl.
        assert (url = endpointOf lb p) by congruence. subst url.
        apply getThanosUrl_hit. rewrite Hset. apply Cache_Get_Set.
        exact Httl.
Qed.

(** C9: when the tenant's metrics service is a LoadBalancer that reports no
    ingress host or no port, a call that misses the cache returns the empty
    string with no error and leaves the cache as it was. *)
Theorem getThanosUrl_no_endpoint (env : Env) (now : Time) (organizationId : string)
    (st : State) (organization : Organization) (service : Service) :
  Cache_Get (cache st) (thanosKey organizationId) (UnixNano now) = None ->
  organizationRepo_Get env organizationId = Ok organization ->
  PrimaryClusterId organization <> "" ->
  kubernetes_GetClientFromClusterId env (PrimaryClusterId organization) = Ok tt ->
  (services_Get env (PrimaryClusterId organization) "lma" "thanos-query-frontend"
     = Ok service \/
   (exists e,
      services_Get env (PrimaryClusterId organization) "lma" "thanos-query-frontend"
        = Err e) /\
   services_Get env (PrimaryClusterId organization) "lma" "thanos-query"
     = Ok service) ->
  SpecType service = "LoadBalancer" ->
  Ingress service = [] \/ Ports service = [] ->
  fst (getThanosUrl env now organizationId st) = Ok "" /\
  cache (snd (getThanosUrl env now organizationId st)) = cache st.
Proof.
  intros Hmiss Horg Hprimary Hclient Hsvc Htype Hnone.
  unfold getThanosUrl, bind, cacheGet.
  fold (thanosKey organizationId). rewrite Hmiss. cbn [call].
  rewrite Horg. cbn.
  apply String.eqb_neq in Hprimary. rewrite Hprimary. cbn.
  rewrite Hclient. cbn.
  assert (Hend : forall st1 : State,
    cache st1 = cache st ->
    let res :=
      (if negb (String.eqb (SpecType service) "LoadBalancer")
       then fail (Errorf ("Service type is not LoadBalancer. [" +:+
                          SpecType service +:+ "] "))
       else
         match Ingress service, Ports service with
         | lb :: _, p :: _ =>
             bind (cacheSet (thanosKey organizationId)
                     (TargetPortStrVal p +:+ "://" +:+ lb +:+ ":" +:+ Itoa (Port p))
                     (UnixNano now))
               (fun _ => ret (TargetPortStrVal p +:+ "://" +:+ lb +:+ ":" +:+
                              Itoa (Port p)))
         | _, _ => ret ""
         end) st1 in
    fst res = Ok "" /\ cache (snd res) = cache st).
  { intros st1 Hst1. rewrite Htype. cbn.
    destruct Hnone as [Hn|Hn]; rewrite Hn.
    - cbn. split; [reflexivity | exact Hst1].
    - destruct (Ingress service); cbn; split; (reflexivity || exact Hst1). }
  destruct Hsvc as [Hfront|[[e Hfront] Hquery]]; rewrite Hfront; cbn.
  - apply Hend. reflexivity.
  - rewrite Hquery. cbn. apply Hend. reflexivity.
Qed.

Lemma getThanosUrl_no_endpoint_witness :
  fst (getThanosUrl (testEnv (Ok noIngressService)) testNow "T1" emptyState) = Ok "" /\
  cache (snd (getThanosUrl (testEnv (Ok noIngressService)) testNow "T1" emptyState))
    = cache emptyState.
Proof.
  apply (getThanosUrl_no_endpoint (testEnv (Ok noIngressService)) testNow "T1"
           emptyState {| PrimaryClusterId := "c-primary" |} noIngressService).
  - reflexivity.
  - reflexivity.
  - discriminate.
  - reflexivity.
  - left. reflexivity.
  - reflexivity.
  - left. reflexivity.
Defined.

(** The scenario of the endpoint cache: the first call for tenant T1 asks
    the registry and stores the endpoint; a call five minutes later returns
    it although the registry is down, and makes no call. *)
Example getThanosUrl_second_call :
  let first := getThanosUrl (testEnv (Ok lbService)) testNow "T1" emptyState in
  let second :=
    getThanosUrl (testEnv (Err (External "down"))) (Add testNow 300) "T1"
      (snd first) in
  fst first = Ok "http://thanos.example.com:9090" /\
  calls (snd first) =
    [ OrganizationGet "T1"; GetClientFromClusterId "c-primary";
      ServicesGet "c-primary" "lma" "thanos-query-frontend" ] /\
  fst second = Ok "http://thanos.example.com:9090" /\
  calls (snd second) = calls (snd first).
Proof. vm_compute. repeat split; reflexivity. Qed.

(** *** The calendar of pod restarts: validation *)

Lemma podCalendar_future (env : Env) (now : Time)
    (organizationId year month : string) (st : State) :
  futureMonth now year month ->
  exists e, invalidRange e /\
    podCalendar env now organizationId year month st = (Err e, st).
Proof.
  intros Hfuture. unfold podCalendar, invalidRange.
  destruct (Z.ltb_spec (Year now) (fst (Atoi year))) as [Hy|Hy].
  - eexists. split; [left; reflexivity | reflexivity].
  - destruct Hfuture as [Hlt|[Heq Hm]]; [lia|].
    rewrite Heq, Z.eqb_refl.
    destruct (Z.ltb_spec (Month now) (fst (Atoi month))); [|lia].
    eexists. split; [right; reflexivity | reflexivity].
Qed.

(** C5: the calendar chart fails with an invalid-range error ("Invalid year"
    or "Invalid month") whenever the requested year is after the current
    year, or is the current year with a month after the current month; so
    does [getChartFromPrometheus] for the calendar chart type once the
    tenant's endpoint is resolved, and before any alert is fetched.  The
    request for this year and the month after this month is such a one. *)
Theorem buildMonthlyHistogram_future (env : Env) (now : Time)
    (organizationId chartType duration interval year month : string)
    (st : State) :
  (futureMonth now year month ->
   (exists e, invalidRange e /\
      podCalendar env now organizationId year month st = (Err e, st)) /\
   (forall url st1,
      getThanosUrl env now organizationId st = (Ok url, st1) ->
      thanos_New env url = Ok tt ->
      selectsCalendar env chartType ->
      exists e, invalidRange e /\
        getChartFromPrometheus env now organizationId chartType duration interval
          year month st = (Err e, st1))) /\
  (fst (Atoi year) = Year now -> fst (Atoi month) = Month now + 1 ->
   futureMonth now year month).
Proof.
  split.
  - intros Hfuture. split.
    + apply podCalendar_future. exact Hfuture.
    + intros url st1 Hurl Hnew (Hcpu & Hmem & Hpod & Htraffic & Hcal).
      destruct (podCalendar_future env now organizationId year month st1 Hfuture)
        as (e & He & Hrun).
      exists e. split; [exact He|].
      unfold getChartFromPrometheus, bind, invalidPrimaryStack.
      rewrite Hurl, Hnew. cbn.
      rewrite Hcpu, Hmem, Hpod, Htraffic, Hcal. exact Hrun.
  - intros Hy Hm. right. split; lia.
Qed.

(** In May 2023 the calendar for June 2023 is refused. *)
Lemma buildMonthlyHistogram_future_witness :
  exists e, invalidRange e /\
    getChartFromPrometheus (testEnv (Ok lbService)) testNow "T1" "POD_CALENDAR"
      "" "" "2023" "6" emptyState
    = (Err e, snd (getThanosUrl (testEnv (Ok lbService)) testNow "T1" emptyState)).
Proof.
  pose proof (buildMonthlyHistogram_future (testEnv (Ok lbService)) testNow "T1"
                "POD_CALENDAR" "" "" "2023" "6" emptyState) as [Hfails Hnext].
  refine (proj2 (Hfails (Hnext _ _)) _ _ _ _ _).
  - vm_compute. reflexivity.
  - vm_compute. reflexivity.
  - vm_compute. reflexivity.
  - reflexivity.
  - vm_compute. repeat split; reflexivity.
Defined.

(** *** [getChartYValue]: one cell of an aligned series *)

(** A series none of whose samples is at the x entry gives the empty cell. *)
Lemma getChartYValue_no_match (env : Env) (values : list (Q * string))
    (xData : string) (percentage : bool) :
  forallb (fun vals => negb (matchesX xData vals)) values = true ->
  getChartYValue env values xData percentage = "".
Proof.
  induction values as [|vals rest IH]; intros Hnone; [reflexivity|].
  cbn [forallb] in Hnone. apply andb_prop in Hnone as [Hv Hrest].
  cbn [getChartYValue]. unfold matchesX in Hv.
  destruct (ParseFloat32 env (snd vals)) as [y [e|]]; [reflexivity|].
  apply negb_true_iff in Hv. rewrite Hv. apply IH. exact Hrest.
Qed.

(** The scan stops at the first sample that does not parse or that is at the
    x entry: samples before it that parse and are elsewhere are passed. *)
Lemma getChartYValue_skip (env : Env) (pre values : list (Q * string))
    (xData : string) (percentage : bool) :
  forallb (fun vals => parses env vals && negb (matchesX xData vals)) pre = true ->
  getChartYValue env (pre ++ values) xData percentage =
  getChartYValue env values xData percentage.
Proof.
  induction pre as [|vals rest IH]; intros Hpre; [reflexivity|].
  cbn [forallb] in Hpre. apply andb_prop in Hpre as [Hv Hrest].
  apply andb_prop in Hv as [Hp Hm].
  cbn [app getChartYValue]. unfold parses, matchesX in *.
  destruct (ParseFloat32 env (snd vals)) as [y [e|]]; [discriminate|].
  apply negb_true_iff in Hm. rewrite Hm. apply IH. exact Hrest.
Qed.

(** When every sample before the first one at the x entry parses, the cell
    is the value of that sample, or empty when it does not parse. *)
Lemma getChartYValue_cell (env : Env) (pre post : list (Q * string))
    (vals : Q * string) (xData : string) (percentage : bool) :
  forallb (fun vals => parses env vals && negb (matchesX xData vals)) pre = true ->
  matchesX xData vals = true ->
  getChartYValue env (pre ++ vals :: post) xData percentage =
  if parses env vals then cellOf env vals percentage else "".
Proof.
  intros Hpre Hm. rewrite getChartYValue_skip by exact Hpre.
  cbn [getChartYValue]. unfold parses, cellOf, matchesX in *.
  destruct (ParseFloat32 env (snd vals)) as [y [e|]]; [reflexivity|].
  cbn [fst snd]. rewrite Hm. reflexivity.
Qed.

(** A sample that does not parse ends the scan with the empty cell, also
    when it is not at the x entry and a later sample is. *)
Lemma getChartYValue_stops (env : Env) (pre post : list (Q * string))
    (vals : Q * string) (xData : string) (percentage : bool) :
  forallb (fun vals => parses env vals && negb (matchesX xData vals)) pre = true ->
  parses env vals = false ->
  getChartYValue env (pre ++ vals :: post) xData percentage = "".
Proof.
  intros Hpre Hp. rewrite getChartYValue_skip by exact Hpre.
  cbn [getChartYValue]. unfold parses in Hp.
  destruct (ParseFloat32 env (snd vals)) as [y [e|]]; [reflexivity|discriminate].
Qed.

(** C1 (at the failing input): the sample at 1683608160 holds 0.5, and alone
    or first in its series it gives the cell 0.500000 (50.000000 as a
    percentage); after a sample of another timestamp whose value does not
    parse, the cell of the same x entry is empty. *)
Theorem getChartYValue_after_unparsable :
  let env := testEnv (Ok lbService) in
  let hit := (1683608160 # 1, "0.5") in
  let bad := (1683608100 # 1, tooLarge) in
  getChartYValue env [hit] "1683608160" false = "0.500000" /\
  getChartYValue env [hit; bad] "1683608160" true = "50.000000" /\
  snd (ParseFloat32 env (snd bad)) = Some ErrRange /\
  matchesX "1683608160" bad = false /\
  getChartYValue env [bad; hit] "1683608160" false = "".
Proof. vm_compute. repeat split; reflexivity. Qed.

(** *** [getStackMemoryDisk] and [getStackCpu]: the joins *)

Lemma lastValue_snoc (result : list MetricDataResult) (val : MetricDataResult)
    (clusterId name : string) :
  lastValue (result ++ [val]) clusterId name =
  if sampleMatches clusterId name val then fst (Atoi (Value val))
  else lastValue result clusterId name.
Proof.
  unfold lastValue. rewrite rev_unit. cbn [find].
  destruct (sampleMatches clusterId name val); reflexivity.
Qed.

Ltac name_cases val :=
  destruct (String.eqb_spec (Name (Metric val)) "node_memory_MemFree_bytes");
  destruct (String.eqb_spec (Name (Metric val)) "machine_memory_bytes");
  destruct (String.eqb_spec (Name (Metric val)) "kubelet_volume_stats_used_bytes");
  destruct (String.eqb_spec (Name (Metric val)) "kubelet_volume_stats_capacity_bytes");
  try congruence; reflexivity.

(** The four variables of the loop hold, at its end, what the last sample of
    each metric for the cluster holds. *)
Lemma memoryDisk_fold (result : list MetricDataResult) (clusterId : string) :
  fold_left (memoryDiskStep clusterId) result (0, 0, 0, 0) =
  (lastValue result clusterId "node_memory_MemFree_bytes",
   lastValue result clusterId "machine_memory_bytes",
   lastValue result clusterId "kubelet_volume_stats_used_bytes",
   lastValue result clusterId "kubelet_volume_stats_capacity_bytes").
Proof.
  induction result as [|val result IH] using rev_ind; [reflexivity|].
  rewrite fold_left_app, IH. cbn [fold_left].
  rewrite !lastValue_snoc. unfold memoryDiskStep, sampleMatches.
  destruct (String.eqb (TacoCluster (Metric val)) clusterId); [|reflexivity].
  cbn [andb]. name_cases val.
Qed.

Lemma getStackMemoryDisk_lastValue (result : list MetricDataResult)
    (clusterId : string) :
  getStackMemoryDisk result clusterId =
  (memoryPercent (lastValue result clusterId "node_memory_MemFree_bytes")
     (lastValue result clusterId "machine_memory_bytes"),
   diskPercent (lastValue result clusterId "kubelet_volume_stats_used_bytes")
     (lastValue result clusterId "kubelet_volume_stats_capacity_bytes")).
Proof.
  unfold getStackMemoryDisk. rewrite memoryDisk_fold. reflexivity.
Qed.

Lemma find_app_split {A} (f : A -> bool) (l1 l2 : list A) :
  find f (l1 ++ l2) =
  match find f l1 with
  | Some x => Some x
  | None => find f l2
  end.
Proof.
  induction l1 as [|a l1 IH]; [reflexivity|].
  cbn [app find]. destruct (f a); [reflexivity | exact IH].
Qed.

(** An earlier sample of the same cluster and metric as a later one does not
    count. *)
Lemma lastValue_overridden (pre mid post : list MetricDataResult)
    (w v : MetricDataResult) (clusterId name : string) :
  Metric w = Metric v ->
  lastValue (pre ++ w :: mid ++ v :: post) clusterId name =
  lastValue (pre ++ mid ++ v :: post) clusterId name.
Proof.
  intros Hsame. unfold lastValue.
  assert (Hw : sampleMatches clusterId name w = sampleMatches clusterId name v)
    by (unfold sampleMatches; rewrite Hsame; reflexivity).
  replace (rev (pre ++ w :: mid ++ v :: post))
    with ((rev post ++ v :: rev mid) ++ w :: rev pre)
    by (rewrite !rev_app_distr; cbn [rev]; rewrite !rev_app_distr; cbn [rev];
        rewrite <- !app_assoc; reflexivity).
  replace (rev (pre ++ mid ++ v :: post))
    with ((rev post ++ v :: rev mid) ++ rev pre)
    by (rewrite !rev_app_distr; cbn [rev]; rewrite <- !app_assoc; reflexivity).
  rewrite !(find_app_split _ (rev post ++ v :: rev mid)).
  destruct (find (sampleMatches clusterId name) (rev post ++ v :: rev mid))
    as [x|] eqn:Hfind; [reflexivity|].
  cbn [find]. rewrite Hw.
  rewrite find_app_split in Hfind.
  destruct (find (sampleMatches clusterId name) (rev post)); [discriminate|].
  cbn [find] in Hfind.
  destruct (sampleMatches clusterId name v); [discriminate | reflexivity].
Qed.

Lemma getStackCpu_find (env : Env) (result : list MetricDataResult)
    (clusterId : string) :
  getStackCpu env result clusterId =
  match find (fun val => String.eqb (TacoCluster (Metric val)) clusterId) result with
  | Some val => cpuCell env val
  | None => ""
  end.
Proof.
  induction result as [|val rest IH]; [reflexivity|].
  cbn [getStackCpu find].
  destruct (String.eqb (TacoCluster (Metric val)) clusterId); [reflexivity | exact IH].
Qed.

(** C3 (as stated, refuted): with two totals of memory for one cluster, the
    first-match join gives 80.00 percent and the code gives 90.00, from the
    last. *)
Lemma getStackMemoryDisk_not_first_match :
  memoryDiskFirstMatch duplicateSamples "c1" = ("80.00", "") /\
  getStackMemoryDisk duplicateSamples "c1" = ("90.00", "") /\
  getStackMemoryDisk duplicateSamples "c1" <> memoryDiskFirstMatch duplicateSamples "c1".
Proof. vm_compute. repeat split; (reflexivity || discriminate). Qed.

(** C3 (amended): the CPU value of a cluster is that of the first sample
    with the cluster's label, whatever follows it; in the memory and disk
    join a later sample of the same cluster and metric overrides an earlier
    one, so that for each metric the last sample counts; and both joins
    return a value on every result set, with or without duplicates. *)
Theorem stack_joins (env : Env) (clusterId : string) :
  (forall pre post val,
     forallb (fun w => negb (String.eqb (TacoCluster (Metric w)) clusterId)) pre = true ->
     TacoCluster (Metric val) = clusterId ->
     getStackCpu env (pre ++ val :: post) clusterId = cpuCell env val) /\
  (forall pre mid post w v,
     Metric w = Metric v ->
     getStackMemoryDisk (pre ++ w :: mid ++ v :: post) clusterId =
     getStackMemoryDisk (pre ++ mid ++ v :: post) clusterId) /\
  (forall result,
     getStackMemoryDisk result clusterId =
     (memoryPercent (lastValue result clusterId "node_memory_MemFree_bytes")
        (lastValue result clusterId "machine_memory_bytes"),
      diskPercent (lastValue result clusterId "kubelet_volume_stats_used_bytes")
        (lastValue result clusterId "kubelet_volume_stats_capacity_bytes"))) /\
  getStackCpu env duplicateCpu "c1" = cpuCell env (sample "c1" "" "12.5").
Proof.
  split; [|split; [|split]].
  - intros pre post val Hpre Hval. rewrite getStackCpu_find, find_app_split.
    assert (Hnone : find (fun v => String.eqb (TacoCluster (Metric v)) clusterId) pre
                    = None).
    { induction pre as [|w pre IH]; [reflexivity|].
      cbn [forallb] in Hpre. apply andb_prop in Hpre as [Hw Hrest].
      cbn [find]. apply negb_true_iff in Hw. rewrite Hw. apply IH. exact Hrest. }
    rewrite Hnone. cbn [find]. rewrite Hval, String.eqb_refl. reflexivity.
  - intros pre mid post w v Hsame.
    rewrite !getStackMemoryDisk_lastValue.
    rewrite !(lastValue_overridden pre mid post w v clusterId _ Hsame).
    reflexivity.
  - intros result. apply getStackMemoryDisk_lastValue.
  - reflexivity.
Qed.

(** *** Strings: appending *)

Lemma append_cons (c : ascii) (s1 s2 : string) :
  String c s1 +:+ s2 = String c (s1 +:+ s2).
Proof. reflexivity. Qed.

Lemma append_assoc (s1 s2 s3 : string) : (s1 +:+ s2) +:+ s3 = s1 +:+ s2 +:+ s3.
Proof.
  induction s1 as [|c s1 IH]; [reflexivity|].
  rewrite !append_cons, IH. reflexivity.
Qed.

Lemma append_nil_r (s : string) : s +:+ "" = s.
Proof.
  induction s as [|c s IH]; [reflexivity|].
  rewrite append_cons, IH. reflexivity.
Qed.

Lemma append_nonempty_r (s1 s2 : string) : s2 <> "" -> s1 +:+ s2 <> "".
Proof.
  intros Hs2. destruct s1 as [|c s1]; [exact Hs2 | discriminate].
Qed.

Lemma fmtFloat2_nonempty (x : float) : fmtFloat 2 x <> "".
Proof.
  destruct x as [neg m|neg|]; cbn [fmtFloat].
  - apply append_nonempty_r, append_nonempty_r. discriminate.
  - destruct neg; discriminate.
  - discriminate.
Qed.

(** *** [sort.Slice]: every step is a swap *)

Section Swaps.
Context {A : Type}.
Local Open Scope nat_scope.

Lemma swap_length (data : list A) (i j : nat) : length (swap data i j) = length data.
Proof.
  unfold swap. destruct (data !! i), (data !! j); try reflexivity.
  rewrite !length_insert. reflexivity.
Qed.

Lemma swap_lookup (data : list A) (i j k : nat) :
  i < length data -> j < length data ->
  swap data i j !! k =
    if decide (k = i) then data !! j
    else if decide (k = j) then data !! i else data !! k.
Proof.
  intros Hi Hj. unfold swap.
  destruct (lookup_lt_is_Some_2 data i Hi) as [x Hx].
  destruct (lookup_lt_is_Some_2 data j Hj) as [y Hy].
  rewrite Hx, Hy.
  destruct (decide (k = i)) as [->|Hki].
  - rewrite list_lookup_insert_eq by (rewrite length_insert; exact Hi). reflexivity.
  - rewrite list_lookup_insert_ne by congruence.
    destruct (decide (k = j)) as [->|Hkj].
    + rewrite list_lookup_insert_eq by exact Hj. reflexivity.
    + rewrite list_lookup_insert_ne by congruence. reflexivity.
Qed.

Lemma swap_same (data : list A) (i : nat) : swap data i i = data.
Proof.
  unfold swap. destruct (data !! i) as [x|] eqn:Hx; [|reflexivity].
  rewrite list_insert_insert_eq. apply list_insert_id. exact Hx.
Qed.

Lemma swap_Permutation (data : list A) (i j : nat) : Permutation (swap data i j) data.
Proof.
  assert (Hlt : forall (l : list A) a b x y, a < b ->
            l !! a = Some x -> l !! b = Some y ->
            Permutation (<[a := y]> (<[b := x]> l)) l).
  { intros l a b x y Hab Ha Hb.
    pose proof (lookup_lt_Some _ _ _ Ha) as Hla.
    pose proof (lookup_lt_Some _ _ _ Hb) as Hlb.
    rewrite <- (take_drop_middle l b y Hb) at 2.
    rewrite <- (take_drop_middle l b y Hb) at 1.
    assert (Htb : length (take b l) = b) by (rewrite length_take; lia).
    rewrite <- Htb at 1. rewrite insert_app_r_alt by lia.
    rewrite Nat.sub_diag. cbn [insert list_insert].
    assert (Hta : take b l !! a = Some x)
      by (rewrite lookup_take_lt by lia; exact Ha).
    rewrite insert_app_l by lia.
    rewrite <- (take_drop_middle (take b l) a x Hta) at 2.
    rewrite insert_take_drop by lia.
    rewrite <- !app_assoc. cbn [app].
    apply Permutation_app_head.
    generalize (drop (S a) (take b l)) (drop (S b) l). intros l2 l3.
    transitivity (y :: x :: l2 ++ l3);
      [apply perm_skip; symmetry; apply Permutation_middle|].
    transitivity (x :: y :: l2 ++ l3); [apply perm_swap|].
    apply perm_skip. apply Permutation_middle. }
  unfold swap. destruct (data !! i) as [x|] eqn:Hx; [|reflexivity].
  destruct (data !! j) as [y|] eqn:Hy; [|reflexivity].
  destruct (Nat.lt_trichotomy i j) as [Hij|[->|Hij]].
  - apply Hlt; assumption.
  - rewrite list_insert_insert_eq. rewrite list_insert_id; [reflexivity|].
    congruence.
  - rewrite list_insert_insert_ne by lia. apply Hlt; assumption.
Qed.

Lemma swaps_eq (lo hi : nat) (data data' : list A) :
  data = data' -> swaps lo hi data data'.
Proof. intros ->. apply swaps_refl. Qed.

Lemma swaps_mono (lo hi lo' hi' : nat) (data data' : list A) :
  lo' <= lo -> hi <= hi' -> swaps lo hi data data' -> swaps lo' hi' data data'.
Proof.
  intros Hlo Hhi H. induction H.
  - apply swaps_refl.
  - apply swaps_swap; lia.
  - eapply swaps_trans; eassumption.
Qed.

Lemma swaps_then (lo hi : nat) (data data' : list A) (i j : nat) :
  swaps lo hi data data' -> lo <= i < hi -> lo <= j < hi ->
  swaps lo hi data (swap data' i j).
Proof.
  intros H Hi Hj. eapply swaps_trans; [exact H|]. apply swaps_swap; assumption.
Qed.

Lemma swaps_Permutation (lo hi : nat) (data data' : list A) :
  swaps lo hi data data' -> Permutation data' data.
Proof.
  induction 1.
  - reflexivity.
  - apply swap_Permutation.
  - etransitivity; eassumption.
Qed.

Lemma swaps_length (lo hi : nat) (data data' : list A) :
  swaps lo hi data data' -> length data' = length data.
Proof.
  induction 1; [reflexivity | apply swap_length | congruence].
Qed.

End Swaps.

Section SortSwaps.
Context {A : Type}.
Variable less : list A -> nat -> nat -> bool.
Variable Next : N -> N.
Local Open Scope nat_scope.

Lemma insertionInner_swaps (a b j : nat) (data : list A) :
  j < b -> swaps a b data (insertionInner less a j data).
Proof.
  revert data. induction j as [|j IH]; intros data Hj; cbn [insertionInner].
  - apply swaps_refl.
  - destruct ((a <? S j) && less data (S j) j) eqn:Hc; [|apply swaps_refl].
    apply andb_prop in Hc as [Ha _]. apply Nat.ltb_lt in Ha.
    eapply swaps_trans; [apply (swaps_swap a b data (S j) j); lia|]. apply IH. lia.
Qed.

Lemma insertionOuter_swaps (a b n i : nat) (data : list A) :
  i + n <= b -> swaps a b data (insertionOuter less a n i data).
Proof.
  revert i data. induction n as [|n IH]; intros i data Hn; cbn [insertionOuter].
  - apply swaps_refl.
  - eapply swaps_trans; [|apply IH; lia]. apply insertionInner_swaps. lia.
Qed.

Lemma insertionSort_swaps (a b : nat) (data : list A) :
  swaps a b data (insertionSort_func less data a b).
Proof.
  unfold insertionSort_func. destruct (le_lt_dec (a + 1) b) as [Hab|Hab].
  - apply insertionOuter_swaps. lia.
  - replace (b - (a + 1)) with 0 by lia. apply swaps_refl.
Qed.

Lemma siftDown_loop_swaps (n : nat) (data : list A) (root hi first : nat) :
  swaps first (first + hi) data (siftDown_loop less n data root hi first).
Proof.
  revert data root. induction n as [|n IH]; intros data root; cbn [siftDown_loop].
  - apply swaps_refl.
  - destruct (Nat.leb_spec hi (2 * root + 1)) as [Hhi|Hhi]; [apply swaps_refl|].
    set (child := if (2 * root + 1 + 1 <? hi) &&
                     less data (first + (2 * root + 1)) (first + (2 * root + 1) + 1)
                  then 2 * root + 1 + 1 else 2 * root + 1).
    assert (Hchild : root < child < hi).
    { unfold child.
      destruct (Nat.ltb_spec (2 * root + 1 + 1) hi); cbn [andb];
        [destruct (less data _ _)|]; lia. }
    destruct (less data (first + root) (first + child)); cbn [negb];
      [|apply swaps_refl].
    eapply swaps_trans;
      [apply (swaps_swap _ _ data (first + root) (first + child)); lia|].
    apply IH.
Qed.

Lemma siftDown_swaps (data : list A) (lo hi first : nat) :
  swaps first (first + hi) data (siftDown_func less data lo hi first).
Proof. apply siftDown_loop_swaps. Qed.

Lemma heapBuild_swaps (k : nat) (data : list A) (hi first : nat) :
  swaps first (first + hi) data (heapBuild less k data hi first).
Proof.
  revert data. induction k as [|k IH]; intros data; cbn [heapBuild].
  - apply swaps_refl.
  - eapply swaps_trans; [|apply IH]. apply siftDown_swaps.
Qed.

Lemma heapPop_swaps (k : nat) (data : list A) (hi first : nat) :
  k <= hi -> swaps first (first + hi) data (heapPop less k data 0 first).
Proof.
  revert data. induction k as [|k IH]; intros data Hk; cbn [heapPop].
  - apply swaps_refl.
  - eapply swaps_trans;
      [apply (swaps_swap _ _ data first (first + k)); lia|].
    eapply swaps_trans; [|apply IH; lia].
    eapply swaps_mono; [| |apply siftDown_swaps]; lia.
Qed.

Lemma heapSort_swaps (a b : nat) (data : list A) :
  a <= b -> swaps a b data (heapSort_func less data a b).
Proof.
  intros Hab. unfold heapSort_func.
  replace b with (a + (b - a)) at 1 by lia.
  eapply swaps_trans; [|apply heapPop_swaps; lia]. apply heapBuild_swaps.
Qed.

Lemma scanUp_bounds (cond : nat -> bool) (n i : nat) :
  i <= scanUp cond n i <= i + n.
Proof.
  revert i. induction n as [|n IH]; intros i; cbn [scanUp]; [lia|].
  destruct (cond i); [specialize (IH (S i))|]; lia.
Qed.

Lemma scanUp_stop (cond : nat -> bool) (n i : nat) :
  scanUp cond n i < i + n -> cond (scanUp cond n i) = false.
Proof.
  revert i. induction n as [|n IH]; intros i; cbn [scanUp]; [lia|].
  destruct (cond i) eqn:Hc; [|intros _; exact Hc].
  intros H. apply IH. lia.
Qed.

Lemma scanUp_all (cond : nat -> bool) (n i k : nat) :
  i <= k < scanUp cond n i -> cond k = true.
Proof.
  revert i. induction n as [|n IH]; intros i; cbn [scanUp]; [lia|].
  destruct (cond i) eqn:Hc; [|lia].
  intros H. destruct (decide (k = i)) as [->|Hk]; [exact Hc|].
  apply (IH (S i)). lia.
Qed.

Lemma scanDown_bounds (cond : nat -> bool) (n j : nat) :
  scanDown cond n j <= j <= scanDown cond n j + n.
Proof.
  revert j. induction n as [|n IH]; intros j; cbn [scanDown]; [lia|].
  destruct (cond j); [specialize (IH (j - 1))|]; lia.
Qed.

Lemma scanDown_stop (cond : nat -> bool) (n j : nat) :
  n <= j -> j < scanDown cond n j + n -> cond (scanDown cond n j) = false.
Proof.
  revert j. induction n as [|n IH]; intros j; cbn [scanDown]; [lia|].
  destruct (cond j) eqn:Hc; [|intros _ _; exact Hc].
  intros Hn H. apply IH; lia.
Qed.

Lemma scanDown_all (cond : nat -> bool) (n j k : nat) :
  n <= j -> scanDown cond n j < k <= j -> cond k = true.
Proof.
  revert j. induction n as [|n IH]; intros j; cbn [scanDown]; [lia|].
  destruct (cond j) eqn:Hc; [|lia].
  intros Hn H. destruct (decide (k = j)) as [->|Hk]; [exact Hc|].
  apply (IH (j - 1)); lia.
Qed.

Lemma partitionLoop_swaps (a b n : nat) (data : list A) (i j : nat) :
  a < i -> a <= j < b ->
  swaps a b data (partitionLoop less n data a i j).1 /\
  a <= (partitionLoop less n data a i j).2 <= j.
Proof.
  revert data i j. induction n as [|n IH]; intros data i j Hi Hj;
    cbn [partitionLoop].
  - cbn. split; [apply swaps_refl | lia].
  - set (i' := scanUp (fun i0 => less data i0 a) (S j - i) i).
    set (j' := scanDown (fun j0 => negb (less data j0 a)) (S j - i') j).
    pose proof (scanUp_bounds (fun i0 => less data i0 a) (S j - i) i) as Hi'.
    pose proof (scanDown_bounds (fun j0 => negb (less data j0 a)) (S j - i') j)
      as Hj'.
    fold i' in Hi'. fold j' in Hj'.
    destruct (Nat.ltb_spec j' i') as [Hlt|Hge].
    + cbn. split; [apply swaps_refl | lia].
    + destruct (IH (swap data i' j') (S i') (j' - 1) ltac:(lia) ltac:(lia))
        as [Hs Hb].
      split; [|lia].
      eapply swaps_trans; [apply (swaps_swap a b data i' j'); lia | exact Hs].
Qed.

Lemma partition_swaps (a b pivot : nat) (data : list A) :
  a <= pivot < b ->
  swaps a b data (partition_func less data a b pivot).1.1 /\
  a <= (partition_func less data a b pivot).1.2 < b.
Proof.
  intros Hp. unfold partition_func.
  set (d1 := swap data a pivot).
  assert (H1 : swaps a b data d1) by (apply swaps_swap; lia).
  set (i' := scanUp (fun i0 => less d1 i0 a) (S (b - 1) - (a + 1)) (a + 1)).
  set (j' := scanDown (fun j0 => negb (less d1 j0 a)) (S (b - 1) - i') (b - 1)).
  pose proof (scanUp_bounds (fun i0 => less d1 i0 a) (S (b - 1) - (a + 1)) (a + 1))
    as Hi'.
  pose proof (scanDown_bounds (fun j0 => negb (less d1 j0 a)) (S (b - 1) - i')
                (b - 1)) as Hj'.
  fold i' in Hi'. fold j' in Hj'.
  destruct (Nat.ltb_spec j' i') as [Hlt|Hge].
  - cbn. split; [|lia]. apply swaps_then; [exact H1|lia|lia].
  - pose proof (partitionLoop_swaps a b (S (j' - 1) - S i') (swap d1 i' j')
                  (S i') (j' - 1) ltac:(lia) ltac:(lia)) as [Hs Hb].
    destruct (partitionLoop less _ _ a (S i') (j' - 1)) as [d3 j3].
    cbn in *. split; [|lia].
    apply swaps_then; [|lia|lia].
    eapply swaps_trans; [|exact Hs]. apply swaps_then; [exact H1|lia|lia].
Qed.

Lemma partitionEqualLoop_swaps (a b n : nat) (data : list A) (i j : nat) :
  a < i <= b -> j < b ->
  swaps a b data (partitionEqualLoop less n data a i j).1 /\
  a < (partitionEqualLoop less n data a i j).2 <= b.
Proof.
  revert data i j. induction n as [|n IH]; intros data i j Hi Hj;
    cbn [partitionEqualLoop].
  - cbn. split; [apply swaps_refl | lia].
  - set (i' := scanUp (fun i0 => negb (less data a i0)) (S j - i) i).
    set (j' := scanDown (fun j0 => less data a j0) (S j - i') j).
    pose proof (scanUp_bounds (fun i0 => negb (less data a i0)) (S j - i) i) as Hi'.
    pose proof (scanDown_bounds (fun j0 => less data a j0) (S j - i') j) as Hj'.
    fold i' in Hi'. fold j' in Hj'.
    destruct (Nat.ltb_spec j' i') as [Hlt|Hge].
    + cbn. split; [apply swaps_refl | lia].
    + destruct (IH (swap data i' j') (S i') (j' - 1) ltac:(lia) ltac:(lia))
        as [Hs Hb].
      split; [|lia].
      eapply swaps_trans; [apply (swaps_swap a b data i' j'); lia | exact Hs].
Qed.

Lemma partitionEqual_swaps (a b pivot : nat) (data : list A) :
  a <= pivot < b ->
  swaps a b data (partitionEqual_func less data a b pivot).1 /\
  a < (partitionEqual_func less data a b pivot).2 <= b.
Proof.
  intros Hp. unfold partitionEqual_func.
  destruct (partitionEqualLoop_swaps a b (S (b - 1) - (a + 1)) (swap data a pivot)
              (a + 1) (b - 1) ltac:(lia) ltac:(lia)) as [Hs Hb].
  split; [|exact Hb].
  eapply swaps_trans; [apply (swaps_swap a b data a pivot); lia | exact Hs].
Qed.

Lemma skipOrdered_bounds (n : nat) (data : list A) (i : nat) :
  i <= skipOrdered less n data i <= i + n.
Proof.
  revert i. induction n as [|n IH]; intros i; cbn [skipOrdered]; [lia|].
  destruct (negb (less data i (i - 1))); [specialize (IH (S i))|]; lia.
Qed.

Lemma shiftLeft_swaps (b j : nat) (data : list A) :
  j < b -> swaps 0 b data (shiftLeft less j data).
Proof.
  revert data. induction j as [|j IH]; intros data Hj; cbn [shiftLeft].
  - apply swaps_refl.
  - destruct (negb (less data (S j) j)); [apply swaps_refl|].
    eapply swaps_trans; [apply (swaps_swap 0 b data (S j) j); lia|].
    apply IH. lia.
Qed.

Lemma shiftRight_swaps (lo b n j : nat) (data : list A) :
  lo < j -> j + n <= b -> swaps lo b data (shiftRight less n j data).
Proof.
  revert data j. induction n as [|n IH]; intros data j Hlo Hj; cbn [shiftRight].
  - apply swaps_refl.
  - destruct (negb (less data j (j - 1))); [apply swaps_refl|].
    eapply swaps_trans; [apply (swaps_swap lo b data j (j - 1)); lia|].
    apply IH; lia.
Qed.

Lemma partialInsertionLoop_swaps (steps : nat) (data : list A) (a b i : nat) :
  a < i <= b ->
  swaps 0 b data (partialInsertionLoop less steps data a b i).1.
Proof.
  revert data i. induction steps as [|steps IH]; intros data i Hi;
    cbn [partialInsertionLoop].
  - apply swaps_refl.
  - set (i' := skipOrdered less (b - i) data i).
    pose proof (skipOrdered_bounds (b - i) data i) as Hi'. fold i' in Hi'.
    destruct (Nat.eqb_spec i' b) as [Heq|Hne]; [apply swaps_refl|].
    destruct (b - a <? 50); [apply swaps_refl|].
    eapply swaps_trans; [|apply IH; lia].
    set (d1 := swap data i' (i' - 1)).
    set (d2 := if 2 <=? i' - a then shiftLeft less (i' - 1) d1 else d1).
    apply (swaps_trans 0 b data d1); [apply swaps_swap; lia|].
    apply (swaps_trans 0 b d1 d2).
    + unfold d2. destruct (2 <=? i' - a);
        [apply shiftLeft_swaps; lia | apply swaps_refl].
    + destruct (2 <=? b - i'); [apply shiftRight_swaps; lia | apply swaps_refl].
Qed.

Lemma partialInsertionSort_swaps (data : list A) (a b : nat) :
  a < b -> swaps 0 b data (partialInsertionSort_func less data a b).1.
Proof. intros Hab. apply partialInsertionLoop_swaps. lia. Qed.

Lemma nextPowerOfTwo_bound (length : nat) :
  0 < length -> (nextPowerOfTwo length <= N.of_nat (2 * length))%N.
Proof.
  intros Hl. unfold nextPowerOfTwo, Len. destruct length as [|l]; [lia|].
  pose proof (Nat.log2_spec (S l) ltac:(lia)) as [Hlo _].
  change 2%N with (N.of_nat 2) at 1. rewrite <- Nat2N.inj_pow.
  rewrite Nat.pow_succ_r'.
  generalize dependent (2 ^ Nat.log2 (S l)). intros k Hk. lia.
Qed.

Lemma breakPatternsLoop_swaps (n i : nat) (random : N) (data : list A)
    (a b : nat) :
  a <= b -> 8 <= b - a -> i + n <= 3 ->
  swaps a b data
    (breakPatternsLoop Next n i random data a (b - a) (a + (b - a) / 4 * 2 - 1)
       (nextPowerOfTwo (b - a))).
Proof.
  intros Hab Hl. revert i random data.
  induction n as [|n IH]; intros i random data Hi; cbn [breakPatternsLoop].
  - apply swaps_refl.
  - set (other0 := N.to_nat (N.land (Next random) (nextPowerOfTwo (b - a) - 1))).
    assert (Hother : other0 < 2 * (b - a)).
    { unfold other0.
      pose proof (nextPowerOfTwo_bound (b - a) ltac:(lia)) as Hm.
      assert (Hland : (N.land (Next random) (nextPowerOfTwo (b - a) - 1)
                       < nextPowerOfTwo (b - a))%N).
      { unfold nextPowerOfTwo. rewrite N.sub_1_r, <- N.ones_equiv, N.land_ones.
        apply N.mod_lt. apply N.pow_nonzero. lia. }
      lia. }
    pose proof (Nat.div_mod_eq (b - a) 4) as Hdiv.
    pose proof (Nat.mod_upper_bound (b - a) 4 ltac:(lia)) as Hmod.
    eapply swaps_trans; [|apply IH; lia].
    apply swaps_swap.
    + lia.
    + destruct (Nat.leb_spec (b - a) other0); lia.
Qed.

Lemma breakPatterns_swaps (data : list A) (a b : nat) :
  a <= b -> swaps a b data (breakPatterns_func Next data a b).
Proof.
  intros Hab. unfold breakPatterns_func.
  destruct (Nat.leb_spec 8 (b - a)) as [Hl|Hl]; [|apply swaps_refl].
  apply breakPatternsLoop_swaps; lia.
Qed.

Lemma median_func_in (data : list A) (a b c swaps0 : nat) :
  (median_func less data a b c swaps0).1 = a \/
  (median_func less data a b c swaps0).1 = b \/
  (median_func less data a b c swaps0).1 = c.
Proof.
  unfold median_func, order2_func.
  destruct (less data b a); destruct (less data c _);
    destruct (less data _ _); cbn; auto.
Qed.

Lemma choosePivot_bounds (data : list A) (a b : nat) :
  a < b -> a <= (choosePivot_func less data a b).1 < b.
Proof.
  intros Hab. unfold choosePivot_func.
  pose proof (Nat.div_mod_eq (b - a) 4) as Hdiv.
  pose proof (Nat.mod_upper_bound (b - a) 4 ltac:(lia)) as Hmod.
  set (q := (b - a) / 4) in *.
  match goal with
  | |- context [let '(j, swaps0) := ?e in _] =>
      assert (Hj : a <= e.1 < b); [|destruct e as [j s]]
  end.
  - destruct (Nat.leb_spec 8 (b - a)) as [H8|H8]; [|cbn [fst]; lia].
    destruct (Nat.leb_spec 50 (b - a)) as [H50|H50].
    + unfold medianAdjacent_func.
      pose proof (median_func_in data (a + q * 1 - 1) (a + q * 1) (a + q * 1 + 1) 0)
        as Hi.
      destruct (median_func less data (a + q * 1 - 1) _ _ 0) as [i s1].
      pose proof (median_func_in data (a + q * 2 - 1) (a + q * 2) (a + q * 2 + 1) s1)
        as Hj.
      destruct (median_func less data (a + q * 2 - 1) _ _ s1) as [j s2].
      pose proof (median_func_in data (a + q * 3 - 1) (a + q * 3) (a + q * 3 + 1) s2)
        as Hk.
      destruct (median_func less data (a + q * 3 - 1) _ _ s2) as [k s3].
      pose proof (median_func_in data i j k s3) as Hm.
      cbn [fst] in *. lia.
    + pose proof (median_func_in data (a + q * 1) (a + q * 2) (a + q * 3) 0) as Hm.
      lia.
  - cbn in Hj. destruct (s =? 0); [exact Hj|]. destruct (s =? 12); exact Hj.
Qed.

Lemma reverseLoop_swaps (a b n : nat) (data : list A) (i j : nat) :
  a <= i -> j < b -> swaps a b data (reverseLoop n data i j).
Proof.
  revert data i j. induction n as [|n IH]; intros data i j Hi Hj;
    cbn [reverseLoop].
  - apply swaps_refl.
  - destruct (Nat.ltb_spec i j) as [Hlt|Hge]; [|apply swaps_refl].
    eapply swaps_trans; [apply (swaps_swap a b data i j); lia|]. apply IH; lia.
Qed.

Lemma reverseRange_swaps (data : list A) (a b : nat) :
  swaps a b data (reverseRange_func data a b).
Proof.
  unfold reverseRange_func. destruct (le_lt_dec b a) as [Hba|Hab].
  - replace (b - a) with 0 by lia. apply swaps_refl.
  - apply reverseLoop_swaps; lia.
Qed.

End SortSwaps.

Section SortPermutation.
Context {A : Type}.
Variable less : list A -> nat -> nat -> bool.
Variable Next : N -> N.
Local Open Scope nat_scope.

(** Every step of [pdqsort_func] on [a, b) swaps two positions below [b]. *)
Lemma pdqsort_swaps (fuel : nat) (data : list A) (a b limit : nat)
    (wasBalanced wasPartitioned : bool) :
  a <= b ->
  swaps 0 b data
    (pdqsort_func less Next fuel data a b limit wasBalanced wasPartitioned).
Proof.
  revert data a b limit wasBalanced wasPartitioned.
  induction fuel as [|fuel IH]; intros data a b limit wb wp Hab;
    cbn [pdqsort_func].
  - apply swaps_refl.
  - destruct (Nat.leb_spec (b - a) 12) as [Hshort|Hlong].
    { eapply swaps_mono; [| |apply insertionSort_swaps]; lia. }
    destruct (limit =? 0).
    { eapply swaps_mono; [| |apply heapSort_swaps]; lia. }
    set (st1 := if negb wb then (breakPatterns_func Next data a b, limit - 1)
                else (data, limit)).
    assert (H1 : swaps 0 b data st1.1).
    { unfold st1. destruct wb; cbn [negb fst]; [apply swaps_refl|].
      eapply swaps_mono; [| |apply breakPatterns_swaps]; lia. }
    destruct st1 as [d1 limit1]. cbn [fst] in H1.
    pose proof (choosePivot_bounds less d1 a b ltac:(lia)) as Hp.
    destruct (choosePivot_func less d1 a b) as [pivot hint]. cbn [fst] in Hp.
    set (st2 := if isDecreasing hint
                then (reverseRange_func d1 a b, b - 1 - (pivot - a), increasingHint)
                else (d1, pivot, hint)).
    assert (H2 : swaps 0 b d1 st2.1.1 /\ a <= st2.1.2 < b).
    { unfold st2. destruct (isDecreasing hint); cbn [fst snd].
      - split; [|lia]. eapply swaps_mono; [| |apply reverseRange_swaps]; lia.
      - split; [apply swaps_refl | exact Hp]. }
    destruct st2 as [[d2 pivot2] hint2]. cbn [fst snd] in H2.
    destruct H2 as [H2 Hp2].
    set (st3 := if wb && wp && isIncreasing hint2
                then partialInsertionSort_func less d2 a b else (d2, false)).
    assert (H3 : swaps 0 b d2 st3.1).
    { unfold st3. destruct (wb && wp && isIncreasing hint2); cbn [fst];
        [|apply swaps_refl].
      apply partialInsertionSort_swaps. lia. }
    destruct st3 as [d3 sorted]. cbn [fst] in H3.
    assert (H03 : swaps 0 b data d3).
    { eapply swaps_trans; [exact H1|]. eapply swaps_trans; [exact H2|exact H3]. }
    destruct sorted; [exact H03|].
    destruct ((0 <? a) && negb (less d3 (a - 1) pivot2)).
    + pose proof (partitionEqual_swaps less a b pivot2 d3 Hp2) as [H4 Hmid].
      destruct (partitionEqual_func less d3 a b pivot2) as [d4 mid].
      cbn [fst snd] in H4, Hmid.
      eapply swaps_trans; [exact H03|].
      eapply swaps_trans; [eapply swaps_mono; [| |exact H4]; lia|].
      apply IH. lia.
    + pose proof (partition_swaps less a b pivot2 d3 Hp2) as [H4 Hmid].
      destruct (partition_func less d3 a b pivot2) as [[d4 mid] ap].
      cbn [fst snd] in H4, Hmid.
      eapply swaps_trans; [exact H03|].
      eapply swaps_trans; [eapply swaps_mono; [| |exact H4]; lia|].
      destruct (mid - a <? b - mid).
      * eapply swaps_trans; [|apply IH; lia].
        eapply swaps_mono; [| |apply IH]; lia.
      * eapply swaps_trans; [|eapply swaps_mono; [| |apply IH]; lia].
        apply IH. lia.
Qed.

(** [sort.Slice] rearranges the slice, whatever the comparison is. *)
Lemma sortSlice_Permutation (data : list A) :
  Permutation data (sortSlice less Next data).
Proof.
  symmetry. unfold sortSlice.
  eapply swaps_Permutation. apply pdqsort_swaps. lia.
Qed.

Lemma sortSlice_length (data : list A) :
  length (sortSlice less Next data) = length data.
Proof. apply Permutation_length. symmetry. apply sortSlice_Permutation. Qed.

End SortPermutation.

(** *** [sort.Slice]: the loops have turns enough *)

Section SortFuel.
Context {A : Type}.
Variable less : list A -> nat -> nat -> bool.
Variable Next : N -> N.
Local Open Scope nat_scope.

Lemma insertionSort_empty (data : list A) (a b : nat) :
  b <= a + 1 -> insertionSort_func less data a b = data.
Proof.
  intros Hb. unfold insertionSort_func.
  replace (b - (a + 1)) with 0 by lia. reflexivity.
Qed.

(** More turns than [hi - root] change nothing in [siftDown_func]. *)
Lemma siftDown_loop_fuel (n m : nat) (data : list A) (root hi first : nat) :
  hi - root <= n -> hi - root <= m ->
  siftDown_loop less n data root hi first = siftDown_loop less m data root hi first.
Proof.
  revert m data root. induction n as [|n IH]; intros m data root Hn Hm.
  - destruct m as [|m]; [reflexivity|]. cbn [siftDown_loop].
    destruct (Nat.leb_spec hi (2 * root + 1)); [reflexivity | lia].
  - destruct m as [|m].
    + cbn [siftDown_loop].
      destruct (Nat.leb_spec hi (2 * root + 1)); [reflexivity | lia].
    + cbn [siftDown_loop].
      destruct (Nat.leb_spec hi (2 * root + 1)) as [Hhi|Hhi]; [reflexivity|].
      set (child := if (2 * root + 1 + 1 <? hi) &&
                       less data (first + (2 * root + 1)) (first + (2 * root + 1) + 1)
                    then 2 * root + 1 + 1 else 2 * root + 1).
      assert (Hchild : root < child).
      { unfold child. destruct (_ && _); lia. }
      destruct (negb (less data (first + root) (first + child))); [reflexivity|].
      apply IH; lia.
Qed.

(** More turns than there are positions between [i] and [j] change nothing
    in the loops of [partition_func] and [partitionEqual_func]. *)
Lemma partitionLoop_fuel (n m : nat) (data : list A) (a i j : nat) :
  0 < i -> S j - i <= n -> S j - i <= m ->
  partitionLoop less n data a i j = partitionLoop less m data a i j.
Proof.
  assert (Hstop : forall k d i0 j0, S j0 - i0 = 0 ->
            partitionLoop less k d a i0 j0 = (d, j0)).
  { intros k d i0 j0 H0. destruct k as [|k]; [reflexivity|].
    cbn [partitionLoop]. rewrite H0. cbn [scanUp scanDown].
    replace (S j0 - i0) with 0 by lia. cbn [scanDown].
    destruct (Nat.ltb_spec j0 i0); [reflexivity | lia]. }
  revert m data i j. induction n as [|n IH]; intros m data i j Hi Hn Hm.
  - rewrite (Hstop m) by lia. reflexivity.
  - destruct m as [|m]; [rewrite (Hstop (S n)) by lia; reflexivity|].
    cbn [partitionLoop].
    set (i' := scanUp (fun i0 => less data i0 a) (S j - i) i).
    set (j' := scanDown (fun j0 => negb (less data j0 a)) (S j - i') j).
    pose proof (scanUp_bounds (fun i0 => less data i0 a) (S j - i) i) as Hi'.
    pose proof (scanDown_bounds (fun j0 => negb (less data j0 a)) (S j - i') j)
      as Hj'.
    fold i' in Hi'. fold j' in Hj'.
    destruct (Nat.ltb_spec j' i'); [reflexivity|].
    apply IH; lia.
Qed.

Lemma partitionEqualLoop_fuel (n m : nat) (data : list A) (a i j : nat) :
  0 < i -> S j - i <= n -> S j - i <= m ->
  partitionEqualLoop less n data a i j = partitionEqualLoop less m data a i j.
Proof.
  assert (Hstop : forall k d i0 j0, S j0 - i0 = 0 ->
            partitionEqualLoop less k d a i0 j0 = (d, i0)).
  { intros k d i0 j0 H0. destruct k as [|k]; [reflexivity|].
    cbn [partitionEqualLoop]. rewrite H0. cbn [scanUp scanDown].
    replace (S j0 - i0) with 0 by lia. cbn [scanDown].
    destruct (Nat.ltb_spec j0 i0); [reflexivity | lia]. }
  revert m data i j. induction n as [|n IH]; intros m data i j Hi Hn Hm.
  - rewrite (Hstop m) by lia. reflexivity.
  - destruct m as [|m]; [rewrite (Hstop (S n)) by lia; reflexivity|].
    cbn [partitionEqualLoop].
    set (i' := scanUp (fun i0 => negb (less data a i0)) (S j - i) i).
    set (j' := scanDown (fun j0 => less data a j0) (S j - i') j).
    pose proof (scanUp_bounds (fun i0 => negb (less data a i0)) (S j - i) i) as Hi'.
    pose proof (scanDown_bounds (fun j0 => less data a j0) (S j - i') j) as Hj'.
    fold i' in Hi'. fold j' in Hj'.
    destruct (Nat.ltb_spec j' i'); [reflexivity|].
    apply IH; lia.
Qed.

(** More turns than [j - i] change nothing in [reverseRange_func]. *)
Lemma reverseLoop_fuel (n m : nat) (data : list A) (i j : nat) :
  j - i <= n -> j - i <= m -> reverseLoop n data i j = reverseLoop m data i j.
Proof.
  revert m data i j. induction n as [|n IH]; intros m data i j Hn Hm.
  - destruct m as [|m]; [reflexivity|]. cbn [reverseLoop].
    destruct (Nat.ltb_spec i j); [lia | reflexivity].
  - destruct m as [|m]; cbn [reverseLoop].
    + destruct (Nat.ltb_spec i j); [lia | reflexivity].
    + destruct (Nat.ltb_spec i j); [|reflexivity]. apply IH; lia.
Qed.

(** Any fuel that is at least the length of the range gives the same result
    of [pdqsort_func]: the length is enough. *)
Lemma pdqsort_fuel (fuel fuel' : nat) (data : list A) (a b limit : nat)
    (wasBalanced wasPartitioned : bool) :
  b - a <= fuel -> b - a <= fuel' ->
  pdqsort_func less Next fuel data a b limit wasBalanced wasPartitioned =
  pdqsort_func less Next fuel' data a b limit wasBalanced wasPartitioned.
Proof.
  assert (Hstop : forall k d a0 b0 l w1 w2, b0 - a0 = 0 ->
            pdqsort_func less Next k d a0 b0 l w1 w2 = d).
  { intros k d a0 b0 l w1 w2 H0. destruct k as [|k]; [reflexivity|].
    cbn [pdqsort_func]. rewrite H0. cbn [Nat.leb].
    apply insertionSort_empty. lia. }
  revert fuel' data a b limit wasBalanced wasPartitioned.
  induction fuel as [|fuel IH]; intros fuel' data a b limit wb wp Hn Hm.
  - rewrite (Hstop fuel') by lia. reflexivity.
  - destruct fuel' as [|fuel']; [rewrite (Hstop (S fuel)) by lia; reflexivity|].
    cbn [pdqsort_func].
    destruct (Nat.leb_spec (b - a) 12) as [Hshort|Hlong]; [reflexivity|].
    destruct (limit =? 0); [reflexivity|].
    destruct (if negb wb then (breakPatterns_func Next data a b, limit - 1)
              else (data, limit)) as [d1 limit1].
    pose proof (choosePivot_bounds less d1 a b ltac:(lia)) as Hp.
    destruct (choosePivot_func less d1 a b) as [pivot hint]. cbn [fst] in Hp.
    set (st2 := if isDecreasing hint
                then (reverseRange_func d1 a b, b - 1 - (pivot - a), increasingHint)
                else (d1, pivot, hint)).
    assert (Hp2 : a <= st2.1.2 < b).
    { unfold st2. destruct (isDecreasing hint); cbn [fst snd]; lia. }
    destruct st2 as [[d2 pivot2] hint2]. cbn [fst snd] in Hp2.
    destruct (if wb && wp && isIncreasing hint2
              then partialInsertionSort_func less d2 a b else (d2, false))
      as [d3 sorted].
    destruct sorted; [reflexivity|].
    destruct ((0 <? a) && negb (less d3 (a - 1) pivot2)).
    + pose proof (partitionEqual_swaps less a b pivot2 d3 Hp2) as [_ Hmid].
      destruct (partitionEqual_func less d3 a b pivot2) as [d4 mid].
      cbn [snd] in Hmid. apply IH; lia.
    + pose proof (partition_swaps less a b pivot2 d3 Hp2) as [_ Hmid].
      destruct (partition_func less d3 a b pivot2) as [[d4 mid] ap].
      cbn [fst snd] in Hmid.
      destruct (mid - a <? b - mid).
      * rewrite (IH fuel' d4 a mid) by lia. apply IH; lia.
      * rewrite (IH fuel' d4 (mid + 1) b) by lia. apply IH; lia.
Qed.

(** [sort.Slice] as the result of [pdqsort_func] with any fuel from the
    length of the slice on. *)
Lemma sortSlice_fuel (fuel : nat) (data : list A) :
  length data <= fuel ->
  sortSlice less Next data =
  pdqsort_func less Next fuel data 0 (length data) (Len (length data)) true true.
Proof. intros Hfuel. unfold sortSlice. apply pdqsort_fuel; lia. Qed.

End SortFuel.

(** *** [sort.Slice] with the comparison of [GetStacks] *)

Section RunningFirst.
Context {A : Type}.
Variable p : A -> bool.
Variable Next : N -> N.
Local Open Scope nat_scope.

Lemma lessAt_true (data : list A) (i j : nat) :
  lessAt p data i j = true <-> exists x, data !! i = Some x /\ p x = true.
Proof.
  unfold lessAt. destruct (data !! i) as [x|]; split.
  - intros H. exists x. auto.
  - intros (y & Hy & Hp). congruence.
  - discriminate.
  - intros (y & Hy & _). discriminate.
Qed.

Lemma lessAt_false (data : list A) (i j : nat) (x : A) :
  data !! i = Some x -> lessAt p data i j = p x.
Proof. unfold lessAt. intros ->. reflexivity. Qed.

Lemma uniform_keys (lo hi : nat) (v : bool) (data data' : list A) :
  p <$> data' = p <$> data -> uniform p lo hi v data -> uniform p lo hi v data'.
Proof.
  intros Hkeys Hu i x Hi Hx.
  assert (Hpx : (p <$> data') !! i = Some (p x))
    by (rewrite list_lookup_fmap, Hx; reflexivity).
  rewrite Hkeys, list_lookup_fmap in Hpx.
  destruct (data !! i) as [y|] eqn:Hy; [|discriminate].
  cbn in Hpx. injection Hpx as <-. eapply Hu; eassumption.
Qed.

Lemma uniform_mono (lo hi lo' hi' : nat) (v : bool) (data : list A) :
  lo <= lo' -> hi' <= hi -> uniform p lo hi v data -> uniform p lo' hi' v data.
Proof. intros Hlo Hhi Hu i x Hi Hx. apply (Hu i x); [lia | exact Hx]. Qed.

Lemma partitioned_keys (data data' : list A) :
  p <$> data' = p <$> data -> partitioned p data -> partitioned p data'.
Proof.
  intros Hkeys Hp i j x y Hij Hx Hy Hpy.
  assert (Hkx : (p <$> data') !! i = Some (p x))
    by (rewrite list_lookup_fmap, Hx; reflexivity).
  assert (Hky : (p <$> data') !! j = Some (p y))
    by (rewrite list_lookup_fmap, Hy; reflexivity).
  rewrite Hkeys, list_lookup_fmap in Hkx, Hky.
  destruct (data !! i) as [x'|] eqn:Hx'; [|discriminate].
  destruct (data !! j) as [y'|] eqn:Hy'; [|discriminate].
  cbn in Hkx, Hky. injection Hkx as Hkx. injection Hky as Hky.
  rewrite <- Hkx. apply (Hp i j x' y' Hij Hx' Hy'). congruence.
Qed.

(** A swap of two positions of a uniform range keeps the value of [p] at
    every position. *)
Lemma swap_uniform (lo hi : nat) (v : bool) (data : list A) (i j : nat) :
  lo <= i < hi -> lo <= j < hi -> uniform p lo hi v data ->
  p <$> swap data i j = p <$> data.
Proof.
  intros Hi Hj Hu. unfold swap.
  destruct (data !! i) as [x|] eqn:Hx; [|reflexivity].
  destruct (data !! j) as [y|] eqn:Hy; [|reflexivity].
  rewrite !list_fmap_insert.
  rewrite (Hu i x Hi Hx), (Hu j y Hj Hy).
  rewrite (list_insert_id (p <$> data) j v)
    by (rewrite list_lookup_fmap, Hy; cbn; f_equal; apply (Hu j y Hj Hy)).
  apply list_insert_id.
  rewrite list_lookup_fmap, Hx. cbn. f_equal. apply (Hu i x Hi Hx).
Qed.

Lemma swaps_uniform (lo hi : nat) (v : bool) (data data' : list A) :
  swaps lo hi data data' -> uniform p lo hi v data -> p <$> data' = p <$> data.
Proof.
  induction 1 as [data|data i j Hi Hj|data1 data2 data3 H12 IH12 H23 IH23];
    intros Hu.
  - reflexivity.
  - eapply swap_uniform; eassumption.
  - rewrite IH23; [apply IH12; exact Hu|].
    eapply uniform_keys; [apply IH12; exact Hu | exact Hu].
Qed.

Lemma swaps_take (lo hi : nat) (data data' : list A) :
  swaps lo hi data data' -> take lo data' = take lo data.
Proof.
  induction 1 as [data|data i j Hi Hj|data1 data2 data3 H12 IH12 H23 IH23].
  - reflexivity.
  - unfold swap. destruct (data !! i), (data !! j); try reflexivity.
    rewrite !take_insert_ge by lia. reflexivity.
  - congruence.
Qed.

(** *** Lists with the elements that satisfy [p] first *)

Lemma partitioned_take (n : nat) (data : list A) :
  partitioned p data -> partitioned p (take n data).
Proof.
  intros Hp i j x y Hij Hx Hy.
  apply lookup_take_Some in Hx as [Hx _]. apply lookup_take_Some in Hy as [Hy _].
  exact (Hp i j x y Hij Hx Hy).
Qed.

Lemma partitioned_cons (x : A) (data : list A) :
  p x = true -> partitioned p data -> partitioned p (x :: data).
Proof.
  intros Hpx Hp i j x' y Hij Hx Hy Hpy.
  destruct j as [|j]; [lia|]. destruct i as [|i].
  - cbn in Hx. congruence.
  - cbn in Hx, Hy. apply (Hp i j x' y); [lia|assumption..].
Qed.

Lemma partitioned_tail (x : A) (data : list A) :
  partitioned p (x :: data) -> partitioned p data.
Proof.
  intros Hp i j x' y Hij Hx Hy. apply (Hp (S i) (S j) x' y); [lia|assumption..].
Qed.

Lemma partitioned_snoc (x : A) (data : list A) :
  p x = false -> partitioned p data -> partitioned p (data ++ [x]).
Proof.
  intros Hpx Hp i j x' y Hij Hx Hy Hpy.
  apply lookup_snoc_Some in Hy as [[Hj Hy]|[Hj ->]]; [|congruence].
  apply lookup_snoc_Some in Hx as [[Hi Hx]|[Hi ->]]; [|lia].
  exact (Hp i j x' y Hij Hx Hy Hpy).
Qed.

Lemma partitioned_app (l1 l2 : list A) :
  Forall (fun x => p x = true) l1 -> Forall (fun x => p x = false) l2 ->
  partitioned p (l1 ++ l2).
Proof.
  intros H1 H2 i j x y Hij Hx Hy Hpy.
  apply lookup_app_Some in Hy as [Hy|[Hj Hy]].
  - apply lookup_app_Some in Hx as [Hx|[Hi Hx]].
    + rewrite Forall_lookup in H1. exact (H1 i x Hx).
    + apply lookup_lt_Some in Hy. lia.
  - rewrite Forall_lookup in H2. specialize (H2 _ _ Hy). cbn in H2. congruence.
Qed.

Lemma partitioned_filter (data : list A) :
  partitioned p data ->
  data = List.filter p data ++ List.filter (fun x => negb (p x)) data.
Proof.
  induction data as [|x data IH]; intros Hp; [reflexivity|].
  cbn [List.filter]. destruct (p x) eqn:Hpx; cbn [negb].
  - cbn [app]. f_equal. apply IH. eapply partitioned_tail. exact Hp.
  - assert (Hall : forall y, In y data -> p y = false).
    { intros y Hy. apply list_elem_of_In, list_elem_of_lookup in Hy as [j Hj].
      destruct (p y) eqn:Hpy; [|reflexivity].
      rewrite <- Hpx. symmetry. apply (Hp 0 (S j) x y); [lia|reflexivity|exact Hj|].
      exact Hpy. }
    assert (Hnone : List.filter p data = [] /\
                    List.filter (fun y => negb (p y)) data = data).
    { clear IH Hp. induction data as [|y data IHd]; [split; reflexivity|].
      cbn [List.filter]. rewrite (Hall y) by (left; reflexivity). cbn [negb].
      destruct IHd as [H1 H2]; [intros z Hz; apply Hall; right; exact Hz|].
      rewrite H1, H2. split; reflexivity. }
    destruct Hnone as [-> ->]. reflexivity.
Qed.

Lemma frontReversed_partitioned (data : list A) :
  partitioned p (frontReversed p data).
Proof.
  unfold frontReversed. apply partitioned_app.
  - apply List.Forall_forall. intros x Hx. apply in_rev in Hx.
    apply filter_In in Hx as [_ Hx]. exact Hx.
  - apply List.Forall_forall. intros x Hx.
    apply filter_In in Hx as [_ Hx]. apply negb_true_iff. exact Hx.
Qed.

End RunningFirst.

Section RunningFirstPartition.
Context {A : Type}.
Variable p : A -> bool.
Local Open Scope nat_scope.

(** One turn of the two scans of [partition_func], and the swap after it. *)
Lemma partition_scans (data : list A) (a b i j : nat) :
  a < i -> i <= S j -> j < b -> b <= length data ->
  uniform p (a + 1) i true data -> uniform p (S j) b false data ->
  let i' := scanUp (fun i0 => lessAt p data i0 a) (S j - i) i in
  let j' := scanDown (fun j0 => negb (lessAt p data j0 a)) (S j - i') j in
  i <= i' /\ j' <= j /\ i' <= S j' /\
  uniform p (a + 1) i' true data /\ uniform p (S j') b false data /\
  (i' <= j' -> i' < j' /\
     uniform p (a + 1) (S i') true (swap data i' j') /\
     uniform p j' b false (swap data i' j')).
Proof.
  intros Hi Hij Hj Hb Hleft Hright i' j'.
  pose proof (scanUp_bounds (fun i0 => lessAt p data i0 a) (S j - i) i) as Hi'.
  pose proof (scanDown_bounds (fun j0 => negb (lessAt p data j0 a)) (S j - i') j)
    as Hj'.
  fold i' in Hi'. fold j' in Hj'.
  assert (Hl : uniform p (a + 1) i' true data).
  { intros k x Hk Hx. destruct (le_lt_dec i k) as [Hik|Hik].
    - pose proof (scanUp_all (fun i0 => lessAt p data i0 a) (S j - i) i k
                    ltac:(fold i'; lia)) as Hc.
      cbn beta in Hc. rewrite (lessAt_false p data k a x Hx) in Hc. exact Hc.
    - apply (Hleft k x); [lia | exact Hx]. }
  assert (Hr : uniform p (S j') b false data).
  { intros k x Hk Hx. destruct (le_lt_dec k j) as [Hkj|Hkj].
    - pose proof (scanDown_all (fun j0 => negb (lessAt p data j0 a)) (S j - i') j k
                    ltac:(lia) ltac:(fold j'; lia)) as Hc.
      cbn beta in Hc. rewrite (lessAt_false p data k a x Hx) in Hc.
      apply negb_true_iff. exact Hc.
    - apply (Hright k x); [lia | exact Hx]. }
  split; [lia|]. split; [lia|]. split; [lia|]. split; [exact Hl|].
  split; [exact Hr|]. intros Hle.
  pose proof (scanUp_stop (fun i0 => lessAt p data i0 a) (S j - i) i
                ltac:(fold i'; lia)) as Hci.
  pose proof (scanDown_stop (fun j0 => negb (lessAt p data j0 a)) (S j - i') j
                ltac:(lia) ltac:(fold j'; lia)) as Hcj.
  fold i' in Hci. fold j' in Hcj. cbn beta in Hci, Hcj.
  apply negb_false_iff in Hcj.
  destruct (lookup_lt_is_Some_2 data i' ltac:(lia)) as [x Hx].
  destruct (lookup_lt_is_Some_2 data j' ltac:(lia)) as [y Hy].
  rewrite (lessAt_false p data i' a x Hx) in Hci.
  rewrite (lessAt_false p data j' a y Hy) in Hcj.
  assert (Hne : i' <> j') by (intros Heq; rewrite Heq in Hx; congruence).
  split; [lia|]. split.
  - intros k z Hk Hz. rewrite swap_lookup in Hz by lia.
    destruct (decide (k = i')) as [->|Hki]; [congruence|].
    destruct (decide (k = j')) as [->|Hkj]; [lia|].
    apply (Hl k z); [lia | exact Hz].
  - intros k z Hk Hz. rewrite swap_lookup in Hz by lia.
    destruct (decide (k = i')) as [->|Hki]; [lia|].
    destruct (decide (k = j')) as [->|Hkj]; [congruence|].
    apply (Hr k z); [lia | exact Hz].
Qed.

Lemma partitionLoop_uniform (a b n : nat) (data : list A) (i j : nat) :
  a < i -> i <= S j -> j < b -> b <= length data -> S j - i <= n ->
  uniform p (a + 1) i true data -> uniform p (S j) b false data ->
  let r := partitionLoop (lessAt p) n data a i j in
  a <= r.2 < b /\ length r.1 = length data /\
  uniform p (a + 1) (S r.2) true r.1 /\ uniform p (S r.2) b false r.1.
Proof.
  revert data i j. induction n as [|n IH];
    intros data i j Hi Hij Hj Hb Hn Hleft Hright; cbn [partitionLoop].
  - cbv zeta. cbn [fst snd]. split; [lia|]. split; [reflexivity|].
    split; [replace (S j) with i by lia|]; assumption.
  - pose proof (partition_scans data a b i j Hi Hij Hj Hb Hleft Hright)
      as (Hi' & Hj' & Hij' & Hl & Hr & Hswap).
    cbv zeta in Hi', Hj', Hij', Hl, Hr, Hswap.
    set (i' := scanUp (fun i0 => lessAt p data i0 a) (S j - i) i) in *.
    set (j' := scanDown (fun j0 => negb (lessAt p data j0 a)) (S j - i') j) in *.
    destruct (Nat.ltb_spec j' i') as [Hlt|Hge].
    + cbv zeta. cbn [fst snd]. split; [lia|]. split; [reflexivity|].
      split; [replace (S j') with i' by lia|]; assumption.
    + destruct (Hswap Hge) as (Hlt & Hl' & Hr').
      pose proof (IH (swap data i' j') (S i') (j' - 1) ltac:(lia) ltac:(lia)
                    ltac:(lia) ltac:(rewrite swap_length; lia) ltac:(lia) Hl'
                    ltac:(replace (S (j' - 1)) with j' by lia; exact Hr'))
        as (Hb' & Hlen & Hl2 & Hr2).
      cbv zeta in Hb', Hlen, Hl2, Hr2.
      split; [lia|]. split; [rewrite Hlen; apply swap_length|].
      split; assumption.
Qed.

(** The last swap of [partition_func] puts the pivot between the two
    parts. *)
Lemma partition_pivot_swap (data : list A) (a b j : nat) :
  a <= j < b -> b <= length data ->
  uniform p (a + 1) (S j) true data -> uniform p (S j) b false data ->
  uniform p a j true (swap data j a) /\ uniform p (S j) b false (swap data j a).
Proof.
  intros Hj Hb Hl Hr. split.
  - intros k z Hk Hz. rewrite swap_lookup in Hz by lia.
    destruct (decide (k = j)) as [->|Hkj]; [lia|].
    destruct (decide (k = a)) as [->|Hka].
    + apply (Hl j z); [lia | exact Hz].
    + apply (Hl k z); [lia | exact Hz].
  - intros k z Hk Hz. rewrite swap_lookup in Hz by lia.
    destruct (decide (k = j)) as [->|Hkj]; [lia|].
    destruct (decide (k = a)) as [->|Hka]; [lia|].
    apply (Hr k z); [lia | exact Hz].
Qed.

(** [partition_func] with the comparison of [GetStacks]: the elements that
    satisfy [p] come before the new place of the pivot, the others after. *)
Lemma partition_uniform (data : list A) (a b pivot : nat) :
  a <= pivot < b -> b <= length data ->
  let r := partition_func (lessAt p) data a b pivot in
  a <= r.1.2 < b /\ length r.1.1 = length data /\
  uniform p a r.1.2 true r.1.1 /\ uniform p (S r.1.2) b false r.1.1.
Proof.
  intros Hp Hb. unfold partition_func.
  set (d1 := swap data a pivot).
  assert (Hlen1 : length d1 = length data) by apply swap_length.
  assert (Hl0 : uniform p (a + 1) (a + 1) true d1) by (intros k x Hk; lia).
  assert (Hr0 : uniform p (S (b - 1)) b false d1) by (intros k x Hk; lia).
  pose proof (partition_scans d1 a b (a + 1) (b - 1) ltac:(lia) ltac:(lia)
                ltac:(lia) ltac:(lia) Hl0 Hr0)
    as (Hi' & Hj' & Hij' & Hl & Hr & Hswap).
  cbv zeta in Hi', Hj', Hij', Hl, Hr, Hswap.
  set (i' := scanUp (fun i0 => lessAt p d1 i0 a) (S (b - 1) - (a + 1)) (a + 1))
    in *.
  set (j' := scanDown (fun j0 => negb (lessAt p d1 j0 a)) (S (b - 1) - i') (b - 1))
    in *.
  destruct (Nat.ltb_spec j' i') as [Hlt|Hge].
  - cbn [fst snd]. split; [lia|]. split; [rewrite swap_length; exact Hlen1|].
    apply partition_pivot_swap; [lia | lia | |exact Hr].
    replace (S j') with i' by lia. exact Hl.
  - destruct (Hswap Hge) as (Hlt & Hl' & Hr').
    pose proof (partitionLoop_uniform a b (S (j' - 1) - S i') (swap d1 i' j')
                  (S i') (j' - 1) ltac:(lia) ltac:(lia) ltac:(lia)
                  ltac:(rewrite swap_length; lia) ltac:(lia) Hl'
                  ltac:(replace (S (j' - 1)) with j' by lia; exact Hr'))
      as (Hb' & Hlen & Hl2 & Hr2).
    cbv zeta in Hb', Hlen, Hl2, Hr2.
    destruct (partitionLoop (lessAt p) _ _ a (S i') (j' - 1)) as [d3 j3].
    cbn [fst snd] in *. split; [lia|].
    split; [rewrite swap_length, Hlen, swap_length; exact Hlen1|].
    apply partition_pivot_swap; [lia | rewrite Hlen, swap_length; lia | |];
      assumption.
Qed.

End RunningFirstPartition.

Section RunningFirstInsertion.
Context {A : Type}.
Variable p : A -> bool.
Local Open Scope nat_scope.

Lemma swap_adjacent (pre post : list A) (x y : A) :
  swap (pre ++ y :: x :: post) (S (length pre)) (length pre) = pre ++ x :: y :: post.
Proof.
  unfold swap.
  rewrite (list_lookup_middle pre (x :: post) y (length pre) eq_refl).
  replace (pre ++ y :: x :: post) with ((pre ++ [y]) ++ x :: post)
    by (rewrite <- app_assoc; reflexivity).
  rewrite (list_lookup_middle (pre ++ [y]) post x (S (length pre)))
    by (rewrite length_app; simpl; lia).
  rewrite <- app_assoc. cbn [app].
  replace (<[length pre:=x]> (pre ++ y :: x :: post)) with (pre ++ x :: x :: post)
    by (rewrite <- (Nat.add_0_r (length pre)) at 1; rewrite insert_app_r;
        reflexivity).
  replace (S (length pre)) with (length pre + 1)%nat by lia.
  rewrite insert_app_r. reflexivity.
Qed.

(** The first shift of [partialInsertionSort_func] carries an element that
    satisfies [p] to the front. *)
Lemma shiftLeft_front (pre post : list A) (x : A) :
  p x = true ->
  shiftLeft (lessAt p) (length pre) (pre ++ x :: post) = x :: pre ++ post.
Proof.
  intros Hpx. revert post. induction pre as [|y pre IH] using rev_ind; intros post.
  - reflexivity.
  - rewrite length_app. cbn [length]. rewrite Nat.add_1_r. cbn [shiftLeft].
    rewrite <- app_assoc. cbn [app].
    rewrite (lessAt_false p _ (S (length pre)) (length pre) x).
    2:{ replace (pre ++ y :: x :: post) with ((pre ++ [y]) ++ x :: post)
          by (rewrite <- app_assoc; reflexivity).
        apply list_lookup_middle. rewrite length_app. cbn. lia. }
    rewrite Hpx. cbn [negb]. rewrite swap_adjacent, IH, <- app_assoc.
    reflexivity.
Qed.

Lemma skipOrdered_stop (less : list A -> nat -> nat -> bool) (n : nat)
    (data : list A) (i : nat) :
  let i' := skipOrdered less n data i in
  i' < i + n -> less data i' (i' - 1) = true.
Proof.
  revert i. induction n as [|n IH]; intros i; cbn [skipOrdered]; [cbv zeta; lia|].
  destruct (less data i (i - 1)) eqn:Hc; cbn [negb]; [intros _; exact Hc|].
  cbv zeta. intros H. apply IH. lia.
Qed.

Lemma skipOrdered_partitioned (n : nat) (data : list A) (i : nat) :
  i + n <= length data -> partitioned p (take i data) ->
  partitioned p (take (skipOrdered (lessAt p) n data i) data).
Proof.
  revert i. induction n as [|n IH]; intros i Hn Hp; cbn [skipOrdered];
    [exact Hp|].
  destruct (lookup_lt_is_Some_2 data i ltac:(lia)) as [x Hx].
  rewrite (lessAt_false p data i (i - 1) x Hx).
  destruct (p x) eqn:Hpx; cbn [negb]; [exact Hp|].
  apply IH; [lia|]. rewrite (take_S_r data i x Hx).
  apply partitioned_snoc; assumption.
Qed.

(** Where no element of [a, b) satisfies [p], the scan finds the range in
    order and nothing moves. *)
Lemma skipOrdered_uniform (n : nat) (data : list A) (a b i : nat) :
  uniform p a b false data -> a <= i -> i + n <= b ->
  skipOrdered (lessAt p) n data i = i + n.
Proof.
  intros Hu. revert i. induction n as [|n IH]; intros i Ha Hn; cbn [skipOrdered];
    [lia|].
  assert (Hless : lessAt p data i (i - 1) = false).
  { unfold lessAt. destruct (data !! i) as [x|] eqn:Hx; [|reflexivity].
    apply (Hu i x); [lia | exact Hx]. }
  rewrite Hless. cbn [negb]. rewrite IH by lia. lia.
Qed.

Lemma partialInsertionLoop_uniform (steps : nat) (data : list A) (a b : nat) :
  a < b -> uniform p a b false data ->
  partialInsertionLoop (lessAt p) (S steps) data a b (a + 1) = (data, true).
Proof.
  intros Hab Hu. cbn [partialInsertionLoop].
  rewrite (skipOrdered_uniform (b - (a + 1)) data a b (a + 1) Hu) by lia.
  replace (a + 1 + (b - (a + 1))) with b by lia.
  rewrite Nat.eqb_refl. reflexivity.
Qed.

Lemma partialInsertionSort_uniform (data : list A) (a b : nat) :
  a < b -> uniform p a b false data ->
  partialInsertionSort_func (lessAt p) data a b = (data, true).
Proof. apply partialInsertionLoop_uniform. Qed.

(** When [partialInsertionSort_func] reports the whole slice as sorted, the
    elements that satisfy [p] are in front. *)
Lemma partialInsertionLoop_partitioned (steps : nat) (data : list A) (b i : nat)
    (data' : list A) :
  length data = b -> 1 <= i <= b -> partitioned p (take i data) ->
  partialInsertionLoop (lessAt p) steps data 0 b i = (data', true) ->
  partitioned p data'.
Proof.
  revert data i. induction steps as [|steps IH]; intros data i Hlen Hi Hp;
    cbn [partialInsertionLoop]; [discriminate|].
  pose proof (skipOrdered_bounds (lessAt p) (b - i) data i) as Hi'.
  pose proof (skipOrdered_stop (lessAt p) (b - i) data i) as Hstop.
  pose proof (skipOrdered_partitioned (b - i) data i ltac:(lia) Hp) as Hp'.
  cbv zeta in Hstop.
  set (i' := skipOrdered (lessAt p) (b - i) data i) in *.
  destruct (Nat.eqb_spec i' b) as [Heq|Hne].
  { intros H. injection H as <-. rewrite Heq, <- Hlen, firstn_all in Hp'.
    exact Hp'. }
  destruct (b - 0 <? 50); [discriminate|].
  apply lessAt_true in Hstop as (x & Hx & Hpx); [|lia].
  destruct (lookup_lt_is_Some_2 data (i' - 1) ltac:(lia)) as [y Hy].
  set (pre := take (i' - 1) data). set (post := drop (S i') data).
  assert (Hpre : length pre = i' - 1) by (unfold pre; rewrite length_take; lia).
  assert (Hdata : data = pre ++ y :: x :: post).
  { unfold pre, post. rewrite <- (take_drop_middle data (i' - 1) y Hy) at 1.
    f_equal. f_equal. replace (S (i' - 1)) with i' by lia.
    rewrite <- (take_drop_middle data i' x Hx) at 1.
    rewrite drop_app_length'; [reflexivity|]. rewrite length_take. lia. }
  assert (Hd1 : swap data i' (i' - 1) = pre ++ x :: y :: post).
  { rewrite Hdata at 1. replace i' with (S (length pre)) at 1 by lia.
    replace (i' - 1) with (length pre) by lia. apply swap_adjacent. }
  rewrite Hd1.
  set (d2 := if 2 <=? i' - 0 then shiftLeft (lessAt p) (i' - 1) (pre ++ x :: y :: post)
             else pre ++ x :: y :: post).
  assert (Hd2 : d2 = x :: pre ++ y :: post).
  { unfold d2. destruct (Nat.leb_spec 2 (i' - 0)) as [H2|H2].
    - rewrite <- Hpre. apply shiftLeft_front. exact Hpx.
    - destruct pre as [|z pre0]; [reflexivity|]. cbn [length] in Hpre. lia. }
  set (d3 := if 2 <=? b - i' then shiftRight (lessAt p) (b - (i' + 1)) (i' + 1) d2
             else d2).
  assert (Hd3 : swaps i' b d2 d3).
  { unfold d3. destruct (2 <=? b - i'); [|apply swaps_refl].
    apply shiftRight_swaps; lia. }
  apply IH.
  - rewrite (swaps_length _ _ _ _ Hd3), Hd2. cbn [length].
    rewrite length_app. cbn [length]. rewrite Hdata, length_app in Hlen.
    cbn [length] in Hlen. lia.
  - lia.
  - rewrite (swaps_take _ _ _ _ Hd3), Hd2.
    replace i' with (S (length pre)) by lia. cbn [take].
    rewrite take_app_length. apply partitioned_cons; [exact Hpx|].
    unfold pre.
    replace (take (i' - 1) data) with (take (i' - 1) (take i' data))
      by (rewrite take_take; f_equal; lia).
    apply partitioned_take. exact Hp'.
Qed.

Lemma partialInsertionSort_partitioned (data data' : list A) :
  partialInsertionSort_func (lessAt p) data 0 (length data) = (data', true) ->
  partitioned p data'.
Proof.
  unfold partialInsertionSort_func. change (0 + 1) with 1.
  generalize 5 at 1. intros steps H.
  destruct data as [|x data].
  - destruct steps; cbn [partialInsertionLoop] in H; [discriminate|].
    cbn in H. discriminate.
  - apply (partialInsertionLoop_partitioned steps (x :: data) (length (x :: data))
             1 data' eq_refl); [cbn [length]; lia | | exact H].
    change (take 1 (x :: data)) with [x]. intros i j x' y' Hij Hx' Hy'.
    apply lookup_lt_Some in Hy'. cbn [length] in Hy'. lia.
Qed.

End RunningFirstInsertion.

Section RunningFirstSort.
Context {A : Type}.
Variable p : A -> bool.
Variable Next : N -> N.
Local Open Scope nat_scope.

(** The inner loop carries an element that satisfies [p] to the front and
    leaves any other where it is. *)
Lemma insertionInner_front (pre post : list A) (x : A) :
  insertionInner (lessAt p) 0 (length pre) (pre ++ x :: post) =
  if p x then x :: pre ++ post else pre ++ x :: post.
Proof.
  revert post. induction pre as [|y pre IH] using rev_ind; intros post.
  - cbn. destruct (p x); reflexivity.
  - rewrite length_app. cbn [length]. rewrite Nat.add_1_r.
    cbn [insertionInner].
    replace ((0 <? S (length pre))%nat) with true by reflexivity.
    cbn [andb]. unfold lessAt at 1.
    replace ((pre ++ [y]) ++ x :: post) with (pre ++ y :: x :: post)
      by (rewrite <- app_assoc; reflexivity).
    replace ((pre ++ y :: x :: post) !! S (length pre)) with (Some x).
    2:{ replace (pre ++ y :: x :: post) with ((pre ++ [y]) ++ x :: post)
          by (rewrite <- app_assoc; reflexivity).
        symmetry. apply list_lookup_middle. rewrite length_app. simpl. lia. }
    destruct (p x) eqn:Hpx; [|reflexivity].
    rewrite swap_adjacent, IH. rewrite <- app_assoc. reflexivity.
Qed.

Lemma frontReversed_snoc (l : list A) (x : A) :
  frontReversed p (l ++ [x]) =
  if p x then x :: frontReversed p l else frontReversed p l ++ [x].
Proof.
  unfold frontReversed. rewrite !List.filter_app. cbn [List.filter].
  destruct (p x); cbn [negb].
  - rewrite rev_unit, app_nil_r. reflexivity.
  - rewrite app_nil_r, <- app_assoc. reflexivity.
Qed.

Lemma frontReversed_length (l : list A) : length (frontReversed p l) = length l.
Proof.
  induction l as [|x l IH] using rev_ind; [reflexivity|].
  rewrite frontReversed_snoc, length_app. cbn [length].
  destruct (p x); [cbn [length] | rewrite length_app; cbn [length]]; lia.
Qed.

Lemma insertionOuter_frontReversed (pre rest : list A) :
  insertionOuter (lessAt p) 0 (length rest) (length pre) (frontReversed p pre ++ rest) =
  frontReversed p (pre ++ rest).
Proof.
  revert pre. induction rest as [|x rest IH]; intros pre.
  - cbn. rewrite !app_nil_r. reflexivity.
  - cbn [length insertionOuter].
    rewrite <- (frontReversed_length pre) at 2.
    rewrite insertionInner_front.
    replace (S (length pre)) with (length (pre ++ [x]))
      by (rewrite length_app; simpl; lia).
    replace (if p x then x :: frontReversed p pre ++ rest
             else frontReversed p pre ++ x :: rest)
      with (frontReversed p (pre ++ [x]) ++ rest)
      by (rewrite frontReversed_snoc; destruct (p x);
          [reflexivity | rewrite <- app_assoc; reflexivity]).
    rewrite IH, <- app_assoc. reflexivity.
Qed.

Lemma insertionSort_frontReversed (data : list A) :
  insertionSort_func (lessAt p) data 0 (length data) = frontReversed p data.
Proof.
  unfold insertionSort_func. destruct data as [|x data]; [reflexivity|].
  cbn [length]. replace (S (length data) - (0 + 1))%nat with (length data) by lia.
  pose proof (insertionOuter_frontReversed [x] data) as Houter.
  assert (Hx : frontReversed p [x] = [x])
    by (unfold frontReversed; cbn; destruct (p x); reflexivity).
  rewrite Hx in Houter. exact Houter.
Qed.

(** A slice of at most 12 elements goes through [insertionSort_func] alone. *)
Lemma sortSlice_short (data : list A) :
  length data <= 12 -> sortSlice (lessAt p) Next data = frontReversed p data.
Proof.
  intros Hlen. unfold sortSlice. destruct data as [|x data]; [reflexivity|].
  cbn [length pdqsort_func]. cbn [length] in Hlen.
  destruct (Nat.leb_spec (S (length data) - 0) 12) as [_|Hgt]; [|lia].
  apply (insertionSort_frontReversed (x :: data)).
Qed.

Lemma swaps_keys (lo hi lo' hi' : nat) (v : bool) (data data' : list A) :
  swaps lo' hi' data data' -> lo <= lo' -> hi' <= hi ->
  uniform p lo hi v data -> p <$> data' = p <$> data.
Proof.
  intros Hs Hlo Hhi Hu. eapply swaps_uniform; [|exact Hu].
  eapply swaps_mono; [exact Hlo | exact Hhi | exact Hs].
Qed.

(** On a range whose elements agree on [p], and which has only such elements
    before it when they satisfy [p], [pdqsort_func] keeps the value of [p]
    at every position of the slice. *)
Lemma pdqsort_uniform (fuel : nat) (data : list A) (a b limit : nat)
    (wasBalanced wasPartitioned : bool) (lo : nat) (v : bool) :
  lo <= a -> a <= b -> (v = true -> lo = 0) -> uniform p lo b v data ->
  p <$> pdqsort_func (lessAt p) Next fuel data a b limit wasBalanced wasPartitioned
  = p <$> data.
Proof.
  revert data a b limit wasBalanced wasPartitioned.
  induction fuel as [|fuel IH]; intros data a b limit wb wp Hlo Hab Hv Hu;
    cbn [pdqsort_func].
  - reflexivity.
  - destruct (Nat.leb_spec (b - a) 12) as [Hshort|Hlong].
    { eapply swaps_keys; [apply insertionSort_swaps| | |exact Hu]; lia. }
    destruct (limit =? 0).
    { eapply swaps_keys; [apply heapSort_swaps; lia| | |exact Hu]; lia. }
    set (st1 := if negb wb then (breakPatterns_func Next data a b, limit - 1)
                else (data, limit)).
    assert (K1 : p <$> st1.1 = p <$> data).
    { unfold st1. destruct wb; cbn [negb fst]; [reflexivity|].
      eapply swaps_keys; [apply breakPatterns_swaps; lia| | |exact Hu]; lia. }
    destruct st1 as [d1 limit1]. cbn [fst] in K1.
    assert (U1 : uniform p lo b v d1) by (eapply uniform_keys; eassumption).
    pose proof (choosePivot_bounds (lessAt p) d1 a b ltac:(lia)) as Hp.
    destruct (choosePivot_func (lessAt p) d1 a b) as [pivot hint].
    cbn [fst] in Hp.
    set (st2 := if isDecreasing hint
                then (reverseRange_func d1 a b, b - 1 - (pivot - a), increasingHint)
                else (d1, pivot, hint)).
    assert (K2 : p <$> st2.1.1 = p <$> d1 /\ a <= st2.1.2 < b).
    { unfold st2. destruct (isDecreasing hint); cbn [fst snd].
      - split; [|lia].
        eapply swaps_keys; [apply reverseRange_swaps| | |exact U1]; lia.
      - split; [reflexivity | exact Hp]. }
    destruct st2 as [[d2 pivot2] hint2]. cbn [fst snd] in K2.
    destruct K2 as [K2 Hp2].
    assert (U2 : uniform p lo b v d2) by (eapply uniform_keys; eassumption).
    set (st3 := if wb && wp && isIncreasing hint2
                then partialInsertionSort_func (lessAt p) d2 a b else (d2, false)).
    assert (K3 : p <$> st3.1 = p <$> d2).
    { unfold st3. destruct (wb && wp && isIncreasing hint2); cbn [fst];
        [|reflexivity].
      destruct v.
      - rewrite (Hv eq_refl) in U2.
        eapply swaps_keys;
          [apply partialInsertionSort_swaps; lia| | |exact U2]; lia.
      - rewrite partialInsertionSort_uniform; [reflexivity | lia |].
        eapply uniform_mono; [| |exact U2]; lia. }
    destruct st3 as [d3 sorted]. cbn [fst] in K3.
    assert (U3 : uniform p lo b v d3) by (eapply uniform_keys; eassumption).
    assert (K03 : p <$> d3 = p <$> data) by congruence.
    destruct sorted; [exact K03|].
    destruct ((0 <? a) && negb (lessAt p d3 (a - 1) pivot2)).
    + pose proof (partitionEqual_swaps (lessAt p) a b pivot2 d3 Hp2) as [H4 Hmid].
      destruct (partitionEqual_func (lessAt p) d3 a b pivot2) as [d4 mid].
      cbn [fst snd] in H4, Hmid.
      assert (K4 : p <$> d4 = p <$> d3)
        by (eapply swaps_keys; [exact H4| | |exact U3]; lia).
      assert (U4 : uniform p lo b v d4) by (eapply uniform_keys; eassumption).
      rewrite (IH d4 mid b limit1 wb wp) by (assumption || lia). congruence.
    + pose proof (partition_swaps (lessAt p) a b pivot2 d3 Hp2) as [H4 Hmid].
      destruct (partition_func (lessAt p) d3 a b pivot2) as [[d4 mid] ap].
      cbn [fst snd] in H4, Hmid.
      assert (K4 : p <$> d4 = p <$> d3)
        by (eapply swaps_keys; [exact H4| | |exact U3]; lia).
      assert (U4 : uniform p lo b v d4) by (eapply uniform_keys; eassumption).
      destruct (mid - a <? b - mid).
      * set (d5 := pdqsort_func (lessAt p) Next fuel d4 a mid limit1 true true).
        assert (K5 : p <$> d5 = p <$> d4).
        { apply IH; [lia | lia | exact Hv |].
          eapply uniform_mono; [| |exact U4]; lia. }
        assert (U5 : uniform p lo b v d5) by (eapply uniform_keys; eassumption).
        rewrite IH by (assumption || lia). congruence.
      * set (d5 := pdqsort_func (lessAt p) Next fuel d4 (mid + 1) b limit1 true true).
        assert (K5 : p <$> d5 = p <$> d4) by (apply IH; assumption || lia).
        assert (U5 : uniform p lo b v d5) by (eapply uniform_keys; eassumption).
        rewrite IH; [congruence | lia | lia | exact Hv |].
        eapply uniform_mono; [| |exact U5]; lia.
Qed.

(** The first turn of [pdqsort_func] on a whole slice of more than 12
    elements: either the slice is reported as sorted, or it is partitioned
    around a pivot and the two parts are sorted on their own. *)
Lemma pdqsort_first (fuel : nat) (data : list A) (limit : nat) :
  12 < length data -> limit <> 0 ->
  partitioned p
    (pdqsort_func (lessAt p) Next (S fuel) data 0 (length data) limit true true).
Proof.
  intros Hlong Hlimit. cbn [pdqsort_func negb andb].
  destruct (Nat.leb_spec (length data - 0) 12) as [Hshort|_]; [lia|].
  destruct (Nat.eqb_spec limit 0) as [Hzero|_]; [contradiction|].
  pose proof (choosePivot_bounds (lessAt p) data 0 (length data) ltac:(lia)) as Hp.
  destruct (choosePivot_func (lessAt p) data 0 (length data)) as [pivot hint].
  cbn [fst] in Hp.
  set (st2 := if isDecreasing hint
              then (reverseRange_func data 0 (length data),
                    length data - 1 - (pivot - 0), increasingHint)
              else (data, pivot, hint)).
  assert (K2 : length st2.1.1 = length data /\ 0 <= st2.1.2 < length data).
  { unfold st2. destruct (isDecreasing hint); cbn [fst snd].
    - split; [|lia].
      apply (swaps_length 0 (length data)), reverseRange_swaps.
    - split; [reflexivity | exact Hp]. }
  destruct st2 as [[d2 pivot2] hint2]. cbn [fst snd] in K2.
  destruct K2 as [L2 Hp2].
  set (st3 := if isIncreasing hint2
              then partialInsertionSort_func (lessAt p) d2 0 (length data)
              else (d2, false)).
  assert (K3 : length st3.1 = length data /\
               (st3.2 = true -> partitioned p st3.1)).
  { unfold st3. destruct (isIncreasing hint2); cbn [fst snd].
    - split.
      + rewrite <- L2 at 2. apply (swaps_length 0 (length data)).
        apply partialInsertionSort_swaps. lia.
      + intros Hsorted. rewrite <- L2 in *.
        apply (partialInsertionSort_partitioned p d2).
        destruct (partialInsertionSort_func (lessAt p) d2 0 (length d2))
          as [d3 s3]. cbn [fst snd] in *. subst s3. reflexivity.
    - split; [exact L2 | discriminate]. }
  destruct st3 as [d3 sorted]. cbn [fst snd] in K3. destruct K3 as [L3 S3].
  destruct sorted; [apply S3; reflexivity|].
  replace (0 <? 0) with false by reflexivity. cbn [andb].
  pose proof (partition_uniform p d3 0 (length data) pivot2 Hp2 ltac:(lia))
    as (Hmid & L4 & Uleft & Uright).
  cbv zeta in Hmid, L4, Uleft, Uright.
  destruct (partition_func (lessAt p) d3 0 (length data) pivot2) as [[d4 mid] ap].
  cbn [fst snd] in Hmid, L4, Uleft, Uright.
  assert (P4 : partitioned p d4).
  { intros i j x y Hij Hx Hy Hpy.
    pose proof (lookup_lt_Some _ _ _ Hy) as Hj.
    destruct (le_lt_dec j mid) as [Hjm|Hjm].
    - apply (Uleft i x); [lia | exact Hx].
    - rewrite (Uright j y) in Hpy; [discriminate | lia | exact Hy]. }
  destruct (mid - 0 <? length data - mid).
  - set (d5 := pdqsort_func (lessAt p) Next fuel d4 0 mid limit true true).
    assert (K5 : p <$> d5 = p <$> d4).
    { apply (pdqsort_uniform fuel d4 0 mid limit true true 0 true);
        [lia | lia | reflexivity | exact Uleft]. }
    eapply partitioned_keys; [|exact P4]. rewrite <- K5.
    apply (pdqsort_uniform fuel d5 (mid + 1) (length data) limit _ _ (mid + 1) false);
      [lia | lia | discriminate |].
    eapply uniform_keys; [exact K5|].
    replace (mid + 1) with (S mid) by lia. exact Uright.
  - set (d5 := pdqsort_func (lessAt p) Next fuel d4 (mid + 1) (length data) limit
                 true true).
    assert (K5 : p <$> d5 = p <$> d4).
    { apply (pdqsort_uniform fuel d4 (mid + 1) (length data) limit true true
               (mid + 1) false); [lia | lia | discriminate |].
      replace (mid + 1) with (S mid) by lia. exact Uright. }
    eapply partitioned_keys; [|exact P4]. rewrite <- K5.
    apply (pdqsort_uniform fuel d5 0 mid limit _ _ 0 true);
      [lia | lia | reflexivity |].
    eapply uniform_keys; [exact K5 | exact Uleft].
Qed.

(** [sort.Slice] with the comparison of [GetStacks] puts the elements that
    satisfy [p] before all others, at every length of the slice. *)
Lemma sortSlice_partitioned (data : list A) :
  partitioned p (sortSlice (lessAt p) Next data).
Proof.
  destruct (le_lt_dec (length data) 12) as [Hshort|Hlong].
  - rewrite sortSlice_short by exact Hshort. apply frontReversed_partitioned.
  - unfold sortSlice.
    pose proof (pdqsort_first (length data - 1) data (Len (length data)) Hlong)
      as Hfirst.
    replace (S (length data - 1)) with (length data) in Hfirst by lia.
    apply Hfirst. unfold Len. destruct (length data); [lia | discriminate].
Qed.

Lemma filter_filter_neg (l : list A) :
  List.filter p (List.filter (fun x => negb (p x)) l) = [].
Proof.
  induction l as [|x l IH]; [reflexivity|].
  cbn [List.filter]. destruct (p x) eqn:Hpx; cbn [negb List.filter]; [exact IH|].
  rewrite Hpx. exact IH.
Qed.

Lemma filter_idem (q : A -> bool) (l : list A) :
  List.filter q (List.filter q l) = List.filter q l.
Proof.
  induction l as [|x l IH]; [reflexivity|].
  cbn [List.filter]. destruct (q x) eqn:Hqx; [|exact IH].
  cbn [List.filter]. rewrite Hqx, IH. reflexivity.
Qed.

Lemma filter_neg_filter (l : list A) :
  List.filter (fun x => negb (p x)) (List.filter p l) = [].
Proof.
  induction l as [|x l IH]; [reflexivity|].
  cbn [List.filter]. destruct (p x) eqn:Hpx; [|exact IH].
  cbn [List.filter]. rewrite Hpx. exact IH.
Qed.

Lemma filter_rev (q : A -> bool) (l : list A) :
  List.filter q (rev l) = rev (List.filter q l).
Proof.
  induction l as [|x l IH]; [reflexivity|].
  cbn [rev List.filter]. rewrite List.filter_app, IH. cbn [List.filter].
  destruct (q x); cbn [rev]; [reflexivity | apply app_nil_r].
Qed.

(** The result is a rearrangement of the input with the elements that
    satisfy [p] before all others. *)
Lemma sortSlice_partition (data : list A) :
  let out := sortSlice (lessAt p) Next data in
  Permutation data out /\
  out = List.filter p out ++ List.filter (fun x => negb (p x)) out.
Proof.
  cbv zeta. split; [apply sortSlice_Permutation|].
  apply partitioned_filter, sortSlice_partitioned.
Qed.

(** In a slice of at most 12 elements the elements that do not satisfy [p]
    keep their order, and those that do come out in the reverse order. *)
Lemma sortSlice_short_order (data : list A) :
  length data <= 12 ->
  let out := sortSlice (lessAt p) Next data in
  List.filter (fun x => negb (p x)) out = List.filter (fun x => negb (p x)) data /\
  List.filter p out = rev (List.filter p data).
Proof.
  intros Hlen. cbv zeta. rewrite sortSlice_short by exact Hlen.
  unfold frontReversed. split.
  - rewrite List.filter_app, filter_rev, filter_neg_filter, filter_idem.
    reflexivity.
  - rewrite List.filter_app, filter_filter_neg, app_nil_r, filter_rev, filter_idem.
    reflexivity.
Qed.

End RunningFirstSort.

(** *** [GetStacks]: the order of the summaries *)

Lemma stacksLoop_ok (env : Env) (stackMemoryDisk stackCpu : list MetricDataResult)
    (clusters : list Cluster) (acc out : list DashboardStack) (st st' : State) :
  stacksLoop env stackMemoryDisk stackCpu clusters acc st = (Ok out, st') ->
  out = acc ++ map (stackOf env stackMemoryDisk stackCpu) clusters.
Proof.
  revert acc st. induction clusters as [|cluster rest IH]; intros acc st Hrun.
  - cbn in Hrun. injection Hrun as <- _. rewrite app_nil_r. reflexivity.
  - cbn [stacksLoop] in Hrun. unfold bind, call in Hrun. cbn in Hrun.
    destruct (appGroupRepo_Fetch env (ID cluster)) as [[]|e]; cbn in Hrun;
      [|discriminate].
    apply IH in Hrun. rewrite Hrun, <- app_assoc. reflexivity.
Qed.

Lemma bind_ok {A B} (m : M A) (k : A -> M B) (st st' : State) (b : B) :
  bind m k st = (Ok b, st') ->
  exists a st1, m st = (Ok a, st1) /\ k a st1 = (Ok b, st').
Proof.
  unfold bind. destruct (m st) as [[a|e] st1]; [|discriminate].
  intros Hk. exists a, st1. split; [reflexivity | exact Hk].
Qed.

Lemma call_ok {A} (c : Call) (answer r : result A) (st st' : State) :
  call c answer st = (Ok r, st') -> r = answer.
Proof. unfold call. intros H. injection H as <- _. reflexivity. Qed.

Lemma orFail_ok {A} (r : result A) (a : A) (st st' : State) :
  orFail r st = (Ok a, st') -> r = Ok a.
Proof. destruct r; cbn; intros H; [injection H as <- _; reflexivity | discriminate]. Qed.

Lemma ret_ok {A} (a b : A) (st st' : State) : ret a st = (Ok b, st') -> a = b.
Proof. unfold ret. intros H. injection H as <- _. reflexivity. Qed.

(** What [GetStacks] returns when it succeeds: the summaries of the tenant's
    clusters, in the order of the clusters, through [sort.Slice]. *)
Lemma GetStacks_ok (env : Env) (now : Time) (organizationId : string)
    (st st' : State) (out : list DashboardStack) :
  GetStacks env now organizationId st = (Ok out, st') ->
  exists clusters stackMemoryDisk stackCpu,
    clusterRepo_FetchByOrganizationId env organizationId = Ok clusters /\
    out = sortSlice (runningFirst env) xorshift_Next
            (map (stackOf env stackMemoryDisk stackCpu) clusters).
Proof.
  unfold GetStacks. intros Hrun.
  apply bind_ok in Hrun as (r1 & s1 & Hr1 & Hrun). apply call_ok in Hr1.
  apply bind_ok in Hrun as (clusters & s2 & Hclusters & Hrun).
  apply orFail_ok in Hclusters.
  apply bind_ok in Hrun as (url & s3 & _ & Hrun).
  apply bind_ok in Hrun as (u & s4 & _ & Hrun).
  apply bind_ok in Hrun as (r2 & s5 & Hr2 & Hrun). apply call_ok in Hr2.
  apply bind_ok in Hrun as (stackMemoryDisk & s6 & _ & Hrun).
  apply bind_ok in Hrun as (r3 & s7 & Hr3 & Hrun). apply call_ok in Hr3.
  apply bind_ok in Hrun as (stackCpu & s8 & _ & Hrun).
  apply bind_ok in Hrun as (summaries & s9 & Hloop & Hrun).
  apply ret_ok in Hrun. apply stacksLoop_ok in Hloop. cbn [app] in Hloop.
  subst. exists clusters, stackMemoryDisk, stackCpu.
  split; [exact Hclusters|reflexivity].
Qed.

(** C2 (as stated, refuted): the sort is not stable, for either group.  For
    the clusters a, b and c with the statuses running, error and running,
    [GetStacks] returns c, a, b: the running ones are first, but no longer
    in their input order a, c.  For twelve clusters that are not running
    followed by a running one, it returns the running one first, and the
    others no longer in their input order: e07 comes before e03, and e02 is
    last. *)
Lemma GetStacks_not_stable :
  (map StackID (toDashboardStack (testEnv (Ok lbService)) <$> testClusters)
     = ["a"; "b"; "c"] /\
   map Status (toDashboardStack (testEnv (Ok lbService)) <$> testClusters)
     = ["RUNNING"; "ERROR"; "RUNNING"] /\
   exists out,
     fst (GetStacks (testEnv (Ok lbService)) testNow "T1" emptyState) = Ok out /\
     map StackID out = ["c"; "a"; "b"]) /\
  (map StackID (toDashboardStack thirteenEnv <$> thirteenClusters)
     = [ "e01"; "e02"; "e03"; "e04"; "e05"; "e06";
         "e07"; "e08"; "e09"; "e10"; "e11"; "e12"; "r13" ] /\
   map Status (toDashboardStack thirteenEnv <$> thirteenClusters)
     = replicate 12 "ERROR" ++ ["RUNNING"] /\
   exists out,
     fst (GetStacks thirteenEnv testNow "T1" emptyState) = Ok out /\
     map StackID out
     = [ "r13"; "e07"; "e03"; "e04"; "e05"; "e06";
         "e01"; "e08"; "e09"; "e10"; "e11"; "e12"; "e02" ]).
Proof.
  split.
  - split; [reflexivity|]. split; [reflexivity|].
    eexists. split; [vm_compute; reflexivity | reflexivity].
  - split; [reflexivity|]. split; [reflexivity|].
    eexists. split; [vm_compute; reflexivity | reflexivity].
Qed.

(** C2 (amended): when [GetStacks] succeeds, the list it returns is a
    rearrangement of the summaries of the tenant's clusters in which every
    entry whose status is the running one comes before every entry with
    another status, however many summaries there are.  Nothing is said of
    the order inside either group: [sort.Slice] is not stable. *)
Theorem stackSummaries_order (env : Env) (now : Time) (organizationId : string)
    (st st' : State) (out : list DashboardStack) :
  GetStacks env now organizationId st = (Ok out, st') ->
  exists clusters stackMemoryDisk stackCpu,
    let summaries := map (stackOf env stackMemoryDisk stackCpu) clusters in
    let running := isRunning (StackStatus_RUNNING env) in
    clusterRepo_FetchByOrganizationId env organizationId = Ok clusters /\
    Permutation summaries out /\
    out = List.filter running out ++ List.filter (fun s => negb (running s)) out.
Proof.
  intros Hrun.
  destruct (GetStacks_ok env now organizationId st st' out Hrun)
    as (clusters & stackMemoryDisk & stackCpu & Hclusters & Hout).
  exists clusters, stackMemoryDisk, stackCpu. cbv zeta.
  change (runningFirst env)
    with (lessAt (isRunning (StackStatus_RUNNING env))) in Hout.
  pose proof (sortSlice_partition (isRunning (StackStatus_RUNNING env))
                xorshift_Next
                (map (stackOf env stackMemoryDisk stackCpu) clusters))
    as (Hperm & Hfront).
  rewrite <- Hout in Hperm, Hfront.
  split; [exact Hclusters|]. split; [exact Hperm | exact Hfront].
Qed.

(** For the statuses running, error, running both running summaries come
    before the other one. *)
Lemma stackSummaries_order_witness :
  exists out clusters stackMemoryDisk stackCpu,
    let env := testEnv (Ok lbService) in
    let summaries := map (stackOf env stackMemoryDisk stackCpu) clusters in
    let running := isRunning (StackStatus_RUNNING env) in
    map Status out = ["RUNNING"; "RUNNING"; "ERROR"] /\
    clusterRepo_FetchByOrganizationId env "T1" = Ok clusters /\
    Permutation summaries out /\
    out = List.filter running out ++ List.filter (fun s => negb (running s)) out.
Proof.
  destruct (GetStacks (testEnv (Ok lbService)) testNow "T1" emptyState)
    as [[out|e] st'] eqn:Hrun; [|vm_compute in Hrun; discriminate].
  assert (Hstatus : map Status out = ["RUNNING"; "RUNNING"; "ERROR"]).
  { vm_compute in Hrun. injection Hrun as <- _. reflexivity. }
  destruct (stackSummaries_order (testEnv (Ok lbService)) testNow "T1" emptyState
              st' out Hrun)
    as (clusters & stackMemoryDisk & stackCpu & Hrest).
  exists out, clusters, stackMemoryDisk, stackCpu. cbv zeta in *.
  split; [exact Hstatus | exact Hrest].
Defined.

(** With at most 12 summaries the entries that are not running keep the
    order of their clusters, and the running ones come out in the reverse
    order. *)
Lemma GetStacks_short_order (env : Env) (now : Time) (organizationId : string)
    (st st' : State) (out : list DashboardStack) :
  GetStacks env now organizationId st = (Ok out, st') ->
  (length out <= 12)%nat ->
  exists clusters stackMemoryDisk stackCpu,
    let summaries := map (stackOf env stackMemoryDisk stackCpu) clusters in
    let running := isRunning (StackStatus_RUNNING env) in
    clusterRepo_FetchByOrganizationId env organizationId = Ok clusters /\
    List.filter (fun s => negb (running s)) out =
      List.filter (fun s => negb (running s)) summaries /\
    List.filter running out = rev (List.filter running summaries).
Proof.
  intros Hrun Hlen.
  destruct (GetStacks_ok env now organizationId st st' out Hrun)
    as (clusters & stackMemoryDisk & stackCpu & Hclusters & Hout).
  exists clusters, stackMemoryDisk, stackCpu. cbv zeta.
  change (runningFirst env)
    with (lessAt (isRunning (StackStatus_RUNNING env))) in Hout.
  assert (Hlen' : (length (map (stackOf env stackMemoryDisk stackCpu) clusters)
                   <= 12)%nat).
  { rewrite Hout, sortSlice_length in Hlen. exact Hlen. }
  pose proof (sortSlice_short_order (isRunning (StackStatus_RUNNING env))
                xorshift_Next
                (map (stackOf env stackMemoryDisk stackCpu) clusters) Hlen')
    as (Hrest & Hfront).
  rewrite <- Hout in Hrest, Hfront.
  split; [exact Hclusters|]. split; [exact Hrest | exact Hfront].
Qed.

(** *** The shape of the utilisation fields *)

Lemma digitChar_isDigit (d : N) : (d < 10)%N -> isDigit (digitChar d) = true.
Proof.
  intros Hd. unfold isDigit, digitChar.
  rewrite N_ascii_embedding by lia.
  apply andb_true_intro. split; apply N.leb_le; lia.
Qed.

Lemma digitChar_not_point (d : N) : (d < 10)%N -> Ascii.eqb (digitChar d) "." = false.
Proof.
  intros Hd. apply Ascii.eqb_neq. intros Heq.
  apply (f_equal N_of_ascii) in Heq. unfold digitChar in Heq.
  rewrite N_ascii_embedding in Heq by lia. cbn in Heq. lia.
Qed.

Lemma digitString_app (s1 s2 : string) :
  digitString s1 -> digitString s2 -> digitString (s1 +:+ s2).
Proof.
  induction 1 as [|d s Hd Hs IH]; intros Hs2; [exact Hs2|].
  cbn. constructor; [exact Hd | apply IH; exact Hs2].
Qed.

Lemma utoa_aux_digits (fuel : nat) (n : N) (acc : string) :
  exists ds, utoa_aux (S fuel) n acc = ds +:+ acc /\ digitString ds /\ ds <> "".
Proof.
  revert n acc. induction fuel as [|fuel IH]; intros n acc.
  - exists (String (digitChar (n mod 10)) EmptyString). cbn [utoa_aux].
    assert (Hd : (n mod 10 < 10)%N) by (apply N.mod_lt; lia).
    destruct (n / 10 =? 0)%N;
      (split; [reflexivity | split; [repeat constructor; exact Hd | discriminate]]).
  - assert (Hd : (n mod 10 < 10)%N) by (apply N.mod_lt; lia).
    change (utoa_aux (S (S fuel)) n acc)
      with (if (n / 10 =? 0)%N then String (digitChar (n mod 10)) acc
            else utoa_aux (S fuel) (n / 10)%N (String (digitChar (n mod 10)) acc)).
    destruct (n / 10 =? 0)%N.
    + exists (String (digitChar (n mod 10)) EmptyString).
      split; [reflexivity | split; [repeat constructor; exact Hd | discriminate]].
    + destruct (IH (n / 10)%N (String (digitChar (n mod 10)) acc))
        as (ds & Heq & Hds & Hne).
      exists (ds +:+ String (digitChar (n mod 10)) EmptyString).
      split; [|split].
      * rewrite Heq, append_assoc. reflexivity.
      * apply digitString_app; [exact Hds | repeat constructor; exact Hd].
      * destruct ds; [congruence | discriminate].
Qed.

Lemma utoa_digits (n : N) : digitString (utoa n) /\ utoa n <> "".
Proof.
  unfold utoa. destruct (utoa_aux_digits (N.to_nat (N.log2 n)) n "")
    as (ds & Heq & Hds & Hne).
  rewrite Heq, append_nil_r. split; assumption.
Qed.

Lemma lastDigits_two (n : N) :
  exists d1 d2, (d1 < 10)%N /\ (d2 < 10)%N /\
    lastDigits 2 n =
    String (digitChar d1) (String (digitChar d2) EmptyString).
Proof.
  exists ((n / 10) mod 10)%N, (n mod 10)%N.
  split; [apply N.mod_lt; lia|]. split; [apply N.mod_lt; lia|]. reflexivity.
Qed.

Lemma isUnsignedTwoDecimal_digits (ds : string) (d1 d2 : N) (seen : bool) :
  digitString ds -> (seen = true \/ ds <> "") -> (d1 < 10)%N -> (d2 < 10)%N ->
  isUnsignedTwoDecimal seen
    (ds +:+ String "." (String (digitChar d1) (String (digitChar d2) EmptyString)))
  = true.
Proof.
  intros Hds. revert seen. induction Hds as [|d s Hd Hs IH]; intros seen Hseen H1 H2.
  - destruct Hseen as [->|Hne]; [|congruence].
    change (isDigit (digitChar d1) && isDigit (digitChar d2) = true).
    rewrite !digitChar_isDigit by assumption. reflexivity.
  - rewrite append_cons. cbn [isUnsignedTwoDecimal].
    rewrite digitChar_not_point, digitChar_isDigit by assumption.
    cbn [andb]. apply IH; [left; reflexivity | assumption | assumption].
Qed.

(** A finite value printed with two decimals is a number with two decimals. *)
Lemma fmtFloat2_finite (neg : bool) (m : Q) :
  isTwoDecimal (fmtFloat 2 (FFin neg m)) = true.
Proof.
  cbn [fmtFloat].
  set (n := Z.to_N (roundHalfEven (m * inject_Z (Z.of_N (10 ^ N.of_nat 2))))).
  destruct (utoa_digits (n / 10 ^ N.of_nat 2)%N) as [Hds Hne].
  destruct (lastDigits_two (n mod 10 ^ N.of_nat 2)%N) as (d1 & d2 & H1 & H2 & Hlast).
  rewrite Hlast.
  assert (Hbody : isUnsignedTwoDecimal false
            (utoa (n / 10 ^ N.of_nat 2)%N +:+
             String "." (String (digitChar d1) (String (digitChar d2) EmptyString)))
          = true)
    by (apply isUnsignedTwoDecimal_digits; [exact Hds | right; exact Hne | | ];
        assumption).
  destruct neg.
  - exact Hbody.
  - cbn [String.append]. unfold isTwoDecimal.
    destruct Hds as [|d s Hd Hs]; [congruence|].
    cbn [String.append] in *.
    assert (Hminus : digitChar d <> "-"%char).
    { intros Heq. apply (f_equal N_of_ascii) in Heq. unfold digitChar in Heq.
      rewrite N_ascii_embedding in Heq by lia. cbn in Heq. lia. }
    destruct (digitChar d) as [[] [] [] [] [] [] [] []]; try exact Hbody.
    congruence.
Qed.

(** *** Rounding to binary32 stays close to the exact value *)

Lemma Qpow2_power (e : Z) : (Qpow2 e == 2 ^ e)%Q.
Proof.
  unfold Qpow2. destruct (Z.leb_spec 0 e) as [He|He].
  - change ((2 ^ e)%Z # 1) with (inject_Z (2 ^ e)).
    rewrite Zpower_Qpower by exact He. reflexivity.
  - replace e with (- (- e))%Z at 2 by lia.
    rewrite Qpower_opp. change 2%Q with (inject_Z 2).
    rewrite <- (Zpower_Qpower 2 (- e)) by lia.
    assert (Hpos : (0 < 2 ^ (- e))%Z) by (apply Z.pow_pos_nonneg; lia).
    destruct (2 ^ (- e))%Z as [|p|p]; try lia. reflexivity.
Qed.

Lemma Qpow2_pos (e : Z) : (0 < Qpow2 e)%Q.
Proof. rewrite Qpow2_power. apply Qpower_0_lt. reflexivity. Qed.

Lemma Qpow2_add (a b : Z) : (Qpow2 (a + b) == Qpow2 a * Qpow2 b)%Q.
Proof. rewrite !Qpow2_power. apply Qpower_plus. discriminate. Qed.

Lemma Qpow2_le (a b : Z) : (a <= b)%Z -> (Qpow2 a <= Qpow2 b)%Q.
Proof.
  intros Hab. rewrite !Qpow2_power. apply Qpower_le_compat_l; [exact Hab|].
  discriminate.
Qed.

Lemma Qpow2_inv (e : Z) : (Qpow2 (- e) * Qpow2 e == 1)%Q.
Proof. rewrite <- Qpow2_add. replace (- e + e)%Z with 0%Z by lia. reflexivity. Qed.

(** [floorLog2] is not above the logarithm. *)
Lemma floorLog2_lower (q : Q) : (0 < q)%Q -> (Qpow2 (floorLog2 q) <= q)%Q.
Proof.
  destruct q as [a b]. unfold Qlt, Qle, floorLog2, Qpow2. cbn [Qnum Qden].
  rewrite Z.mul_1_r. intros Ha.
  assert (Hb : (0 < Zpos b)%Z) by lia.
  destruct (Z.log2_spec a Ha) as [Hal Hau].
  destruct (Z.log2_spec (Zpos b) Hb) as [Hbl Hbu].
  set (la := Z.log2 a) in *. set (lb := Z.log2 (Zpos b)) in *.
  assert (Hla : (0 <= la)%Z) by apply Z.log2_nonneg.
  assert (Hlb : (0 <= lb)%Z) by apply Z.log2_nonneg.
  rewrite <- Z.add_1_r in Hau, Hbu.
  destruct (Z.leb_spec 0 (la - lb)) as [Hd|Hd].
  - destruct (Z.leb_spec (Zpos b * 2 ^ (la - lb)) a) as [Ht|Ht].
    + rewrite (proj2 (Z.leb_le 0 (la - lb)) Hd). cbn [Qnum Qden]. lia.
    + assert (Hpow : (2 ^ la = 2 ^ (la - lb) * 2 ^ lb)%Z)
        by (rewrite <- Z.pow_add_r by lia; f_equal; lia).
      destruct (Z.leb_spec 0 (la - lb - 1)) as [Hd1|Hd1]; cbn [Qnum Qden].
      * assert (Hp2 : (2 ^ (la - lb) = 2 * 2 ^ (la - lb - 1))%Z)
          by (rewrite <- Z.pow_succ_r by lia; f_equal; lia).
        rewrite Z.pow_add_r in Hbu by lia. nia.
      * assert (la - lb = 0)%Z by lia.
        replace (- (la - lb - 1))%Z with 1%Z by lia.
        replace (la - lb)%Z with 0%Z in * by lia. cbn.
        rewrite Z.pow_add_r in Hbu by lia. nia.
  - destruct (Z.leb_spec (Zpos b) (a * 2 ^ (- (la - lb)))) as [Ht|Ht].
    + destruct (Z.leb_spec 0 (la - lb)); [lia|]. cbn [Qnum Qden].
      assert (Hpos : (0 < 2 ^ (- (la - lb)))%Z) by (apply Z.pow_pos_nonneg; lia).
      rewrite Z2Pos.id by exact Hpos. lia.
    + destruct (Z.leb_spec 0 (la - lb - 1)); [lia|]. cbn [Qnum Qden].
      assert (Hpos : (0 < 2 ^ (- (la - lb - 1)))%Z) by (apply Z.pow_pos_nonneg; lia).
      rewrite Z2Pos.id by exact Hpos.
      assert (Hp2 : (2 ^ (lb + 1) = 2 ^ la * 2 ^ (- (la - lb - 1)))%Z)
        by (rewrite <- Z.pow_add_r by lia; f_equal; lia).
      nia.
Qed.

Lemma roundHalfEven_near (q : Q) :
  (inject_Z (roundHalfEven q) <= q + (1 # 2))%Q /\
  (q - (1 # 2) <= inject_Z (roundHalfEven q))%Q.
Proof.
  destruct q as [a b]. unfold roundHalfEven, Qle, Qminus, Qplus, Qopp, inject_Z.
  cbn [Qnum Qden].
  pose proof (Z.div_mod a (Zpos b) ltac:(lia)) as Hdiv.
  pose proof (Z.mod_pos_bound a (Zpos b) ltac:(lia)) as Hmod.
  set (fl := (a / Zpos b)%Z) in *. set (r := (a mod Zpos b)%Z) in *.
  destruct (Z.compare_spec (2 * r) (Zpos b)) as [Hc|Hc|Hc];
    [destruct (Z.even fl)| |]; cbn [Qnum Qden]; rewrite ?Pos2Z.inj_mul;
    split; nia.
Qed.

Lemma roundHalfEven_nonneg (q : Q) : (0 <= q)%Q -> (0 <= roundHalfEven q)%Z.
Proof.
  destruct q as [a b]. unfold roundHalfEven, Qle. cbn [Qnum Qden]. intros Ha.
  assert (0 <= a / Zpos b)%Z by (apply Z.div_pos; lia).
  destruct (2 * (a mod Zpos b) ?= Zpos b)%Z; [destruct (Z.even _)| |]; lia.
Qed.

(** A rounded magnitude is within a relative 2^-24 (and an absolute 2^-24)
    of the exact one. *)
Lemma roundMag32_near (q : Q) :
  (0 <= q)%Q ->
  (0 <= roundMag binary32 q)%Q /\
  (q - (q + 1) * ulp24 <= roundMag binary32 q)%Q /\
  (roundMag binary32 q <= q + (q + 1) * ulp24)%Q.
Proof.
  intros Hq. unfold roundMag, ulp24.
  destruct (Z.eqb_spec (Qnum q) 0) as [Hz|Hz].
  - assert (Hq0 : (q == 0)%Q) by (unfold Qeq; cbn; lia).
    rewrite Hq0. split; [|split]; discriminate.
  - assert (Hpos : (0 < q)%Q).
    { unfold Qlt, Qle in *. cbn in *. lia. }
    cbn [prec eminUlp binary32]. rewrite Qred_correct.
    set (e := floorLog2 q).
    set (ex := Z.max (e - (24 - 1)) (-149)).
    pose proof (roundHalfEven_near (q * Qpow2 (- ex))) as [Hup Hlow].
    assert (Hnn : (0 <= roundHalfEven (q * Qpow2 (- ex)))%Z).
    { apply roundHalfEven_nonneg. apply Qmult_le_0_compat; [exact Hq|].
      apply Qlt_le_weak, Qpow2_pos. }
    set (n := inject_Z (roundHalfEven (q * Qpow2 (- ex)))) in *.
    assert (Hn0 : (0 <= n)%Q).
    { unfold n. change 0%Q with (inject_Z 0). rewrite <- Zle_Qle. exact Hnn. }
    pose proof (Qpow2_pos ex) as Hs.
    pose proof (Qpow2_inv ex) as Hinv.
    assert (Hsb : (Qpow2 ex <= (q + 1) * (1 # 8388608))%Q).
    { unfold ex. destruct (Z.max_spec (e - (24 - 1)) (-149)) as [[_ ->]|[_ ->]].
      - apply Qle_trans with (Qpow2 (-23)); [apply Qpow2_le; lia|].
        change (Qpow2 (-23)) with (1 # 8388608). lra.
      - replace (e - (24 - 1))%Z with (e + -23)%Z by lia.
        rewrite Qpow2_add. change (Qpow2 (-23)) with (1 # 8388608).
        pose proof (floorLog2_lower q Hpos) as Hlog. fold e in Hlog.
        apply Qle_trans with (q * (1 # 8388608))%Q; [|lra].
        apply Qmult_le_compat_r; [exact Hlog | discriminate]. }
    assert (Hup' : (n * Qpow2 ex <= q + Qpow2 ex * (1 # 2))%Q).
    { apply Qle_trans with ((q * Qpow2 (- ex) + (1 # 2)) * Qpow2 ex)%Q.
      - apply Qmult_le_compat_r; [exact Hup | apply Qlt_le_weak, Hs].
      - rewrite Qmult_plus_distr_l, <- Qmult_assoc, Hinv. lra. }
    assert (Hlow' : (q - Qpow2 ex * (1 # 2) <= n * Qpow2 ex)%Q).
    { apply Qle_trans with ((q * Qpow2 (- ex) - (1 # 2)) * Qpow2 ex)%Q.
      - unfold Qminus. rewrite Qmult_plus_distr_l, <- Qmult_assoc, Hinv. lra.
      - apply Qmult_le_compat_r; [exact Hlow | apply Qlt_le_weak, Hs]. }
    assert (Hr0 : (0 <= n * Qpow2 ex)%Q)
      by (apply Qmult_le_0_compat; [exact Hn0 | apply Qlt_le_weak, Hs]).
    set (r := (n * Qpow2 ex)%Q) in *. set (s := Qpow2 ex) in *.
    split; [exact Hr0|]. split; lra.
Qed.

Lemma roundTo32_finite (neg : bool) (q B : Q) :
  (0 <= q)%Q -> (q <= B)%Q -> (2 * B + 1 < maxFloat32Bound)%Q ->
  finiteBelow (2 * B + 1) (roundTo binary32 neg q).
Proof.
  intros Hq HB Hmax. unfold roundTo.
  destruct (roundMag32_near q Hq) as (Hr0 & _ & Hup). unfold ulp24 in Hup.
  set (r := roundMag binary32 q) in *.
  assert (Hr : (r <= 2 * B + 1)%Q) by lra.
  destruct (Qle_bool (Qpow2 (emaxPow binary32)) r) eqn:Hover.
  - apply Qle_bool_iff in Hover. change (Qpow2 (emaxPow binary32)) with maxFloat32Bound in Hover.
    lra.
  - cbn. split; assumption.
Qed.

Lemma roundTo32_lower (neg : bool) (q B : Q) :
  (1 <= q)%Q -> (q <= B)%Q -> (2 * B + 1 < maxFloat32Bound)%Q ->
  exists m, roundTo binary32 neg q = FFin neg m /\ ((1 # 2) <= m)%Q /\ (m <= 2 * B + 1)%Q.
Proof.
  intros Hq HB Hmax.
  pose proof (roundTo32_finite neg q B ltac:(lra) HB Hmax) as Hfin.
  unfold roundTo in *.
  destruct (roundMag32_near q ltac:(lra)) as (Hr0 & Hlow & _). unfold ulp24 in Hlow.
  destruct (Qle_bool (Qpow2 (emaxPow binary32)) (roundMag binary32 q));
    [destruct Hfin|].
  exists (roundMag binary32 q). cbn in Hfin. split; [reflexivity|].
  split; [lra | tauto].
Qed.

Lemma below_max (B : Q) :
  Qle_bool (2 * B + 1) (Qpow2 127) = true -> (2 * B + 1 < maxFloat32Bound)%Q.
Proof.
  intros H. apply Qle_bool_iff in H.
  apply Qle_lt_trans with (Qpow2 127); [exact H | reflexivity].
Qed.

Lemma floatOfInt32_finite (z : Z) :
  (minInt64 <= z <= maxInt64)%Z ->
  finiteBelow (2 * int64Bound + 1) (floatOfInt binary32 z).
Proof.
  intros Hz. unfold floatOfInt. apply roundTo32_finite.
  - change 0%Q with (inject_Z 0). rewrite <- Zle_Qle. lia.
  - unfold int64Bound. rewrite <- Zle_Qle. unfold minInt64, maxInt64 in Hz. lia.
  - apply below_max. reflexivity.
Qed.

Lemma floatOfInt32_lower (z : Z) :
  (1 <= z <= maxInt64)%Z ->
  exists m, floatOfInt binary32 z = FFin false m /\
    ((1 # 2) <= m)%Q /\ (m <= 2 * int64Bound + 1)%Q.
Proof.
  intros Hz. unfold floatOfInt.
  replace (z <? 0)%Z with false by (symmetry; apply Z.ltb_ge; lia).
  apply roundTo32_lower.
  - change 1%Q with (inject_Z 1). rewrite <- Zle_Qle. lia.
  - unfold int64Bound. rewrite <- Zle_Qle. unfold maxInt64 in Hz. lia.
  - apply below_max. reflexivity.
Qed.

Lemma fdiv32_finite (x y : float) (A : Q) (t : bool) (n : Q) :
  finiteBelow A x -> y = FFin t n -> ((1 # 2) <= n)%Q ->
  Qle_bool (2 * (2 * A) + 1) (Qpow2 127) = true ->
  finiteBelow (2 * (2 * A) + 1) (fdiv binary32 x y).
Proof.
  intros Hx -> Hn Hmax. destruct x as [s m| |]; [|destruct Hx..].
  cbn in Hx. destruct Hx as [Hm0 HmA]. cbn [fdiv].
  assert (Hnz : isZeroMag n = false).
  { unfold isZeroMag. apply Z.eqb_neq. intros Hz.
    unfold Qle in Hn. cbn in Hn. lia. }
  rewrite Hnz.
  assert (Hinv : (0 < / n)%Q) by (apply Qinv_lt_0_compat; lra).
  assert (Hinv2 : (/ n <= 2)%Q).
  { apply Qle_shift_inv_r; lra. }
  apply roundTo32_finite.
  - unfold Qdiv. apply Qmult_le_0_compat; lra.
  - unfold Qdiv. apply Qle_trans with (m * 2)%Q.
    + rewrite !(Qmult_comm m). apply Qmult_le_compat_r; assumption.
    + lra.
  - apply below_max. exact Hmax.
Qed.

Lemma fsub32_one_finite (x : float) (B : Q) :
  finiteBelow B x ->
  Qle_bool (2 * (1 + B) + 1) (Qpow2 127) = true ->
  finiteBelow (2 * (1 + B) + 1) (fsub binary32 (FFin false 1) x).
Proof.
  intros Hx Hmax. destruct x as [s m| |]; [|destruct Hx..].
  cbn in Hx. destruct Hx as [Hm0 HmB]. unfold fsub. cbn [fneg fadd].
  set (v := (signedQ false 1 + signedQ (negb s) m)%Q).
  assert (Hv : (Qabs v <= 1 + B)%Q).
  { apply Qabs_Qle_condition. unfold v. destruct s; cbn [negb signedQ]; split; lra. }
  destruct (Qnum v =? 0)%Z.
  - cbn. split; lra.
  - apply roundTo32_finite; [apply Qabs_nonneg | exact Hv | apply below_max, Hmax].
Qed.

Lemma fmul32_hundred_finite (x : float) (B : Q) :
  finiteBelow B x ->
  Qle_bool (2 * (B * 100) + 1) (Qpow2 127) = true ->
  finiteBelow (2 * (B * 100) + 1) (fmul binary32 x (FFin false 100)).
Proof.
  intros Hx Hmax. destruct x as [s m| |]; [|destruct Hx..].
  cbn in Hx. destruct Hx as [Hm0 HmB]. cbn [fmul].
  apply roundTo32_finite; [lra | lra | apply below_max, Hmax].
Qed.

Lemma finiteBelow_isFinite (B : Q) (x : float) :
  finiteBelow B x -> exists neg m, x = FFin neg m.
Proof. destruct x as [neg m| |]; [eauto | intros [] ..]. Qed.

(** The percentages of [getStackMemoryDisk] never leave the finite range:
    what comes from [Atoi] fits an [int]. *)
Lemma memoryPercent_twoDecimal (free total : Z) :
  (minInt64 <= free <= maxInt64)%Z -> (0 < total <= maxInt64)%Z ->
  isTwoDecimal (memoryPercent free total) = true.
Proof.
  intros Hfree Htotal. unfold memoryPercent.
  replace (0 <? total)%Z with true by (symmetry; apply Z.ltb_lt; lia).
  pose proof (floatOfInt32_finite free Hfree) as Ha.
  destruct (floatOfInt32_lower total ltac:(lia)) as (n & Hb & Hn & _).
  pose proof (fdiv32_finite _ _ _ false n Ha Hb Hn eq_refl) as Hdiv.
  pose proof (fsub32_one_finite _ _ Hdiv eq_refl) as Hsub.
  pose proof (fmul32_hundred_finite _ _ Hsub eq_refl) as Hmul.
  destruct (finiteBelow_isFinite _ _ Hmul) as (neg & m & ->).
  apply fmtFloat2_finite.
Qed.

Lemma diskPercent_twoDecimal (used capacity : Z) :
  (minInt64 <= used <= maxInt64)%Z -> (0 < capacity <= maxInt64)%Z ->
  isTwoDecimal (diskPercent used capacity) = true.
Proof.
  intros Hused Hcap. unfold diskPercent.
  replace (0 <? capacity)%Z with true by (symmetry; apply Z.ltb_lt; lia).
  pose proof (floatOfInt32_finite used Hused) as Ha.
  destruct (floatOfInt32_lower capacity ltac:(lia)) as (n & Hb & Hn & _).
  pose proof (fdiv32_finite _ _ _ false n Ha Hb Hn eq_refl) as Hdiv.
  pose proof (fmul32_hundred_finite _ _ Hdiv eq_refl) as Hmul.
  destruct (finiteBelow_isFinite _ _ Hmul) as (neg & m & ->).
  apply fmtFloat2_finite.
Qed.

Lemma withPercent_twoDecimal (v : string) :
  isTwoDecimal v = true -> percentField (withPercent v).
Proof.
  intros Hv. right. exists v. split; [exact Hv|].
  unfold withPercent. destruct v; [discriminate | reflexivity].
Qed.

Lemma lastValue_range (result : list MetricDataResult) (clusterId name : string) :
  (minInt64 <= lastValue result clusterId name <= maxInt64)%Z.
Proof.
  unfold lastValue. destruct (find _ _); [apply Atoi_range|].
  unfold minInt64, maxInt64. lia.
Qed.

(** *** [getStackMemoryDisk]: the percentages *)


(** The arithmetic is that of binary32 and shows in the last digit: 123449999
    of 1000000000 is 12.3449999 percent, and prints as 12.35. *)
Example diskPercent_binary32 : diskPercent 123449999 1000000000 = "12.35".
Proof. vm_compute. reflexivity. Qed.

(** *** The fields of a summary *)

Lemma stackOf_memory_storage (env : Env)
    (stackMemoryDisk stackCpu : list MetricDataResult) (cluster : Cluster) :
  percentField (Memory (stackOf env stackMemoryDisk stackCpu cluster)) /\
  percentField (Storage (stackOf env stackMemoryDisk stackCpu cluster)).
Proof.
  unfold stackOf. rewrite getStackMemoryDisk_lastValue. cbn [Memory Storage].
  set (free := lastValue _ _ "node_memory_MemFree_bytes").
  set (total := lastValue _ _ "machine_memory_bytes").
  set (used := lastValue _ _ "kubelet_volume_stats_used_bytes").
  set (capacity := lastValue _ _ "kubelet_volume_stats_capacity_bytes").
  pose proof (lastValue_range stackMemoryDisk (ID cluster) "node_memory_MemFree_bytes").
  pose proof (lastValue_range stackMemoryDisk (ID cluster) "machine_memory_bytes").
  pose proof (lastValue_range stackMemoryDisk (ID cluster)
                "kubelet_volume_stats_used_bytes").
  pose proof (lastValue_range stackMemoryDisk (ID cluster)
                "kubelet_volume_stats_capacity_bytes").
  split.
  - destruct (Z.ltb_spec 0 total) as [Ht|Ht].
    + apply withPercent_twoDecimal, memoryPercent_twoDecimal; [assumption | lia].
    + left. unfold memoryPercent.
      replace (0 <? total)%Z with false by (symmetry; apply Z.ltb_ge; lia).
      reflexivity.
  - destruct (Z.ltb_spec 0 capacity) as [Hc|Hc].
    + apply withPercent_twoDecimal, diskPercent_twoDecimal; [assumption | lia].
    + left. unfold diskPercent.
      replace (0 <? capacity)%Z with false by (symmetry; apply Z.ltb_ge; lia).
      reflexivity.
Qed.

Lemma stackOf_cpu (env : Env)
    (stackMemoryDisk stackCpu : list MetricDataResult) (cluster : Cluster) :
  let cpu := Cpu (stackOf env stackMemoryDisk stackCpu cluster) in
  cpu = "" \/
  exists val x,
    In val stackCpu /\ ParseFloat32 env (Value val) = (x, None) /\
    cpu = fmtFloat 2 x +:+ " %" /\
    (isFinite x = true -> percentField cpu).
Proof.
  unfold stackOf. destruct (getStackMemoryDisk _ _) as [memory disk].
  cbn [Cpu]. rewrite getStackCpu_find.
  destruct (find _ stackCpu) as [val|] eqn:Hfind; [|left; reflexivity].
  apply find_some in Hfind as [Hin _]. unfold cpuCell.
  destruct (ParseFloat32 env (Value val)) as [x [e|]] eqn:Hparse;
    [left; reflexivity|].
  right. exists val, x. split; [exact Hin|]. split; [exact Hparse|].
  assert (Hcell : withPercent (fmtFloat 2 x) = fmtFloat 2 x +:+ " %").
  { unfold withPercent. pose proof (fmtFloat2_nonempty x).
    destruct (fmtFloat 2 x); [congruence | reflexivity]. }
  split; [exact Hcell|].
  intros Hfin. destruct x as [neg m| |]; try discriminate.
  apply withPercent_twoDecimal, fmtFloat2_finite.
Qed.

(** C10 (as stated, refuted): the summary of cluster c, whose CPU sample
    holds NaN, has the cpu field "NaN %", which is neither empty nor a
    number with two decimals and the suffix. *)
Lemma GetStacks_cpu_not_a_number :
  exists out s,
    fst (GetStacks (testEnv (Ok lbService)) testNow "T1" emptyState) = Ok out /\
    In s out /\ Cpu s = "NaN %" /\ ~ percentField (Cpu s).
Proof.
  eexists. eexists. split; [vm_compute; reflexivity|].
  split; [left; reflexivity|]. split; [reflexivity|].
  change (~ percentField "NaN %").
  intros [Hempty|(v & Hv & Heq)]; [congruence|].
  destruct v as [|c1 v]; [vm_compute in Heq; congruence|].
  rewrite append_cons in Heq. injection Heq as <- Heq.
  destruct v as [|c2 v]; [vm_compute in Heq; congruence|].
  rewrite append_cons in Heq. injection Heq as <- Heq.
  destruct v as [|c3 v]; [vm_compute in Heq; congruence|].
  rewrite append_cons in Heq. injection Heq as <- Heq.
  destruct v as [|c4 v]; [vm_compute in Hv; congruence|].
  rewrite append_cons in Heq. injection Heq as <- Heq.
  destruct v as [|c5 v]; [vm_compute in Heq; congruence|].
  rewrite append_cons in Heq. injection Heq as <- Heq.
  destruct v; [vm_compute in Heq; congruence|].
  rewrite append_cons in Heq. congruence.
Qed.

(** C10 (amended): in every summary of [GetStacks] the memory and storage
    fields are each empty or a number with two decimals followed by the
    suffix " %", and the cpu field is empty or the two-decimal rendering of
    the value parsed from the cluster's CPU sample followed by that suffix,
    which is a number with two decimals whenever the parsed value is
    finite; the suffix is on non-empty values only. *)
Theorem stackSummary_fields (env : Env) (now : Time) (organizationId : string)
    (st st' : State) (out : list DashboardStack) (s : DashboardStack) :
  (forall stackMemoryDisk stackCpu cluster,
     let summary := stackOf env stackMemoryDisk stackCpu cluster in
     percentField (Memory summary) /\
     percentField (Storage summary) /\
     (Cpu summary = "" \/
      exists val x,
        In val stackCpu /\ ParseFloat32 env (Value val) = (x, None) /\
        Cpu summary = fmtFloat 2 x +:+ " %" /\
        (isFinite x = true -> percentField (Cpu summary)))) /\
  (GetStacks env now organizationId st = (Ok out, st') -> In s out ->
   percentField (Memory s) /\
   percentField (Storage s) /\
   (Cpu s = "" \/
    exists x, Cpu s = fmtFloat 2 x +:+ " %" /\
      (isFinite x = true -> percentField (Cpu s)))).
Proof.
  split.
  - intros stackMemoryDisk stackCpu cluster. cbv zeta.
    destruct (stackOf_memory_storage env stackMemoryDisk stackCpu cluster)
      as [Hmem Hsto].
    split; [exact Hmem|]. split; [exact Hsto|].
    apply stackOf_cpu.
  - intros Hrun Hin.
    destruct (GetStacks_ok env now organizationId st st' out Hrun)
      as (clusters & stackMemoryDisk & stackCpu & _ & Hout).
    change (runningFirst env)
      with (lessAt (isRunning (StackStatus_RUNNING env))) in Hout.
    pose proof (sortSlice_partition (isRunning (StackStatus_RUNNING env))
                  xorshift_Next
                  (map (stackOf env stackMemoryDisk stackCpu) clusters))
      as (Hperm & _).
    rewrite <- Hout in Hperm.
    apply (Permutation_in _ (Permutation_sym Hperm)) in Hin.
    apply in_map_iff in Hin as (cluster & <- & _).
    destruct (stackOf_memory_storage env stackMemoryDisk stackCpu cluster)
      as [Hmem Hsto].
    split; [exact Hmem|]. split; [exact Hsto|].
    destruct (stackOf_cpu env stackMemoryDisk stackCpu cluster)
      as [Hempty|(val & x & _ & _ & Hcpu & Hfin)]; [left; exact Hempty|].
    right. exists x. split; assumption.
Qed.

(** *** Civil dates and days since the epoch *)

Lemma civilFromDays_fields (z : Z) :
  let '(y, m, d) := civilFromDays z in 1 <= m <= 12 /\ 1 <= d <= 31.
Proof.
  unfold civilFromDays.
  set (z' := z + 719468).
  set (era := z' / 146097).
  set (doe := z' - era * 146097).
  set (yoe := (doe - doe / 1460 + doe / 36524 - doe / 146096) / 365).
  set (doy := doe - (365 * yoe + yoe / 4 - yoe / 100)).
  set (mp := (5 * doy + 2) / 153).
  assert (Hdoe : 0 <= doe < 146097) by (subst doe era; divlia).
  assert (Hyoe : 0 <= yoe <= 399) by (subst yoe; divlia).
  assert (Hdoy : 0 <= doy <= 365) by (subst doy yoe; divlia).
  assert (Hmp : 0 <= mp <= 11) by (subst mp; divlia).
  destruct (Z.ltb_spec mp 10); subst mp; divlia.
Qed.

(** [daysFromCivil] undoes [civilFromDays]. *)
Lemma daysFromCivil_civilFromDays (z : Z) :
  let '(y, m, d) := civilFromDays z in daysFromCivil y m d = z.
Proof.
  unfold civilFromDays, daysFromCivil.
  set (z' := z + 719468).
  set (era := z' / 146097).
  set (doe := z' - era * 146097).
  set (yoe := (doe - doe / 1460 + doe / 36524 - doe / 146096) / 365).
  set (doy := doe - (365 * yoe + yoe / 4 - yoe / 100)).
  set (mp := (5 * doy + 2) / 153).
  assert (Hdoe : 0 <= doe < 146097) by (subst doe era; divlia).
  assert (Hyoe : 0 <= yoe <= 399) by (subst yoe; divlia).
  assert (Hdoy : 0 <= doy <= 365) by (subst doy yoe; divlia).
  assert (Hmp : 0 <= mp <= 11) by (subst mp; divlia).
  set (m := if mp <? 10 then mp + 3 else mp - 9).
  assert (Hm : (m + 9) mod 12 = mp /\ ((m <=? 2) = negb (mp <? 10))).
  { subst m. destruct (Z.ltb_spec mp 10); split;
      try (apply Z.leb_gt; lia); try (apply Z.leb_le; lia); divlia. }
  destruct Hm as [Hm9 Hm2]. rewrite Hm9.
  set (y := yoe + era * 400).
  assert (Hy : (if m <=? 2
                then (if m <=? 2 then y + 1 else y) - 1
                else (if m <=? 2 then y + 1 else y)) = y)
    by (destruct (m <=? 2); lia).
  rewrite Hy.
  assert (Hera : y / 400 = era) by (subst y; divlia).
  rewrite Hera.
  replace (y - era * 400) with yoe by (subst y; lia).
  subst doy doe z'. lia.
Qed.

Lemma daysFromCivil_day (y m d k : Z) :
  daysFromCivil y m (d + k) = daysFromCivil y m d + k.
Proof. unfold daysFromCivil. lia. Qed.

Lemma dateOf_midnight (z : Z) : dateOf (midnight z) = civilFromDays z.
Proof.
  unfold dateOf, midnight, UTC. cbn [sec offset]. f_equal. divlia.
Qed.

Lemma Date_normal (y m d : Z) :
  1 <= m <= 12 -> Date y m d UTC = midnight (daysFromCivil y m d).
Proof.
  intros Hm. unfold Date, midnight, UTC.
  replace ((m - 1) / 12) with 0 by divlia.
  replace ((m - 1) mod 12 + 1) with m by divlia.
  replace (y + 0) with y by lia.
  replace (daysFromCivil y m 1 + (d - 1)) with (daysFromCivil y m d)
    by (rewrite <- daysFromCivil_day; f_equal; lia).
  f_equal. lia.
Qed.

Lemma Date_of_midnight (z : Z) :
  Date (Year (midnight z)) (Month (midnight z)) (Day (midnight z)) UTC = midnight z.
Proof.
  unfold Year, Month, Day. rewrite dateOf_midnight.
  pose proof (civilFromDays_fields z) as Hf.
  pose proof (daysFromCivil_civilFromDays z) as Hr.
  destruct (civilFromDays z) as [[y m] d]. cbn [fst snd].
  rewrite Date_normal by tauto. rewrite Hr. reflexivity.
Qed.

Lemma AddDays_midnight (z : Z) : AddDays (midnight z) 1 = midnight (z + 1).
Proof.
  unfold AddDays. rewrite dateOf_midnight.
  pose proof (civilFromDays_fields z) as Hf.
  pose proof (daysFromCivil_civilFromDays z) as Hr.
  destruct (civilFromDays z) as [[y m] d].
  change (offset (midnight z)) with UTC.
  rewrite Date_normal by tauto. rewrite daysFromCivil_day, Hr.
  unfold Add, midnight, UTC. cbn [sec offset]. f_equal.
  replace ((86400 * z + 0) mod 86400) with 0 by divlia. lia.
Qed.

(** *** Dates in the layout [2006-01-02] compare as the dates do *)

Lemma Ascii_compare_digit (a b : N) :
  (a < 10)%N -> (b < 10)%N ->
  Ascii.compare (digitChar a) (digitChar b) = (a ?= b)%N.
Proof.
  intros Ha Hb. unfold Ascii.compare, digitChar.
  rewrite !N_ascii_embedding by lia.
  destruct (N.compare_spec a b) as [H|H|H].
  - subst. apply N.compare_refl.
  - apply N.compare_lt_iff. lia.
  - apply N.compare_gt_iff. lia.
Qed.

Lemma String_compare_cons (c d : ascii) (s t : string) :
  String.compare (String c s) (String d t) =
  match Ascii.compare c d with
  | Eq => String.compare s t
  | other => other
  end.
Proof. cbn [String.compare]. destruct (Ascii.compare c d); reflexivity. Qed.

Lemma lastDigits_compare (w : nat) (a b : N) (s t : string) :
  (a < 10 ^ N.of_nat w)%N -> (b < 10 ^ N.of_nat w)%N ->
  String.compare (lastDigits w a +:+ s) (lastDigits w b +:+ t) =
  match (a ?= b)%N with
  | Eq => String.compare s t
  | other => other
  end.
Proof.
  revert a b s t. induction w as [|w IH]; intros a b s t Ha Hb.
  - cbn in Ha, Hb. assert (a = 0%N) by lia. assert (b = 0%N) by lia. subst.
    reflexivity.
  - rewrite Nat2N.inj_succ, N.pow_succ_r' in Ha, Hb.
    cbn [lastDigits]. rewrite !append_assoc, !append_cons.
    change ("" +:+ s) with s. change ("" +:+ t) with t.
    assert (Ha10 : (a / 10 < 10 ^ N.of_nat w)%N)
      by (apply N.Div0.div_lt_upper_bound; lia).
    assert (Hb10 : (b / 10 < 10 ^ N.of_nat w)%N)
      by (apply N.Div0.div_lt_upper_bound; lia).
    rewrite (IH (a / 10)%N (b / 10)%N _ _ Ha10 Hb10).
    rewrite String_compare_cons.
    rewrite Ascii_compare_digit by (apply N.mod_lt; lia).
    pose proof (N.div_mod a 10 ltac:(lia)) as Hda.
    pose proof (N.div_mod b 10 ltac:(lia)) as Hdb.
    pose proof (N.mod_lt a 10 ltac:(lia)) as Hma.
    pose proof (N.mod_lt b 10 ltac:(lia)) as Hmb.
    clear IH Ha Hb Ha10 Hb10.
    set (qa := (a / 10)%N) in *. set (ra := (a mod 10)%N) in *.
    set (qb := (b / 10)%N) in *. set (rb := (b mod 10)%N) in *.
    clearbody qa ra qb rb.
    destruct (N.compare_spec qa qb) as [Hq|Hq|Hq].
    + destruct (N.compare_spec ra rb) as [Hr|Hr|Hr].
      * replace a with b by lia. rewrite N.compare_refl. reflexivity.
      * replace (a ?= b)%N with Lt
          by (symmetry; apply N.compare_lt_iff; lia). reflexivity.
      * replace (a ?= b)%N with Gt
          by (symmetry; apply N.compare_gt_iff; lia). reflexivity.
    + replace (a ?= b)%N with Lt
        by (symmetry; apply N.compare_lt_iff; lia). reflexivity.
    + replace (a ?= b)%N with Gt
        by (symmetry; apply N.compare_gt_iff; lia). reflexivity.
Qed.

Lemma append_nil_l (s : string) : "" +:+ s = s.
Proof. reflexivity. Qed.

Lemma lastDigits_compare_end (w : nat) (a b : N) :
  (a < 10 ^ N.of_nat w)%N -> (b < 10 ^ N.of_nat w)%N ->
  String.compare (lastDigits w a) (lastDigits w b) = (a ?= b)%N.
Proof.
  intros Ha Hb. pose proof (lastDigits_compare w a b "" "" Ha Hb) as H.
  rewrite !append_nil_r in H. rewrite H.
  destruct (a ?= b)%N; reflexivity.
Qed.

Lemma appendInt_small (x : Z) (w : nat) :
  0 <= x < 10 ^ Z.of_nat w -> appendInt x w = lastDigits w (Z.to_N x).
Proof.
  intros Hx. unfold appendInt.
  replace (x <? 0) with false by (symmetry; apply Z.ltb_ge; lia).
  rewrite Z.abs_eq by lia.
  replace (Z.to_N x <? 10 ^ N.of_nat w)%N with true; [reflexivity|].
  symmetry. apply N.ltb_lt.
  apply N2Z.inj_lt. rewrite Z2N.id by lia.
  rewrite N2Z.inj_pow, nat_N_Z. cbn. lia.
Qed.

Lemma formatDate_compare (a b : Z * Z * Z) :
  layoutDate a -> layoutDate b ->
  String.compare (formatDate a) (formatDate b) = dateCompare a b.
Proof.
  destruct a as [[y1 m1] d1], b as [[y2 m2] d2].
  intros (Hy1 & Hm1 & Hd1) (Hy2 & Hm2 & Hd2).
  unfold formatDate, dateCompare.
  rewrite !(appendInt_small _ 4) by (cbn; lia).
  rewrite !(appendInt_small _ 2) by (cbn; lia).
  rewrite lastDigits_compare by (cbn; lia).
  rewrite Z2N.inj_compare by lia.
  destruct (y1 ?= y2); try reflexivity.
  rewrite !append_cons, !append_nil_l.
  rewrite String_compare_cons. change (Ascii.compare "-" "-") with Eq.
  rewrite lastDigits_compare by (cbn; lia).
  rewrite Z2N.inj_compare by lia.
  destruct (m1 ?= m2); try reflexivity.
  rewrite String_compare_cons. change (Ascii.compare "-" "-") with Eq.
  cbv iota. rewrite lastDigits_compare_end by (cbn; lia).
  rewrite Z2N.inj_compare by lia. reflexivity.
Qed.

Lemma dateCompare_eq (a b : Z * Z * Z) : dateCompare a b = Eq <-> a = b.
Proof.
  destruct a as [[y1 m1] d1], b as [[y2 m2] d2]. unfold dateCompare. split.
  - destruct (Z.compare_spec y1 y2); try discriminate.
    destruct (Z.compare_spec m1 m2); try discriminate.
    destruct (Z.compare_spec d1 d2); try discriminate.
    intros _. congruence.
  - intros [= -> -> ->]. rewrite !Z.compare_refl. reflexivity.
Qed.

Lemma formatDate_leb (a b : Z * Z * Z) :
  layoutDate a -> layoutDate b ->
  String.leb (formatDate a) (formatDate b) = negb (dateAfter a b).
Proof.
  intros Ha Hb. unfold String.leb, dateAfter.
  rewrite formatDate_compare by assumption.
  destruct (dateCompare a b); reflexivity.
Qed.

Lemma String_compare_refl (s : string) : String.compare s s = Eq.
Proof.
  induction s as [|c s IH]; [reflexivity|].
  rewrite String_compare_cons. unfold Ascii.compare. rewrite N.compare_refl.
  exact IH.
Qed.

Lemma formatDate_eqb (a b : Z * Z * Z) :
  layoutDate a -> layoutDate b ->
  String.eqb (formatDate a) (formatDate b) = true <-> a = b.
Proof.
  intros Ha Hb. rewrite String.eqb_eq. split.
  - intros Heq. apply dateCompare_eq.
    rewrite <- formatDate_compare by assumption.
    rewrite Heq. apply String_compare_refl.
  - intros ->. reflexivity.
Qed.

Lemma civilFromDays_layout (z : Z) :
  zeroDay <= z < dayTenThousand -> layoutDate (civilFromDays z).
Proof.
  intros Hz. pose proof (civilFromDays_fields z) as Hf.
  unfold civilFromDays, layoutDate, zeroDay, dayTenThousand in *.
  set (z' := z + 719468) in *.
  set (era := z' / 146097) in *.
  set (doe := z' - era * 146097) in *.
  set (yoe := (doe - doe / 1460 + doe / 36524 - doe / 146096) / 365) in *.
  set (doy := doe - (365 * yoe + yoe / 4 - yoe / 100)) in *.
  set (mp := (5 * doy + 2) / 153) in *.
  split; [|exact Hf].
  assert (Hdoe : 0 <= doe < 146097) by (subst doe era; divlia).
  assert (Hyoe : 0 <= yoe <= 399) by (subst yoe; divlia).
  assert (Hera : 0 <= era <= 24) by (subst era z'; divlia).
  assert (Hdoy : 0 <= doy <= 365) by (subst doy yoe; divlia).
  assert (Hmp : 0 <= mp <= 11) by (subst mp; divlia).
  assert (Hlast : era = 24 -> yoe = 399 -> doy < 306).
  { intros He Hy. subst doy. rewrite Hy. subst yoe doe z'. divlia. }
  destruct (Z.ltb_spec mp 10) as [Hlt|Hge].
  - destruct (Z.leb_spec (mp + 3) 2); lia.
  - destruct (Z.leb_spec (mp - 9) 2); [|lia].
    assert (306 <= doy) by (subst mp; divlia). lia.
Qed.

Lemma monthStart_range (y m : Z) :
  2 <= y <= 9998 -> 1 <= m <= 12 ->
  zeroDay < daysFromCivil y m 1 /\ daysFromCivil y m 1 + 30 < dayTenThousand.
Proof.
  intros Hy Hm. unfold daysFromCivil, zeroDay, dayTenThousand.
  destruct (Z.leb_spec m 2); divlia.
Qed.

(** *** The calendar of pod restarts: the buckets *)

Lemma calendarLoop_run (now : Time) (alerts : list Alert) (n : nat) :
  forall (fuel : nat) (s : Z) (xs ys : list string),
    (n < fuel)%nat -> zeroDay < s ->
    calendarLoop now fuel (midnight s, midnight (s + Z.of_nat n - 1)) alerts xs ys =
    Some (xs ++ map (fun z => Itoa (86400 * z)) (daysFrom s n),
          ys ++ map (bucketCell now alerts) (daysFrom s n)).
Proof.
  induction n as [|n IH]; intros fuel s xs ys Hfuel Hs;
    (destruct fuel as [|fuel]; [lia|]); cbn [calendarLoop rangeDate_next].
  - unfold After, midnight. cbn [sec].
    replace (86400 * (s + Z.of_nat 0 - 1) <? 86400 * s) with true
      by (symmetry; apply Z.ltb_lt; lia).
    cbn. rewrite !app_nil_r. reflexivity.
  - unfold After. cbn [midnight sec].
    replace (86400 * (s + Z.of_nat (S n) - 1) <? 86400 * s) with false
      by (symmetry; apply Z.ltb_ge; lia).
    fold (midnight s). fold (midnight (s + Z.of_nat (S n) - 1)).
    replace (IsZero (midnight s)) with false
      by (symmetry; unfold IsZero, midnight, zeroTime, zeroDay in *; cbn [sec];
          apply Z.eqb_neq; lia).
    rewrite AddDays_midnight, Date_of_midnight.
    replace (s + Z.of_nat (S n) - 1) with (s + 1 + Z.of_nat n - 1) by lia.
    rewrite IH by (unfold zeroDay in *; lia).
    cbn [daysFrom map]. rewrite <- !app_assoc. cbn [app].
    unfold bucketCell, Format, Unix. rewrite dateOf_midnight.
    reflexivity.
Qed.

Lemma countPodRestart_eventsOn (alerts : list Alert) (date : Z * Z * Z) :
  layoutDate date ->
  Forall (fun alert => layoutDate (dateOf (CreatedAt alert))) alerts ->
  countPodRestart alerts (formatDate date) = eventsOn date alerts.
Proof.
  intros Hdate Halerts. unfold countPodRestart, eventsOn.
  assert (Hgen : forall acc,
    fold_left
      (fun cnt alert =>
         if String.eqb (Format (CreatedAt alert)) (formatDate date)
         then cnt + 1 else cnt) alerts acc
    = acc + Z.of_nat (length (List.filter (onDate date) alerts))).
  { induction Halerts as [|alert alerts Halert _ IH]; intros acc.
    - cbn. lia.
    - cbn [fold_left List.filter]. rewrite IH. unfold onDate at 2, Format.
      destruct (String.eqb_spec (formatDate (dateOf (CreatedAt alert)))
                  (formatDate date)) as [Heq|Hne].
      + assert (Hsame : dateOf (CreatedAt alert) = date).
        { apply formatDate_eqb; [assumption..|]. apply String.eqb_eq. exact Heq. }
        rewrite (proj2 (dateCompare_eq _ _) Hsame). cbn [length]. lia.
      + destruct (dateCompare (dateOf (CreatedAt alert)) date) eqn:Hcmp;
          try reflexivity.
        apply dateCompare_eq in Hcmp. rewrite Hcmp in Hne. congruence. }
  apply Hgen.
Qed.

Lemma daysFrom_range (s : Z) (n : nat) (z : Z) :
  In z (daysFrom s n) -> s <= z < s + Z.of_nat n.
Proof.
  revert s. induction n as [|n IH]; intros s Hin; [destruct Hin|].
  cbn [daysFrom] in Hin. destruct Hin as [<-|Hin]; [lia|].
  apply IH in Hin. lia.
Qed.

Lemma civilFromDays_monthStart (y m : Z) :
  1 <= m <= 12 -> civilFromDays (daysFromCivil y m 1) = (y, m, 1).
Proof.
  intros Hm. unfold daysFromCivil.
  set (y' := if m <=? 2 then y - 1 else y).
  set (era := y' / 400). set (yoe := y' - era * 400).
  set (mp := (m + 9) mod 12).
  set (doy := (153 * mp + 2) / 5 + 1 - 1).
  set (doe := yoe * 365 + yoe / 4 - yoe / 100 + doy).
  assert (Hyoe : 0 <= yoe <= 399) by (subst yoe era; divlia).
  assert (Hmp : 0 <= mp <= 11) by (subst mp; divlia).
  assert (Hdoy : 0 <= doy <= 337) by (subst doy; divlia).
  assert (Hdoe : 0 <= doe <= 146096) by (subst doe; divlia).
  unfold civilFromDays.
  replace (era * 146097 + doe - 719468 + 719468) with (era * 146097 + doe) by lia.
  assert (Hera : (era * 146097 + doe) / 146097 = era) by divlia.
  rewrite Hera.
  replace (era * 146097 + doe - era * 146097) with doe by lia.
  assert (Hy : (doe - doe / 1460 + doe / 36524 - doe / 146096) / 365 = yoe)
    by (subst doe; divlia).
  rewrite Hy.
  replace (doe - (365 * yoe + yoe / 4 - yoe / 100)) with doy by (subst doe; lia).
  assert (Hmp' : (5 * doy + 2) / 153 = mp) by (subst doy; divlia).
  rewrite Hmp'.
  replace (doy - (153 * mp + 2) / 5 + 1) with 1 by (subst doy; lia).
  assert (Hm' : (if mp <? 10 then mp + 3 else mp - 9) = m).
  { destruct (Z.ltb_spec mp 10); subst mp; divlia. }
  rewrite Hm'. subst y' yoe.
  destruct (Z.leb_spec m 2); f_equal; f_equal; lia.
Qed.

Lemma dateOf_layout (t : Time) : 0 <= Year t <= 9999 -> layoutDate (dateOf t).
Proof.
  unfold Year, dateOf. intros Hy.
  pose proof (civilFromDays_fields ((sec t + offset t) / 86400)) as Hf.
  destruct (civilFromDays ((sec t + offset t) / 86400)) as [[y m] d].
  cbn [fst snd] in Hy. split; [exact Hy | exact Hf].
Qed.

(** C4 (as stated, refuted): today is the date of the current instant in
    the location of the process, not the UTC date.  At 2023-05-09 20:00 UTC
    in a location nine hours east it is 2023-05-10 there, and the bucket of
    2023-05-10, the tenth of the calendar of May 2023, holds the count 0
    although its day is after today's UTC date, 2023-05-09. *)
Lemma podCalendar_today_not_utc :
  civilFromDays (sec eveningEast / 86400) = (2023, 5, 9) /\
  dateOf eveningEast = (2023, 5, 10) /\
  dateAfter (civilFromDays (daysFromCivil 2023 5 10))
    (civilFromDays (sec eveningEast / 86400)) = true /\
  exists chart,
    fst (podCalendar (testEnv (Ok lbService)) eveningEast "T1" "2023" "5" emptyState)
      = Ok chart /\
    XAxis (Chart chart) !! 9%nat = Some (Itoa (Unix (Date 2023 5 10 UTC))) /\
    Series (Chart chart) =
      [ {| UnitName := "podRestartCount";
           Data := [ "0"; "0"; "2"; "0"; "1"; "0"; "0"; "1"; "0"; "0" ] ++
                   replicate 21 "" |} ].
Proof.
  split; [reflexivity|]. split; [reflexivity|]. split; [reflexivity|].
  eexists. vm_compute. repeat split; reflexivity.
Qed.

(** C4 (amended): for a request whose year and month parse to a month of the
    years 2 to 9998 that is not after the current month (the current year
    being at most 9998), and alerts dated in the years 0 to 9999, the
    calendar chart is built over the 31 days from the first day of the month
    at 00:00 UTC to 30 days later, both included: the x axis holds, day by
    day, the Unix time of the day's midnight UTC in decimal, and the series
    podRestartCount holds for each day the empty string when the day is
    after today's date, and otherwise the decimal count of the alerts whose
    creation date is that day; today's date is that of the current instant
    in the location of the process. *)
Theorem podRestartCalendar (env : Env) (now : Time)
    (organizationId year month : string) (st : State) (alerts : list Alert) :
  let yearInt := fst (Atoi year) in
  let monthInt := fst (Atoi month) in
  let start := daysFromCivil yearInt monthInt 1 in
  let today := dateOf now in
  2 <= yearInt -> 1 <= monthInt <= 12 -> Year now <= 9998 ->
  ~ futureMonth now year month ->
  alertRepo_FetchPodRestart env organizationId (midnight start)
    (midnight (start + 30)) = Ok alerts ->
  Forall (fun alert => 0 <= Year (CreatedAt alert) <= 9999) alerts ->
  civilFromDays start = (yearInt, monthInt, 1) /\
  length (daysFrom start 31) = 31%nat /\
  exists chart,
    podCalendar env now organizationId year month st =
      (Ok chart,
       {| cache := cache st;
          calls := calls st ++
            [AlertFetchPodRestart organizationId (midnight start)
               (midnight (start + 30))] |}) /\
    XAxis (Chart chart) = map (fun z => Itoa (86400 * z)) (daysFrom start 31) /\
    Series (Chart chart) =
      [ {| UnitName := "podRestartCount";
           Data := map (fun z =>
                          if dateAfter (civilFromDays z) today then ""
                          else Itoa (eventsOn (civilFromDays z) alerts))
                     (daysFrom start 31) |} ].
Proof.
  intros yearInt monthInt start today Hyear Hmonth Hnow Hpast Hfetch Halerts.
  split; [apply civilFromDays_monthStart; exact Hmonth|].
  split; [reflexivity|].
  assert (Hvalid : (Year now <? yearInt) = false /\
                   ((Year now =? yearInt) && (Month now <? monthInt)) = false).
  { unfold futureMonth in Hpast. fold yearInt monthInt in Hpast. split.
    - apply Z.ltb_ge. lia.
    - destruct (Z.eqb_spec (Year now) yearInt); [|reflexivity].
      cbn [andb]. apply Z.ltb_ge. lia. }
  destruct Hvalid as [Hy Hm].
  assert (Hyr : yearInt <= Year now) by (apply Z.ltb_ge; exact Hy).
  destruct (monthStart_range yearInt monthInt ltac:(lia) Hmonth) as [Hlo Hhi].
  fold start in Hlo, Hhi.
  assert (Hstart : Date yearInt monthInt 1 UTC = midnight start)
    by (apply Date_normal; exact Hmonth).
  assert (Hend : Add (midnight start) (3600 * 24 * 30) = midnight (start + 30))
    by (unfold Add, midnight; cbn [sec offset]; f_equal; lia).
  unfold podCalendar. fold yearInt monthInt. rewrite Hy, Hm, Hstart, Hend.
  unfold bind, call. cbn [fst snd]. rewrite Hfetch. cbn [orFail ret].
  unfold rangeDate. rewrite !Date_of_midnight.
  assert (Hfuel : calendarFuel (midnight start) (midnight (start + 30)) = 33%nat).
  { unfold calendarFuel, midnight. cbn [sec].
    replace ((86400 * (start + 30) - 86400 * start) / 86400 + 3) with 33 by divlia.
    reflexivity. }
  rewrite Hfuel.
  pose proof (calendarLoop_run now alerts 31 33 start [] [] ltac:(lia) Hlo)
    as Hloop.
  replace (start + Z.of_nat 31 - 1) with (start + 30) in Hloop by lia.
  rewrite Hloop. cbn [app].
  eexists. split; [reflexivity|]. cbn [Chart XAxis Series].
  split; [reflexivity|]. f_equal. f_equal.
  apply map_ext_in. intros z Hz. apply daysFrom_range in Hz.
  assert (Hzl : layoutDate (civilFromDays z))
    by (apply civilFromDays_layout; unfold zeroDay in *; lia).
  assert (Hnl : layoutDate (dateOf now)) by (apply dateOf_layout; lia).
  unfold bucketCell, Format. rewrite formatDate_leb by assumption.
  unfold today.
  destruct (dateAfter (civilFromDays z) (dateOf now)); cbn [negb]; [reflexivity|].
  rewrite countPodRestart_eventsOn; [reflexivity | exact Hzl |].
  eapply Forall_impl; [exact Halerts|].
  intros alert Ha. apply dateOf_layout. exact Ha.
Qed.

(** The calendar of May 2023 on 2023-05-09: 31 days, counts up to the 9th,
    nothing from the 10th on. *)
Lemma podRestartCalendar_witness :
  exists chart,
    fst (podCalendar (testEnv (Ok lbService)) testNow "T1" "2023" "5" emptyState)
      = Ok chart /\
    XAxis (Chart chart) = map (fun z => Itoa (86400 * z)) (daysFrom 19478 31) /\
    Series (Chart chart) =
      [ {| UnitName := "podRestartCount";
           Data := [ "0"; "0"; "2"; "0"; "1"; "0"; "0"; "1"; "0" ] ++
                   replicate 22 "" |} ].
Proof.
  destruct (podRestartCalendar (testEnv (Ok lbService)) testNow "T1" "2023" "5"
              emptyState testAlerts)
    as (_ & _ & chart & Hrun & Hx & Hs).
  - vm_compute. intros H. discriminate H.
  - vm_compute. split; intros H; discriminate H.
  - vm_compute. intros H. discriminate H.
  - unfold futureMonth. vm_compute. intros [H|[_ H]]; discriminate H.
  - reflexivity.
  - repeat constructor; vm_compute; intros H; discriminate H.
  - exists chart. rewrite Hrun, Hx, Hs. split; [reflexivity|].
    split; [reflexivity|]. vm_compute. reflexivity.
Defined.

(** The bounds on the request are needed.  January of year 1 starts at the
    zero [Time], at which the loop stops: the chart has no bucket. *)
Example podCalendar_year_one :
  exists chart,
    fst (podCalendar (testEnv (Ok lbService)) testNow "T1" "1" "1" emptyState)
      = Ok chart /\
    XAxis (Chart chart) = [].
Proof. eexists. vm_compute. split; reflexivity. Qed.

(** The window is 30 days whatever the month: that of February 2023 ends on
    2023-03-03. *)
Example podCalendar_february :
  exists chart,
    fst (podCalendar (testEnv (Ok lbService)) testNow "T1" "2023" "2" emptyState)
      = Ok chart /\
    last (XAxis (Chart chart)) = Some (Itoa (Unix (Date 2023 3 3 UTC))).
Proof. eexists. vm_compute. split; reflexivity. Qed.

